(** * WhatsApp Web library: codec, cipher channel, connection manager

    A shallow embedding of the parts of the library that carry its
    transport logic:

    - [Binary]: [BinaryHandler], [BinaryWriter] and [BinaryReader] of
      [src/binary.js];
    - [Utils]: [whatsappEncrypt]/[whatsappDecrypt] and the AES helpers of
      [src/utils.js];
    - [Manager]: [RealWebSocketManager] of [src/websocket-real.js]
      (connection life cycle, keep-alive, back-off, request correlation);
    - [Production]: the rate-limited outbound queue of
      [src/production-client.js].

    JavaScript values are modelled by inductive types, objects with
    mutable fields by records threaded through the functions, thrown
    exceptions by a sum type, and every effect on the outside world
    (socket calls, emitted events, promise callbacks, timers, random
    numbers) by an explicit field of the state. *)

From Stdlib Require Import ZArith QArith Qminmax Qpower String Ascii List Lia Bool Decimal DecimalString.
From Stdlib.Strings Require Import Byte.
From stdpp Require Import base option list strings gmap.

Local Open Scope string_scope.
Local Open Scope Z_scope.
Local Open Scope list_scope.

(** ** Bytes *)

(** The content of a [Buffer] is a list of bytes.  Reading an element
    gives a number in [0, 256); storing a number keeps its low 8 bits. *)
Definition byte_to_Z (b : byte) : Z := Z.of_N (Byte.to_N b).

Definition byte_of_Z (z : Z) : byte :=
  default x00 (Byte.of_N (Z.to_N (Z.land z 255))).

#[global] Instance byte_eq_decision : EqDecision byte := Byte.byte_eq_dec.

(** ** Results of code that can throw *)

Inductive Result (E A : Type) : Type :=
| Ok (a : A)
| Err (e : E).
Arguments Ok {E A} a.
Arguments Err {E A} e.

Definition rbind {E A B} (m : Result E A) (k : A -> Result E B) : Result E B :=
  match m with
  | Ok a => k a
  | Err e => Err e
  end.

Notation "'letR' x ':=' m 'in' k" := (rbind m (fun x => k))
  (at level 10, x pattern, m at level 100, k at level 200).

(** ** The binary node codec ([src/binary.js]) *)

Module Binary.

(** A JavaScript value as the codec sees it.  [VNull] is [null], and
    [undefined] where a whole node is [undefined] (the codec treats the two
    alike there); a property of an object is either absent, which reads as
    [undefined], or listed with its value; a string is kept as the sequence of its UTF-8
    bytes, so [Buffer.from(str, 'utf8')] and [buf.toString('utf8')] are
    [list_byte_of_string] and [string_of_list_byte] (the replacement
    characters that [toString] substitutes for malformed UTF-8 are not
    rendered); a number is an integer; a [Buffer] is a list of bytes; an
    object is the list of its own enumerable properties in
    [Object.entries] order. *)
#[warning="-register-all"]
Inductive Value : Type :=
| VNull
| VStr (s : string)
| VNum (n : Z)
| VBuf (b : list byte)
| VArr (items : list Value)
| VObj (props : list (string * Value)).

Inductive CodecError : Type :=
| UnexpectedEnd              (* new Error('Unexpected end of binary data') *)
| UnknownMarker (marker : Z) (* new Error(`Unknown binary marker: ${marker}`) *)
| TypeError.                 (* raised by the runtime, not by the codec *)

(** [this.TOKENS] *)
Definition TOKENS : list (option string) :=
  [ None; Some "stream:start"; Some "stream:end"; Some "iq"; Some "message";
    Some "notification"; Some "presence"; Some "receipt"; Some "response";
    Some "success"; Some "failure"; Some "auth"; Some "challenge";
    Some "type"; Some "id"; Some "from"; Some "to"; Some "xmlns";
    Some "class"; Some "text"; Some "media"; Some "image"; Some "video";
    Some "audio"; Some "document"; Some "body"; Some "participant";
    Some "group"; Some "contact"; Some "status" ].

(** [Array.prototype.indexOf] on a list of tokens: the first index holding
    the string, or -1. *)
Fixpoint indexOf_from (l : list (option string)) (str : string) (i : Z) : Z :=
  match l with
  | [] => -1
  | x :: rest =>
      match x with
      | Some s => if String.eqb s str then i else indexOf_from rest str (i + 1)
      | None => indexOf_from rest str (i + 1)
      end
  end.

Definition indexOf (l : list (option string)) (str : string) : Z :=
  indexOf_from l str 0.

(** [Number.prototype.toString] on an integer (decimal digits; the
    exponent form JavaScript uses from 1e21 on is outside the model). *)
Definition number_toString (n : Z) : string :=
  NilZero.string_of_int (Z.to_int n).

(** *** BinaryWriter *)

Record BinaryWriter : Type := mkWriter {
  buffers : list (list byte);
  wlength : Z
}.

Definition newWriter : BinaryWriter := mkWriter [] 0.

Definition writeByte (byte : Z) (w : BinaryWriter) : BinaryWriter :=
  mkWriter (buffers w ++ [[byte_of_Z (Z.land byte 255)]]) (wlength w + 1).

Definition writeBytes (bytes : list byte) (w : BinaryWriter) : BinaryWriter :=
  mkWriter (buffers w ++ [bytes]) (wlength w + Z.of_nat (length bytes)).

(** The shifts of [writeInt20] act on the 32-bit view of [value]; the
    three bytes kept are bits 0..23, which that view does not change. *)
Definition writeInt20 (value : Z) (w : BinaryWriter) : BinaryWriter :=
  writeBytes [ byte_of_Z (Z.land (Z.shiftr value 16) 255);
               byte_of_Z (Z.land (Z.shiftr value 8) 255);
               byte_of_Z (Z.land value 255) ] w.

(** [Buffer.concat(list, totalLength)]: the chunks joined, then cut or
    zero-filled to [totalLength]. *)
Definition Buffer_concat (chunks : list (list byte)) (totalLength : Z) : list byte :=
  let all := concat chunks in
  take (Z.to_nat totalLength) all
    ++ replicate (Z.to_nat totalLength - length all)%nat x00.

Definition toBuffer (w : BinaryWriter) : list byte :=
  Buffer_concat (buffers w) (wlength w).

(** *** Encoding *)

Definition _writeString (str : string) (w : BinaryWriter) : BinaryWriter :=
  let tokenIndex := indexOf TOKENS str in
  if (0 <? tokenIndex) && (tokenIndex <? 256) then
    writeByte tokenIndex w
  else
    let encoded := list_byte_of_string str in
    let len := Z.of_nat (length encoded) in
    let w1 :=
      if len <? 256 then writeByte len (writeByte 252 w)
      else writeInt20 len (writeByte 253 w) in
    writeBytes encoded w1.

Definition _writeNumber (num : Z) (w : BinaryWriter) : BinaryWriter :=
  if (0 <=? num) && (num <? 256) then
    writeByte num (writeByte 250 w)
  else
    _writeString (number_toString num) w.

Definition _writeBytes (bytes : list byte) (w : BinaryWriter) : BinaryWriter :=
  writeBytes bytes (writeInt20 (Z.of_nat (length bytes)) (writeByte 254 w)).

(** JavaScript truthiness, as [if (obj.tag)] tests it. *)
Definition truthy (v : Value) : bool :=
  match v with
  | VNull => false
  | VStr s => negb (String.eqb s EmptyString)
  | VNum n => negb (n =? 0)
  | VBuf _ | VArr _ | VObj _ => true
  end.

(** The keys [_writeObject] does not count as attributes. *)
Definition is_attribute (key : string) : bool :=
  negb (String.eqb key "tag") && negb (String.eqb key "content")
    && negb (String.eqb key "children").

Definition attributes (props : list (string * Value)) : list (string * Value) :=
  filter (fun kv => is_attribute kv.1 = true) props.

(** [_writeArray] and [_writeObject] call back into [_writeNode], here
    the parameter [writeNode].  The loops over array items and over
    attributes, and the look-ups of [obj.tag], [obj.content] and
    [obj.children], recurse on the list at hand, so that [_writeNode] below
    is structural in the value. *)
Section WriteNode.

Variable writeNode : Value -> BinaryWriter -> Result CodecError BinaryWriter.

(** [for (const item of arr) this._writeNode(writer, item)] *)
Fixpoint write_items (l : list Value) (w : BinaryWriter)
  : Result CodecError BinaryWriter :=
  match l with
  | [] => Ok w
  | item :: rest => letR w' := writeNode item w in write_items rest w'
  end.

Definition _writeArray (arr : list Value) (w : BinaryWriter)
  : Result CodecError BinaryWriter :=
  write_items arr (writeByte (Z.of_nat (length arr)) (writeByte 251 w)).

(** [if (obj.tag) this._writeString(writer, obj.tag) else
    writer.writeByte(0)].  A truthy tag that is not a string reaches
    [Buffer.from] with a non-string argument, which throws for a number;
    the model throws for every such tag. *)
Fixpoint write_tag (l : list (string * Value)) (w : BinaryWriter)
  : Result CodecError BinaryWriter :=
  match l with
  | [] => Ok (writeByte 0 w)
  | (key, value) :: rest =>
      if String.eqb key "tag" then
        match value with
        | VStr s => if truthy value then Ok (_writeString s w)
                    else Ok (writeByte 0 w)
        | _ => if truthy value then Err TypeError
               else Ok (writeByte 0 w)
        end
      else write_tag rest w
  end.

(** [for (const [key, value] of attributes) { this._writeString(writer,
    key); this._writeNode(writer, value) }] *)
Fixpoint write_attributes (l : list (string * Value)) (w : BinaryWriter)
  : Result CodecError BinaryWriter :=
  match l with
  | [] => Ok w
  | (key, value) :: rest =>
      if is_attribute key then
        letR w' := writeNode value (_writeString key w) in
        write_attributes rest w'
      else write_attributes rest w
  end.

(** [else if (obj.children && Array.isArray(obj.children)) ... else
    writer.writeByte(0)] *)
Fixpoint write_children (l : list (string * Value)) (w : BinaryWriter)
  : Result CodecError BinaryWriter :=
  match l with
  | [] => Ok (writeByte 0 w)
  | (key, value) :: rest =>
      if String.eqb key "children" then
        match value with
        | VArr arr => _writeArray arr w
        | _ => Ok (writeByte 0 w)
        end
      else write_children rest w
  end.

(** [if (obj.content !== undefined) this._writeNode(writer, obj.content)],
    and the children of [obj] otherwise. *)
Fixpoint write_content (obj l : list (string * Value)) (w : BinaryWriter)
  : Result CodecError BinaryWriter :=
  match l with
  | [] => write_children obj w
  | (key, value) :: rest =>
      if String.eqb key "content" then writeNode value w
      else write_content obj rest w
  end.

Definition _writeObject (obj : list (string * Value)) (w : BinaryWriter)
  : Result CodecError BinaryWriter :=
  letR w1 := write_tag obj w in
  let w2 := writeByte (Z.of_nat (length (attributes obj))) w1 in
  letR w3 := write_attributes obj w2 in
  write_content obj obj w3.

End WriteNode.

Fixpoint _writeNode (node : Value) (w : BinaryWriter) {struct node}
  : Result CodecError BinaryWriter :=
  match node with
  | VStr s => Ok (_writeString s w)
  | VNum n => Ok (_writeNumber n w)
  | VBuf b => Ok (_writeBytes b w)
  | VArr arr => _writeArray _writeNode arr w
  | VObj obj => _writeObject _writeNode obj w
  | VNull => Ok (writeByte 0 w)
  end.

Definition encode (obj : Value) : Result CodecError (list byte) :=
  letR w := _writeNode obj newWriter in Ok (toBuffer w).

(** *** BinaryReader *)

Record BinaryReader : Type := mkReader {
  data : list byte;
  position : Z
}.

Definition newReader (d : list byte) : BinaryReader := mkReader d 0.

Definition data_length (r : BinaryReader) : Z := Z.of_nat (length (data r)).

Definition readByte (r : BinaryReader) : Result CodecError (Z * BinaryReader) :=
  if position r >=? data_length r then Err UnexpectedEnd
  else Ok (byte_to_Z (nth (Z.to_nat (position r)) (data r) x00),
           mkReader (data r) (position r + 1)).

(** [data.slice(start, end)] for [0 <= start <= end]. *)
Definition slice (d : list byte) (start stop : Z) : list byte :=
  take (Z.to_nat (stop - start)) (drop (Z.to_nat start) d).

Definition readBytes (count : Z) (r : BinaryReader)
  : Result CodecError (list byte * BinaryReader) :=
  if position r + count >? data_length r then Err UnexpectedEnd
  else Ok (slice (data r) (position r) (position r + count),
           mkReader (data r) (position r + count)).

Definition readInt20 (r : BinaryReader) : Result CodecError (Z * BinaryReader) :=
  letR (bytes, r') := readBytes 3 r in
  let byte i := byte_to_Z (nth i bytes x00) in
  Ok (Z.lor (Z.lor (Z.shiftl (byte 0%nat) 16) (Z.shiftl (byte 1%nat) 8))
            (byte 2%nat), r').

(** *** Decoding *)

(** The decoder recurses on what it reads, so the model carries a step
    budget: [None] is an exhausted budget, [Some] what the code does.
    [decode] gives a budget that is never exhausted
    ([readNode_fuel_enough] below). *)
Definition Outcome (A : Type) : Type := option (Result CodecError A).

Definition obind {A B} (m : Outcome A) (k : A -> Outcome B) : Outcome B :=
  match m with
  | None => None
  | Some (Err e) => Some (Err e)
  | Some (Ok a) => k a
  end.

Notation "'letD' x ':=' m 'in' k" := (obind m (fun x => k))
  (at level 10, x pattern, m at level 100, k at level 200).

Definition done {A} (a : A) : Outcome A := Some (Ok a).
Definition throw {A} (e : CodecError) : Outcome A := Some (Err e).

(** [obj[key] = value] on the list of own properties: an existing
    property keeps its place, a new one goes last. *)
Fixpoint set_property (key : string) (value : Value)
    (props : list (string * Value)) : list (string * Value) :=
  match props with
  | [] => [(key, value)]
  | (k, v) :: rest =>
      if String.eqb k key then (k, value) :: rest
      else (k, v) :: set_property key value rest
  end.

Definition isArray (v : Value) : bool :=
  match v with VArr _ => true | _ => false end.

Definition isNull (v : Value) : bool :=
  match v with VNull => true | _ => false end.

Section Decode.

(** The conversion JavaScript applies to the key of [obj[key] = value]
    ([ToPropertyKey]); [None] is the [TypeError] it raises for an object
    that has no primitive value.  It is a primitive of the runtime, so the
    decoder is modelled for any such conversion. *)
Variable toPropertyKey : Value -> option string.

(** The loop of [_readArray]. *)
Fixpoint readArrayItems (readNode : BinaryReader -> Outcome (Value * BinaryReader))
    (n : nat) (array : list Value) (r : BinaryReader)
  : Outcome (list Value * BinaryReader) :=
  match n with
  | O => done (array, r)
  | S n' =>
      letD (item, r') := readNode r in
      readArrayItems readNode n' (array ++ [item]) r'
  end.

(** The attribute loop of [_readObject]. *)
Fixpoint readAttributes (readNode : BinaryReader -> Outcome (Value * BinaryReader))
    (n : nat) (obj : list (string * Value)) (r : BinaryReader)
  : Outcome (list (string * Value) * BinaryReader) :=
  match n with
  | O => done (obj, r)
  | S n' =>
      letD (key, r1) := readNode r in
      letD (value, r2) := readNode r1 in
      match toPropertyKey key with
      | None => throw TypeError
      | Some k => readAttributes readNode n' (set_property k value obj) r2
      end
  end.

Definition _readArray (readNode : BinaryReader -> Outcome (Value * BinaryReader))
    (r : BinaryReader) : Outcome (Value * BinaryReader) :=
  letD (len, r1) := Some (readByte r) in
  letD (array, r2) := readArrayItems readNode (Z.to_nat len) [] r1 in
  done (VArr array, r2).

Definition _readObject (readNode : BinaryReader -> Outcome (Value * BinaryReader))
    (r : BinaryReader) : Outcome (Value * BinaryReader) :=
  letD (tag, r1) := readNode r in
  letD (attributeCount, r2) := Some (readByte r1) in
  let obj := if truthy tag then [("tag", tag)] else [] in
  letD (obj, r3) := readAttributes readNode (Z.to_nat attributeCount) obj r2 in
  letD (content, r4) := readNode r3 in
  let obj :=
    if isNull content then obj
    else if isArray content then set_property "children" content obj
    else set_property "content" content obj in
  done (VObj obj, r4).

Definition token_at (marker : Z) : Value :=
  match TOKENS !! Z.to_nat marker with
  | Some (Some s) => VStr s
  | _ => VNull
  end.

(** The body of [_readNode], with [readNode] for its recursive calls. *)
Definition readNode_body (readNode : BinaryReader -> Outcome (Value * BinaryReader))
    (r : BinaryReader) : Outcome (Value * BinaryReader) :=
  letD (marker, r1) := Some (readByte r) in
  if marker =? 0 then done (VNull, r1)
  else if (1 <=? marker) && (marker <? Z.of_nat (length TOKENS)) then
    done (token_at marker, r1)
  else if marker =? 250 then
    letD (n, r2) := Some (readByte r1) in done (VNum n, r2)
  else if marker =? 251 then
    _readArray readNode r1
  else if marker =? 252 then
    letD (len8, r2) := Some (readByte r1) in
    letD (bytes, r3) := Some (readBytes len8 r2) in
    done (VStr (string_of_list_byte bytes), r3)
  else if marker =? 253 then
    letD (len20, r2) := Some (readInt20 r1) in
    letD (bytes, r3) := Some (readBytes len20 r2) in
    done (VStr (string_of_list_byte bytes), r3)
  else if marker =? 254 then
    letD (bytesLen, r2) := Some (readInt20 r1) in
    letD (bytes, r3) := Some (readBytes bytesLen r2) in
    done (VBuf bytes, r3)
  else if marker =? 255 then
    _readObject readNode r1
  else throw (UnknownMarker marker).

Fixpoint _readNode (fuel : nat) (r : BinaryReader) : Outcome (Value * BinaryReader) :=
  match fuel with
  | O => None
  | S fuel' => readNode_body (_readNode fuel') r
  end.

(** [decode(data)]: one node read from the start of the buffer.  Every
    call of [_readNode] consumes its marker byte before it recurses, so a
    budget of one more than the length of the buffer is never exhausted. *)
Definition decode_fuel (d : list byte) : nat := S (length d).

Definition decode (d : list byte) : Result CodecError Value :=
  match _readNode (decode_fuel d) (newReader d) with
  | Some (Ok (v, _)) => Ok v
  | Some (Err e) => Err e
  | None => Err UnexpectedEnd
  end.

End Decode.

(** The node of the specification's scenario:
    [{tag: 'iq', type: 'get', id: '1', content: 'hello'}]. *)
Definition iq_node : Value :=
  VObj [("tag", VStr "iq"); ("type", VStr "get"); ("id", VStr "1");
        ("content", VStr "hello")].

(** *** Vocabulary of the properties of the codec *)

(** [r'] is a later state of the reader [r]: same buffer, not before
    [r], and inside the buffer if [r] was. *)
Definition follows (r r' : BinaryReader) : Prop :=
  data r' = data r /\ data_length r' = data_length r
  /\ position r <= position r'
  /\ (position r <= data_length r -> position r' <= data_length r').

Definition Action (A : Type) : Type := BinaryReader -> Outcome (A * BinaryReader).

Definition advances {A} (f : Action A) : Prop :=
  forall r a r', f r = Some (Ok (a, r')) -> follows r r'.

Definition refines {A} (f g : Action A) : Prop :=
  forall r x, f r = Some x -> g r = Some x.

(** The reader [r] over the first [n] bytes of its buffer. *)
Definition truncate (n : nat) (r : BinaryReader) : BinaryReader :=
  mkReader (take n (data r)) (position r).

(** What an action that succeeded on the whole buffer, ending in [r'],
    does on the buffer cut after [n] bytes: the same if it ended within
    the cut, [UnexpectedEnd] if it went beyond. *)
Definition cut_outcome {A} (n : nat) (a : A) (r' : BinaryReader)
  : Outcome (A * BinaryReader) :=
  if decide (position r' <= Z.of_nat n)
  then Some (Ok (a, truncate n r'))
  else Some (Err UnexpectedEnd).

Definition cut_safe {A} (n : nat) (f : Action A) : Prop :=
  advances f /\
  forall r a r', 0 <= position r <= Z.of_nat n ->
    f r = Some (Ok (a, r')) -> f (truncate n r) = cut_outcome n a r'.

(** The writer [w'] holds what [w] held and possibly more. *)
Definition extends (w w' : BinaryWriter) : Prop :=
  (exists ext, buffers w' = buffers w ++ ext) /\ wlength w <= wlength w'.

(** The first byte written is [b]. *)
Definition starts_with (b : byte) (w : BinaryWriter) : Prop :=
  (exists rest, concat (buffers w) = b :: rest) /\ 1 <= wlength w.

(** The bytes [_writeObject] can write first: 0 for no tag, the index of
    a token, or the marker of a string literal. *)
Definition string_marker (b : byte) : Prop :=
  byte_to_Z b = 0 \/ 1 <= byte_to_Z b < Z.of_nat (length TOKENS)
  \/ byte_to_Z b = 252 \/ byte_to_Z b = 253.

Definition node_extends (v : Value) : Prop :=
  forall w w', _writeNode v w = Ok w' -> extends w w'.

(** A property-key conversion that accepts strings only. *)
Definition string_keys (key : Value) : option string :=
  match key with VStr s => Some s | _ => None end.

(** The bytes [encode] gives for the scenario node, behind an object
    marker. *)
Definition marked_scenario : list byte :=
  [xff; x03; x02; x0d; xfc; x03; x67; x65; x74; x0e; xfc; x01; x31;
   xfc; x05; x68; x65; x6c; x6c; x6f].

(** *** The token table and the integer helpers *)

(** [getToken(str)]: the index of a token, [None] ([null]) for any other
    string. *)
Definition getToken (str : string) : option Z :=
  let index := indexOf TOKENS str in
  if 0 <? index then Some index else None.

(** [getString(token)] for an integer [token]: [this.TOKENS[token] ||
    null]. *)
Definition getString (token : Z) : option string :=
  if token <? 0 then None
  else
    match TOKENS !! Z.to_nat token with
    | Some (Some s) => if String.eqb s EmptyString then None else Some s
    | _ => None
    end.

(** [buffer.writeUInt32BE(value, 0)] throws a [RangeError] for an integer
    outside [0, 2^32). *)
Inductive BufferError : Type :=
| ERR_OUT_OF_RANGE.

Definition writeInt32 (value : Z) (w : BinaryWriter) : Result BufferError BinaryWriter :=
  if (0 <=? value) && (value <? 4294967296) then
    Ok (writeBytes [ byte_of_Z (Z.shiftr value 24); byte_of_Z (Z.shiftr value 16);
                     byte_of_Z (Z.shiftr value 8); byte_of_Z value ] w)
  else Err ERR_OUT_OF_RANGE.

Definition readInt32 (r : BinaryReader) : Result CodecError (Z * BinaryReader) :=
  letR (bytes, r') := readBytes 4 r in
  let byte i := byte_to_Z (nth i bytes x00) in
  Ok (byte 0%nat * 16777216 + byte 1%nat * 65536 + byte 2%nat * 256 + byte 3%nat, r').

(** *** Vocabulary of the round trip *)

(** The values that [encode] and [decode] carry both ways: [null], strings
    and buffers shorter than 2^24 bytes, the numbers 0..255, and arrays of
    fewer than 256 such values. *)
Fixpoint plain (v : Value) : bool :=
  match v with
  | VNull => true
  | VStr s => Z.of_nat (length (list_byte_of_string s)) <? 16777216
  | VNum n => (0 <=? n) && (n <? 256)
  | VBuf b => Z.of_nat (length b) <? 16777216
  | VArr items => (Z.of_nat (length items) <? 256) && forallb plain items
  | VObj _ => false
  end.

(** The writer's count of bytes is the number of bytes it holds. *)
Definition consistent (w : BinaryWriter) : Prop :=
  wlength w = Z.of_nat (length (concat (buffers w))).

(** The writer [w'] holds what [w] held, then some more bytes, and has
    counted them. *)
Definition appends (w w' : BinaryWriter) : Prop :=
  exists bs, concat (buffers w') = concat (buffers w) ++ bs
    /\ wlength w' = wlength w + Z.of_nat (length bs).

Definition node_appends (v : Value) : Prop :=
  forall w w', _writeNode v w = Ok w' -> appends w w'.

(** Writing [v] appends the bytes [bs], whatever was written before. *)
Definition encodes (v : Value) (bs : list byte) : Prop :=
  forall w, exists w',
    _writeNode v w = Ok w'
    /\ concat (buffers w') = concat (buffers w) ++ bs
    /\ wlength w' = wlength w + Z.of_nat (length bs).

(** A reader that has consumed [pre] and has [rest] before it. *)
Definition reader_at (pre rest : list byte) : BinaryReader :=
  mkReader (pre ++ rest) (Z.of_nat (length pre)).

(** With a budget of [fuel], [_readNode] reads [v] from the bytes [bs]
    wherever they stand in a buffer. *)
Definition reads (k : Value -> option string) (fuel : nat) (v : Value)
    (bs : list byte) : Prop :=
  forall pre post,
    _readNode k fuel (reader_at pre (bs ++ post))
    = Some (Ok (v, reader_at (pre ++ bs) post)).

Definition decodes (k : Value -> option string) (v : Value) (bs : list byte) : Prop :=
  exists fuel0, forall fuel, (fuel0 <= fuel)%nat -> reads k fuel v bs.


End Binary.

(** ** Encrypt-then-MAC helpers ([src/utils.js]) *)

Module Utils.

Inductive CryptoError : Type :=
| HmacVerificationFailed  (* new Error('HMAC verification failed') *)
| RangeError              (* crypto.timingSafeEqual on buffers of different length *)
| CipherFailure.          (* thrown inside Node's cipher objects *)

(** [buf.slice(0, end)] for any integer [end]: a negative [end] counts
    from the end of the buffer, and the result is clamped to the buffer. *)
Definition slice_to (d : list byte) (stop : Z) : list byte :=
  let len := Z.of_nat (length d) in
  let stop' := if stop <? 0 then Z.max 0 (len + stop) else Z.min stop len in
  take (Z.to_nat stop') d.

(** [crypto.timingSafeEqual(a, b)]: throws when the lengths differ,
    otherwise tells whether the contents are equal.  (That its running
    time does not depend on the contents is not part of the model.) *)
Definition timingSafeEqual (a b : list byte) : Result CryptoError bool :=
  if bool_decide (length a = length b) then Ok (bool_decide (a = b))
  else Err RangeError.

Section Primitives.

(** Node's [crypto] module: HMAC-SHA256 of [data] under [key], and the
    raw AES-256-CBC objects ([createCipher]/[createDecipher], the IV
    setter, [update] and [final] taken together), which may throw. *)
Variable hmac_sha256 : list byte -> list byte -> list byte.
Variable aes_cbc_encrypt : list byte -> list byte -> list byte -> Result CryptoError (list byte).
Variable aes_cbc_decrypt : list byte -> list byte -> list byte -> Result CryptoError (list byte).

Definition hmacSha256 (key data : list byte) : list byte := hmac_sha256 key data.

(** [aesEncrypt(key, plaintext)] with the 16 random bytes of the IV
    passed in. *)
Definition aesEncrypt (iv key plaintext : list byte) : Result CryptoError (list byte) :=
  let blockSize := 16 in
  let padding := blockSize - (Z.of_nat (length plaintext) mod blockSize) in
  let paddedText := plaintext ++ replicate (Z.to_nat padding) (byte_of_Z padding) in
  letR encrypted := aes_cbc_encrypt key iv paddedText in
  Ok (iv ++ encrypted).

Definition aesDecrypt (key ciphertext : list byte) : Result CryptoError (list byte) :=
  let iv := take 16 ciphertext in
  let encrypted := drop 16 ciphertext in
  letR decrypted := aes_cbc_decrypt key iv encrypted in
  match last decrypted with
  | Some padding =>
      Ok (slice_to decrypted (Z.of_nat (length decrypted) - byte_to_Z padding))
  | None => Ok []
  end.

Definition whatsappEncrypt (iv encKey macKey plaintext : list byte)
  : Result CryptoError (list byte) :=
  letR encrypted := aesEncrypt iv encKey plaintext in
  let hmac := hmacSha256 macKey encrypted in
  Ok (hmac ++ encrypted).

Definition whatsappDecrypt (encKey macKey ciphertext : list byte)
  : Result CryptoError (list byte) :=
  let receivedHmac := take 32 ciphertext in
  let encryptedData := drop 32 ciphertext in
  let computedHmac := hmacSha256 macKey encryptedData in
  letR same := timingSafeEqual receivedHmac computedHmac in
  if negb same then Err HmacVerificationFailed
  else aesDecrypt encKey encryptedData.

(** The expand loop of [hkdf], for blocks [i], [i+1], ... *)
Fixpoint hkdf_blocks (prk info : list byte) (n : nat) (i : Z)
    (previousBlock okm : list byte) : list byte :=
  match n with
  | O => okm
  | S n' =>
      let block := hmac_sha256 prk (previousBlock ++ info ++ [byte_of_Z i]) in
      hkdf_blocks prk info n' (i + 1) block (okm ++ block)
  end.

Definition hkdf (inputKeyMaterial salt info : list byte) (length : Z) : list byte :=
  let actualSalt := match salt with [] => replicate 32 x00 | _ => salt end in
  let prk := hmacSha256 actualSalt inputKeyMaterial in
  let blocks := (length + 31) / 32 in
  take (Z.to_nat length) (hkdf_blocks prk info (Z.to_nat blocks) 1 [] []).

End Primitives.

(** *** A toy instance of the primitives *)

(** A constant MAC and a cipher that returns its input. *)
Definition toy_hmac (key d : list byte) : list byte := replicate 32 x00.
Definition toy_cipher (key iv d : list byte) : Result CryptoError (list byte) := Ok d.

(** *** Chat identifiers *)

(** [\d] *)
Definition is_digit (c : ascii) : bool :=
  (48 <=? nat_of_ascii c)%nat && (nat_of_ascii c <=? 57)%nat.

(** [phoneNumber.replace(/\D/g, '')] *)
Fixpoint remove_non_digits (s : string) : string :=
  match s with
  | EmptyString => EmptyString
  | String c rest =>
      if is_digit c then String c (remove_non_digits rest)
      else remove_non_digits rest
  end.

Definition formatPhoneNumber (phoneNumber : string) : string :=
  let cleaned := remove_non_digits phoneNumber in
  if negb (String.prefix "1" cleaned) && (String.length cleaned =? 10)%nat
  then "1" +:+ cleaned
  else cleaned.

Definition createChatId (phoneNumber : string) (isGroup : bool) : string :=
  let formatted := formatPhoneNumber phoneNumber in
  if isGroup then formatted +:+ "@g.us" else formatted +:+ "@c.us".

(** What is left of a string after its leading digits. *)
Fixpoint after_digits (s : string) : string :=
  match s with
  | EmptyString => EmptyString
  | String c rest => if is_digit c then after_digits rest else s
  end.

(** [/^\d+@(c\.us|g\.us|s\.whatsapp\.net)$/.test(chatId)] *)
Definition validateChatId (chatId : string) : bool :=
  match chatId with
  | EmptyString => false
  | String c _ =>
      is_digit c
      && (let suffix := after_digits chatId in
          String.eqb suffix "@c.us" || String.eqb suffix "@g.us"
          || String.eqb suffix "@s.whatsapp.net")
  end.

(** The chat id [sendMessage] of the production client puts in the
    message: the one given when it is valid, the one made of it when not. *)
Definition sendMessage_chatId (chatId : string) (isGroup : bool) : string :=
  if negb (validateChatId chatId) then createChatId chatId isGroup else chatId.

(** *** Retrying *)

(** [retryWithBackoff(fn, maxRetries, baseDelay)] for a number of retries
    that is a natural number: [fn k] is what the [k]-th call of the function
    does, returning or throwing; the result is what the whole call returns
    or throws ([None] is the [undefined] thrown when no call was made),
    together with the delays it slept, in order. *)
Section Retry.
Context {E A : Type}.
Variable fn : nat -> Result E A.
Variable baseDelay : Z.



End Retry.

(** *** Vocabulary *)

Fixpoint all_digits (s : string) : bool :=
  match s with
  | EmptyString => true
  | String c rest => is_digit c && all_digits rest
  end.

Fixpoint has_digit (s : string) : bool :=
  match s with
  | EmptyString => false
  | String c rest => is_digit c || has_digit rest
  end.


End Utils.

(** ** JSON values, as [JSON.parse] returns them *)

#[warning="-register-all"]
Inductive Json : Type :=
| JNull
| JBool (b : bool)
| JNum (n : Z)
| JStr (s : string)
| JArr (items : list Json)
| JObj (fields : list (string * Json)).

(** ** The connection manager ([RealWebSocketManager]) *)

Module Manager.

Inductive ReadyState : Type := CONNECTING | OPEN | CLOSING | CLOSED.

(** [this.connectionState] *)
Inductive ConnectionState : Type :=
| disconnected | connecting | connected | authenticated.

Inductive JsError : Type :=
| ConnectionTimeout                 (* ConnectionError('Connection timeout') *)
| ConnectionFailed (cause : JsError) (* ConnectionError(`Connection failed: ...`) *)
| SocketError (code : Z)            (* the argument of the socket's 'error' event *)
| WebSocketNotConnected             (* Error('WebSocket not connected') *)
| AuthInitTimeout                   (* Error('Authentication initialization timeout') *)
| SessionLoginTimeout               (* Error('Session login timeout') *)
| LoginFailed (status : option Json)
| SessionRestoreFailed (status : option Json)
| HmacValidationFailed              (* Error('HMAC validation failed') *)
| SyntaxError                       (* thrown by JSON.parse *)
| JsTypeError                       (* property access on null or undefined, ... *)
| CryptoFailure (e : Utils.CryptoError)
| CodecFailure (e : Binary.CodecError).

(** What a timer runs when it fires. *)
Inductive Callback : Type :=
| KeepAlivePing      (* first interval of _startKeepAlive: the liveness probe *)
| MonitorHealth      (* second interval of _startKeepAlive *)
| PongDeadline       (* the 5 s timeout armed with every probe *)
| Reconnect          (* the back-off timeout that calls connect() *)
| ConnectTimeout     (* the timeout inside connect() *)
| RequestTimeout (tag : string) (promise : nat) (error : JsError).
                     (* the 30 s timeout of a correlated request *)

Record Timer : Type := mkTimer {
  timer_id : nat;
  callback : Callback;
  delay : Q;
  repeats : bool
}.

(** An entry of [this.messageQueue]; [resolve] and [reject] hold the
    promise whose callbacks they are, or [None] for [null]. *)
Record QueueItem : Type := mkItem {
  desc : string;
  resolve : option nat;
  reject : option nat
}.

(** The promise [connect()] awaits: its timeout and its two [once]
    listeners on the manager itself. *)
Record Waiter : Type := mkWaiter {
  waiter_timeout : nat;
  from_reconnect : bool;   (* connect() was called by a reconnect timer *)
  settled : bool;
  on_connected : bool;     (* once('connected') still registered *)
  on_error : bool          (* once('error') still registered *)
}.

(** [[serverRef, publicKey.toString('base64'), clientId].join(',')], kept
    as its three components. *)
Record QrContent : Type := mkQr {
  qr_serverRef : option Json;
  qr_publicKey : list byte;
  qr_clientId : option string
}.

Record Credentials : Type := mkCredentials {
  cred_clientToken : option Json;
  cred_serverToken : option Json;
  cred_clientId : option string;
  cred_encKey : list byte;
  cred_macKey : list byte
}.

Inductive EventArg : Type :=
| NoArg
| ErrorArg (e : JsError)
| QrArg (qr : QrContent)
| AuthArg (c : Credentials)
| JsonArg (j : Json)
| BinaryArg (tag : string) (d : Binary.Value)
| CloseArg (code : Z).

Inductive Settlement : Type :=
| QrValue (qr : QrContent) (ref : option Json)
| JsonValue (j : Json).

(** Everything the manager does to the outside world, in order. *)
Inductive Effect : Type :=
| WsNew (url : string)
| WsRemoveAllListeners
| WsTerminate
| WsClose (code : Z) (reason : string)
| WsSendMessage (tag : string) (payload : Json)  (* `${tag},${JSON.stringify(data)}` *)
| WsSendText (text : string)
| WsPing
| Emit (event : string) (arg : EventArg)
| Resolve (promise : nat) (value : Settlement)
| Reject (promise : nat) (error : JsError)
| ConnectResolved
| ConnectRejected (error : JsError)
| Throws (error : JsError)
| Sleep (ms : Z)
| SetTimer (t : Timer)
| ClearTimer (id : nat).

Record ConnectionInfo : Type := mkConnectionInfo {
  clientToken : option Json;
  serverToken : option Json;
  browserToken : option Json;
  secret : option (list byte);
  sharedSecret : option (list byte);
  me : option Json;
  pushname : option Json
}.

Set Primitive Projections.

Record World : Type := mkWorld {
  (* the fields of [this], as the constructor sets them up *)
  ws : option ReadyState;
  isConnected : bool;
  isAuthenticated : bool;
  messageQueue : gmap string QueueItem;
  keepAliveTimer : option nat;
  reconnectTimer : option nat;
  connectionAttempts : Z;
  maxReconnectAttempts : Z;
  reconnectDelay : Q;
  keepAliveInterval : Z;
  connectionTimeout : Z;
  autoReconnect : bool;
  lastActivity : Z;
  pingInterval : option nat;
  pongTimeout : option nat;
  connectionMonitor : option nat;
  clientId : option string;
  serverRef : option Json;
  privateKey : option (list byte);
  publicKey : option (list byte);
  encKey : option (list byte);
  macKey : option (list byte);
  connectionInfo : ConnectionInfo;
  messageSentCount : Z;
  serverIndex : Z;
  connectionState : ConnectionState;
  (* the event loop and the rest of the environment *)
  armed : list Timer;
  next_id : nat;
  trace : list Effect;
  now : Z;
  entropy : nat -> byte;
  entropy_pos : nat;
  math_random : nat -> Q;
  random_pos : nat;
  waiters : list Waiter
}.
Unset Primitive Projections.

(** Field updates: each [set_f v w] is [w] with field [f] replaced by [v]. *)
Definition set_ws (v : option ReadyState) (w : World) : World :=
  let '(mkWorld ws isConnected isAuthenticated messageQueue keepAliveTimer reconnectTimer
    connectionAttempts maxReconnectAttempts reconnectDelay keepAliveInterval connectionTimeout
    autoReconnect lastActivity pingInterval pongTimeout connectionMonitor clientId serverRef
    privateKey publicKey encKey macKey connectionInfo messageSentCount serverIndex
    connectionState armed next_id trace now entropy entropy_pos math_random random_pos waiters)
    := w in
  mkWorld v isConnected isAuthenticated messageQueue keepAliveTimer reconnectTimer
    connectionAttempts maxReconnectAttempts reconnectDelay keepAliveInterval connectionTimeout
    autoReconnect lastActivity pingInterval pongTimeout connectionMonitor clientId serverRef
    privateKey publicKey encKey macKey connectionInfo messageSentCount serverIndex
    connectionState armed next_id trace now entropy entropy_pos math_random random_pos waiters.

Definition set_isConnected (v : bool) (w : World) : World :=
  let '(mkWorld ws isConnected isAuthenticated messageQueue keepAliveTimer reconnectTimer
    connectionAttempts maxReconnectAttempts reconnectDelay keepAliveInterval connectionTimeout
    autoReconnect lastActivity pingInterval pongTimeout connectionMonitor clientId serverRef
    privateKey publicKey encKey macKey connectionInfo messageSentCount serverIndex
    connectionState armed next_id trace now entropy entropy_pos math_random random_pos waiters)
    := w in
  mkWorld ws v isAuthenticated messageQueue keepAliveTimer reconnectTimer connectionAttempts
    maxReconnectAttempts reconnectDelay keepAliveInterval connectionTimeout autoReconnect
    lastActivity pingInterval pongTimeout connectionMonitor clientId serverRef privateKey
    publicKey encKey macKey connectionInfo messageSentCount serverIndex connectionState armed
    next_id trace now entropy entropy_pos math_random random_pos waiters.

Definition set_isAuthenticated (v : bool) (w : World) : World :=
  let '(mkWorld ws isConnected isAuthenticated messageQueue keepAliveTimer reconnectTimer
    connectionAttempts maxReconnectAttempts reconnectDelay keepAliveInterval connectionTimeout
    autoReconnect lastActivity pingInterval pongTimeout connectionMonitor clientId serverRef
    privateKey publicKey encKey macKey connectionInfo messageSentCount serverIndex
    connectionState armed next_id trace now entropy entropy_pos math_random random_pos waiters)
    := w in
  mkWorld ws isConnected v messageQueue keepAliveTimer reconnectTimer connectionAttempts
    maxReconnectAttempts reconnectDelay keepAliveInterval connectionTimeout autoReconnect
    lastActivity pingInterval pongTimeout connectionMonitor clientId serverRef privateKey
    publicKey encKey macKey connectionInfo messageSentCount serverIndex connectionState armed
    next_id trace now entropy entropy_pos math_random random_pos waiters.

Definition set_messageQueue (v : gmap string QueueItem) (w : World) : World :=
  let '(mkWorld ws isConnected isAuthenticated messageQueue keepAliveTimer reconnectTimer
    connectionAttempts maxReconnectAttempts reconnectDelay keepAliveInterval connectionTimeout
    autoReconnect lastActivity pingInterval pongTimeout connectionMonitor clientId serverRef
    privateKey publicKey encKey macKey connectionInfo messageSentCount serverIndex
    connectionState armed next_id trace now entropy entropy_pos math_random random_pos waiters)
    := w in
  mkWorld ws isConnected isAuthenticated v keepAliveTimer reconnectTimer connectionAttempts
    maxReconnectAttempts reconnectDelay keepAliveInterval connectionTimeout autoReconnect
    lastActivity pingInterval pongTimeout connectionMonitor clientId serverRef privateKey
    publicKey encKey macKey connectionInfo messageSentCount serverIndex connectionState armed
    next_id trace now entropy entropy_pos math_random random_pos waiters.

Definition set_keepAliveTimer (v : option nat) (w : World) : World :=
  let '(mkWorld ws isConnected isAuthenticated messageQueue keepAliveTimer reconnectTimer
    connectionAttempts maxReconnectAttempts reconnectDelay keepAliveInterval connectionTimeout
    autoReconnect lastActivity pingInterval pongTimeout connectionMonitor clientId serverRef
    privateKey publicKey encKey macKey connectionInfo messageSentCount serverIndex
    connectionState armed next_id trace now entropy entropy_pos math_random random_pos waiters)
    := w in
  mkWorld ws isConnected isAuthenticated messageQueue v reconnectTimer connectionAttempts
    maxReconnectAttempts reconnectDelay keepAliveInterval connectionTimeout autoReconnect
    lastActivity pingInterval pongTimeout connectionMonitor clientId serverRef privateKey
    publicKey encKey macKey connectionInfo messageSentCount serverIndex connectionState armed
    next_id trace now entropy entropy_pos math_random random_pos waiters.

Definition set_reconnectTimer (v : option nat) (w : World) : World :=
  let '(mkWorld ws isConnected isAuthenticated messageQueue keepAliveTimer reconnectTimer
    connectionAttempts maxReconnectAttempts reconnectDelay keepAliveInterval connectionTimeout
    autoReconnect lastActivity pingInterval pongTimeout connectionMonitor clientId serverRef
    privateKey publicKey encKey macKey connectionInfo messageSentCount serverIndex
    connectionState armed next_id trace now entropy entropy_pos math_random random_pos waiters)
    := w in
  mkWorld ws isConnected isAuthenticated messageQueue keepAliveTimer v connectionAttempts
    maxReconnectAttempts reconnectDelay keepAliveInterval connectionTimeout autoReconnect
    lastActivity pingInterval pongTimeout connectionMonitor clientId serverRef privateKey
    publicKey encKey macKey connectionInfo messageSentCount serverIndex connectionState armed
    next_id trace now entropy entropy_pos math_random random_pos waiters.

Definition set_connectionAttempts (v : Z) (w : World) : World :=
  let '(mkWorld ws isConnected isAuthenticated messageQueue keepAliveTimer reconnectTimer
    connectionAttempts maxReconnectAttempts reconnectDelay keepAliveInterval connectionTimeout
    autoReconnect lastActivity pingInterval pongTimeout connectionMonitor clientId serverRef
    privateKey publicKey encKey macKey connectionInfo messageSentCount serverIndex
    connectionState armed next_id trace now entropy entropy_pos math_random random_pos waiters)
    := w in
  mkWorld ws isConnected isAuthenticated messageQueue keepAliveTimer reconnectTimer v
    maxReconnectAttempts reconnectDelay keepAliveInterval connectionTimeout autoReconnect
    lastActivity pingInterval pongTimeout connectionMonitor clientId serverRef privateKey
    publicKey encKey macKey connectionInfo messageSentCount serverIndex connectionState armed
    next_id trace now entropy entropy_pos math_random random_pos waiters.

Definition set_autoReconnect (v : bool) (w : World) : World :=
  let '(mkWorld ws isConnected isAuthenticated messageQueue keepAliveTimer reconnectTimer
    connectionAttempts maxReconnectAttempts reconnectDelay keepAliveInterval connectionTimeout
    autoReconnect lastActivity pingInterval pongTimeout connectionMonitor clientId serverRef
    privateKey publicKey encKey macKey connectionInfo messageSentCount serverIndex
    connectionState armed next_id trace now entropy entropy_pos math_random random_pos waiters)
    := w in
  mkWorld ws isConnected isAuthenticated messageQueue keepAliveTimer reconnectTimer
    connectionAttempts maxReconnectAttempts reconnectDelay keepAliveInterval connectionTimeout
    v lastActivity pingInterval pongTimeout connectionMonitor clientId serverRef privateKey
    publicKey encKey macKey connectionInfo messageSentCount serverIndex connectionState armed
    next_id trace now entropy entropy_pos math_random random_pos waiters.

Definition set_lastActivity (v : Z) (w : World) : World :=
  let '(mkWorld ws isConnected isAuthenticated messageQueue keepAliveTimer reconnectTimer
    connectionAttempts maxReconnectAttempts reconnectDelay keepAliveInterval connectionTimeout
    autoReconnect lastActivity pingInterval pongTimeout connectionMonitor clientId serverRef
    privateKey publicKey encKey macKey connectionInfo messageSentCount serverIndex
    connectionState armed next_id trace now entropy entropy_pos math_random random_pos waiters)
    := w in
  mkWorld ws isConnected isAuthenticated messageQueue keepAliveTimer reconnectTimer
    connectionAttempts maxReconnectAttempts reconnectDelay keepAliveInterval connectionTimeout
    autoReconnect v pingInterval pongTimeout connectionMonitor clientId serverRef privateKey
    publicKey encKey macKey connectionInfo messageSentCount serverIndex connectionState armed
    next_id trace now entropy entropy_pos math_random random_pos waiters.

Definition set_pingInterval (v : option nat) (w : World) : World :=
  let '(mkWorld ws isConnected isAuthenticated messageQueue keepAliveTimer reconnectTimer
    connectionAttempts maxReconnectAttempts reconnectDelay keepAliveInterval connectionTimeout
    autoReconnect lastActivity pingInterval pongTimeout connectionMonitor clientId serverRef
    privateKey publicKey encKey macKey connectionInfo messageSentCount serverIndex
    connectionState armed next_id trace now entropy entropy_pos math_random random_pos waiters)
    := w in
  mkWorld ws isConnected isAuthenticated messageQueue keepAliveTimer reconnectTimer
    connectionAttempts maxReconnectAttempts reconnectDelay keepAliveInterval connectionTimeout
    autoReconnect lastActivity v pongTimeout connectionMonitor clientId serverRef privateKey
    publicKey encKey macKey connectionInfo messageSentCount serverIndex connectionState armed
    next_id trace now entropy entropy_pos math_random random_pos waiters.

Definition set_pongTimeout (v : option nat) (w : World) : World :=
  let '(mkWorld ws isConnected isAuthenticated messageQueue keepAliveTimer reconnectTimer
    connectionAttempts maxReconnectAttempts reconnectDelay keepAliveInterval connectionTimeout
    autoReconnect lastActivity pingInterval pongTimeout connectionMonitor clientId serverRef
    privateKey publicKey encKey macKey connectionInfo messageSentCount serverIndex
    connectionState armed next_id trace now entropy entropy_pos math_random random_pos waiters)
    := w in
  mkWorld ws isConnected isAuthenticated messageQueue keepAliveTimer reconnectTimer
    connectionAttempts maxReconnectAttempts reconnectDelay keepAliveInterval connectionTimeout
    autoReconnect lastActivity pingInterval v connectionMonitor clientId serverRef privateKey
    publicKey encKey macKey connectionInfo messageSentCount serverIndex connectionState armed
    next_id trace now entropy entropy_pos math_random random_pos waiters.

Definition set_connectionMonitor (v : option nat) (w : World) : World :=
  let '(mkWorld ws isConnected isAuthenticated messageQueue keepAliveTimer reconnectTimer
    connectionAttempts maxReconnectAttempts reconnectDelay keepAliveInterval connectionTimeout
    autoReconnect lastActivity pingInterval pongTimeout connectionMonitor clientId serverRef
    privateKey publicKey encKey macKey connectionInfo messageSentCount serverIndex
    connectionState armed next_id trace now entropy entropy_pos math_random random_pos waiters)
    := w in
  mkWorld ws isConnected isAuthenticated messageQueue keepAliveTimer reconnectTimer
    connectionAttempts maxReconnectAttempts reconnectDelay keepAliveInterval connectionTimeout
    autoReconnect lastActivity pingInterval pongTimeout v clientId serverRef privateKey
    publicKey encKey macKey connectionInfo messageSentCount serverIndex connectionState armed
    next_id trace now entropy entropy_pos math_random random_pos waiters.

Definition set_clientId (v : option string) (w : World) : World :=
  let '(mkWorld ws isConnected isAuthenticated messageQueue keepAliveTimer reconnectTimer
    connectionAttempts maxReconnectAttempts reconnectDelay keepAliveInterval connectionTimeout
    autoReconnect lastActivity pingInterval pongTimeout connectionMonitor clientId serverRef
    privateKey publicKey encKey macKey connectionInfo messageSentCount serverIndex
    connectionState armed next_id trace now entropy entropy_pos math_random random_pos waiters)
    := w in
  mkWorld ws isConnected isAuthenticated messageQueue keepAliveTimer reconnectTimer
    connectionAttempts maxReconnectAttempts reconnectDelay keepAliveInterval connectionTimeout
    autoReconnect lastActivity pingInterval pongTimeout connectionMonitor v serverRef
    privateKey publicKey encKey macKey connectionInfo messageSentCount serverIndex
    connectionState armed next_id trace now entropy entropy_pos math_random random_pos waiters.

Definition set_serverRef (v : option Json) (w : World) : World :=
  let '(mkWorld ws isConnected isAuthenticated messageQueue keepAliveTimer reconnectTimer
    connectionAttempts maxReconnectAttempts reconnectDelay keepAliveInterval connectionTimeout
    autoReconnect lastActivity pingInterval pongTimeout connectionMonitor clientId serverRef
    privateKey publicKey encKey macKey connectionInfo messageSentCount serverIndex
    connectionState armed next_id trace now entropy entropy_pos math_random random_pos waiters)
    := w in
  mkWorld ws isConnected isAuthenticated messageQueue keepAliveTimer reconnectTimer
    connectionAttempts maxReconnectAttempts reconnectDelay keepAliveInterval connectionTimeout
    autoReconnect lastActivity pingInterval pongTimeout connectionMonitor clientId v privateKey
    publicKey encKey macKey connectionInfo messageSentCount serverIndex connectionState armed
    next_id trace now entropy entropy_pos math_random random_pos waiters.

Definition set_privateKey (v : option (list byte)) (w : World) : World :=
  let '(mkWorld ws isConnected isAuthenticated messageQueue keepAliveTimer reconnectTimer
    connectionAttempts maxReconnectAttempts reconnectDelay keepAliveInterval connectionTimeout
    autoReconnect lastActivity pingInterval pongTimeout connectionMonitor clientId serverRef
    privateKey publicKey encKey macKey connectionInfo messageSentCount serverIndex
    connectionState armed next_id trace now entropy entropy_pos math_random random_pos waiters)
    := w in
  mkWorld ws isConnected isAuthenticated messageQueue keepAliveTimer reconnectTimer
    connectionAttempts maxReconnectAttempts reconnectDelay keepAliveInterval connectionTimeout
    autoReconnect lastActivity pingInterval pongTimeout connectionMonitor clientId serverRef v
    publicKey encKey macKey connectionInfo messageSentCount serverIndex connectionState armed
    next_id trace now entropy entropy_pos math_random random_pos waiters.

Definition set_publicKey (v : option (list byte)) (w : World) : World :=
  let '(mkWorld ws isConnected isAuthenticated messageQueue keepAliveTimer reconnectTimer
    connectionAttempts maxReconnectAttempts reconnectDelay keepAliveInterval connectionTimeout
    autoReconnect lastActivity pingInterval pongTimeout connectionMonitor clientId serverRef
    privateKey publicKey encKey macKey connectionInfo messageSentCount serverIndex
    connectionState armed next_id trace now entropy entropy_pos math_random random_pos waiters)
    := w in
  mkWorld ws isConnected isAuthenticated messageQueue keepAliveTimer reconnectTimer
    connectionAttempts maxReconnectAttempts reconnectDelay keepAliveInterval connectionTimeout
    autoReconnect lastActivity pingInterval pongTimeout connectionMonitor clientId serverRef
    privateKey v encKey macKey connectionInfo messageSentCount serverIndex connectionState
    armed next_id trace now entropy entropy_pos math_random random_pos waiters.

Definition set_encKey (v : option (list byte)) (w : World) : World :=
  let '(mkWorld ws isConnected isAuthenticated messageQueue keepAliveTimer reconnectTimer
    connectionAttempts maxReconnectAttempts reconnectDelay keepAliveInterval connectionTimeout
    autoReconnect lastActivity pingInterval pongTimeout connectionMonitor clientId serverRef
    privateKey publicKey encKey macKey connectionInfo messageSentCount serverIndex
    connectionState armed next_id trace now entropy entropy_pos math_random random_pos waiters)
    := w in
  mkWorld ws isConnected isAuthenticated messageQueue keepAliveTimer reconnectTimer
    connectionAttempts maxReconnectAttempts reconnectDelay keepAliveInterval connectionTimeout
    autoReconnect lastActivity pingInterval pongTimeout connectionMonitor clientId serverRef
    privateKey publicKey v macKey connectionInfo messageSentCount serverIndex connectionState
    armed next_id trace now entropy entropy_pos math_random random_pos waiters.

Definition set_macKey (v : option (list byte)) (w : World) : World :=
  let '(mkWorld ws isConnected isAuthenticated messageQueue keepAliveTimer reconnectTimer
    connectionAttempts maxReconnectAttempts reconnectDelay keepAliveInterval connectionTimeout
    autoReconnect lastActivity pingInterval pongTimeout connectionMonitor clientId serverRef
    privateKey publicKey encKey macKey connectionInfo messageSentCount serverIndex
    connectionState armed next_id trace now entropy entropy_pos math_random random_pos waiters)
    := w in
  mkWorld ws isConnected isAuthenticated messageQueue keepAliveTimer reconnectTimer
    connectionAttempts maxReconnectAttempts reconnectDelay keepAliveInterval connectionTimeout
    autoReconnect lastActivity pingInterval pongTimeout connectionMonitor clientId serverRef
    privateKey publicKey encKey v connectionInfo messageSentCount serverIndex connectionState
    armed next_id trace now entropy entropy_pos math_random random_pos waiters.

Definition set_connectionInfo (v : ConnectionInfo) (w : World) : World :=
  let '(mkWorld ws isConnected isAuthenticated messageQueue keepAliveTimer reconnectTimer
    connectionAttempts maxReconnectAttempts reconnectDelay keepAliveInterval connectionTimeout
    autoReconnect lastActivity pingInterval pongTimeout connectionMonitor clientId serverRef
    privateKey publicKey encKey macKey connectionInfo messageSentCount serverIndex
    connectionState armed next_id trace now entropy entropy_pos math_random random_pos waiters)
    := w in
  mkWorld ws isConnected isAuthenticated messageQueue keepAliveTimer reconnectTimer
    connectionAttempts maxReconnectAttempts reconnectDelay keepAliveInterval connectionTimeout
    autoReconnect lastActivity pingInterval pongTimeout connectionMonitor clientId serverRef
    privateKey publicKey encKey macKey v messageSentCount serverIndex connectionState armed
    next_id trace now entropy entropy_pos math_random random_pos waiters.

Definition set_messageSentCount (v : Z) (w : World) : World :=
  let '(mkWorld ws isConnected isAuthenticated messageQueue keepAliveTimer reconnectTimer
    connectionAttempts maxReconnectAttempts reconnectDelay keepAliveInterval connectionTimeout
    autoReconnect lastActivity pingInterval pongTimeout connectionMonitor clientId serverRef
    privateKey publicKey encKey macKey connectionInfo messageSentCount serverIndex
    connectionState armed next_id trace now entropy entropy_pos math_random random_pos waiters)
    := w in
  mkWorld ws isConnected isAuthenticated messageQueue keepAliveTimer reconnectTimer
    connectionAttempts maxReconnectAttempts reconnectDelay keepAliveInterval connectionTimeout
    autoReconnect lastActivity pingInterval pongTimeout connectionMonitor clientId serverRef
    privateKey publicKey encKey macKey connectionInfo v serverIndex connectionState armed
    next_id trace now entropy entropy_pos math_random random_pos waiters.

Definition set_serverIndex (v : Z) (w : World) : World :=
  let '(mkWorld ws isConnected isAuthenticated messageQueue keepAliveTimer reconnectTimer
    connectionAttempts maxReconnectAttempts reconnectDelay keepAliveInterval connectionTimeout
    autoReconnect lastActivity pingInterval pongTimeout connectionMonitor clientId serverRef
    privateKey publicKey encKey macKey connectionInfo messageSentCount serverIndex
    connectionState armed next_id trace now entropy entropy_pos math_random random_pos waiters)
    := w in
  mkWorld ws isConnected isAuthenticated messageQueue keepAliveTimer reconnectTimer
    connectionAttempts maxReconnectAttempts reconnectDelay keepAliveInterval connectionTimeout
    autoReconnect lastActivity pingInterval pongTimeout connectionMonitor clientId serverRef
    privateKey publicKey encKey macKey connectionInfo messageSentCount v connectionState armed
    next_id trace now entropy entropy_pos math_random random_pos waiters.

Definition set_connectionState (v : ConnectionState) (w : World) : World :=
  let '(mkWorld ws isConnected isAuthenticated messageQueue keepAliveTimer reconnectTimer
    connectionAttempts maxReconnectAttempts reconnectDelay keepAliveInterval connectionTimeout
    autoReconnect lastActivity pingInterval pongTimeout connectionMonitor clientId serverRef
    privateKey publicKey encKey macKey connectionInfo messageSentCount serverIndex
    connectionState armed next_id trace now entropy entropy_pos math_random random_pos waiters)
    := w in
  mkWorld ws isConnected isAuthenticated messageQueue keepAliveTimer reconnectTimer
    connectionAttempts maxReconnectAttempts reconnectDelay keepAliveInterval connectionTimeout
    autoReconnect lastActivity pingInterval pongTimeout connectionMonitor clientId serverRef
    privateKey publicKey encKey macKey connectionInfo messageSentCount serverIndex v armed
    next_id trace now entropy entropy_pos math_random random_pos waiters.

Definition set_armed (v : list Timer) (w : World) : World :=
  let '(mkWorld ws isConnected isAuthenticated messageQueue keepAliveTimer reconnectTimer
    connectionAttempts maxReconnectAttempts reconnectDelay keepAliveInterval connectionTimeout
    autoReconnect lastActivity pingInterval pongTimeout connectionMonitor clientId serverRef
    privateKey publicKey encKey macKey connectionInfo messageSentCount serverIndex
    connectionState armed next_id trace now entropy entropy_pos math_random random_pos waiters)
    := w in
  mkWorld ws isConnected isAuthenticated messageQueue keepAliveTimer reconnectTimer
    connectionAttempts maxReconnectAttempts reconnectDelay keepAliveInterval connectionTimeout
    autoReconnect lastActivity pingInterval pongTimeout connectionMonitor clientId serverRef
    privateKey publicKey encKey macKey connectionInfo messageSentCount serverIndex
    connectionState v next_id trace now entropy entropy_pos math_random random_pos waiters.

Definition set_next_id (v : nat) (w : World) : World :=
  let '(mkWorld ws isConnected isAuthenticated messageQueue keepAliveTimer reconnectTimer
    connectionAttempts maxReconnectAttempts reconnectDelay keepAliveInterval connectionTimeout
    autoReconnect lastActivity pingInterval pongTimeout connectionMonitor clientId serverRef
    privateKey publicKey encKey macKey connectionInfo messageSentCount serverIndex
    connectionState armed next_id trace now entropy entropy_pos math_random random_pos waiters)
    := w in
  mkWorld ws isConnected isAuthenticated messageQueue keepAliveTimer reconnectTimer
    connectionAttempts maxReconnectAttempts reconnectDelay keepAliveInterval connectionTimeout
    autoReconnect lastActivity pingInterval pongTimeout connectionMonitor clientId serverRef
    privateKey publicKey encKey macKey connectionInfo messageSentCount serverIndex
    connectionState armed v trace now entropy entropy_pos math_random random_pos waiters.

Definition set_trace (v : list Effect) (w : World) : World :=
  let '(mkWorld ws isConnected isAuthenticated messageQueue keepAliveTimer reconnectTimer
    connectionAttempts maxReconnectAttempts reconnectDelay keepAliveInterval connectionTimeout
    autoReconnect lastActivity pingInterval pongTimeout connectionMonitor clientId serverRef
    privateKey publicKey encKey macKey connectionInfo messageSentCount serverIndex
    connectionState armed next_id trace now entropy entropy_pos math_random random_pos waiters)
    := w in
  mkWorld ws isConnected isAuthenticated messageQueue keepAliveTimer reconnectTimer
    connectionAttempts maxReconnectAttempts reconnectDelay keepAliveInterval connectionTimeout
    autoReconnect lastActivity pingInterval pongTimeout connectionMonitor clientId serverRef
    privateKey publicKey encKey macKey connectionInfo messageSentCount serverIndex
    connectionState armed next_id v now entropy entropy_pos math_random random_pos waiters.

Definition set_now (v : Z) (w : World) : World :=
  let '(mkWorld ws isConnected isAuthenticated messageQueue keepAliveTimer reconnectTimer
    connectionAttempts maxReconnectAttempts reconnectDelay keepAliveInterval connectionTimeout
    autoReconnect lastActivity pingInterval pongTimeout connectionMonitor clientId serverRef
    privateKey publicKey encKey macKey connectionInfo messageSentCount serverIndex
    connectionState armed next_id trace now entropy entropy_pos math_random random_pos waiters)
    := w in
  mkWorld ws isConnected isAuthenticated messageQueue keepAliveTimer reconnectTimer
    connectionAttempts maxReconnectAttempts reconnectDelay keepAliveInterval connectionTimeout
    autoReconnect lastActivity pingInterval pongTimeout connectionMonitor clientId serverRef
    privateKey publicKey encKey macKey connectionInfo messageSentCount serverIndex
    connectionState armed next_id trace v entropy entropy_pos math_random random_pos waiters.

Definition set_entropy_pos (v : nat) (w : World) : World :=
  let '(mkWorld ws isConnected isAuthenticated messageQueue keepAliveTimer reconnectTimer
    connectionAttempts maxReconnectAttempts reconnectDelay keepAliveInterval connectionTimeout
    autoReconnect lastActivity pingInterval pongTimeout connectionMonitor clientId serverRef
    privateKey publicKey encKey macKey connectionInfo messageSentCount serverIndex
    connectionState armed next_id trace now entropy entropy_pos math_random random_pos waiters)
    := w in
  mkWorld ws isConnected isAuthenticated messageQueue keepAliveTimer reconnectTimer
    connectionAttempts maxReconnectAttempts reconnectDelay keepAliveInterval connectionTimeout
    autoReconnect lastActivity pingInterval pongTimeout connectionMonitor clientId serverRef
    privateKey publicKey encKey macKey connectionInfo messageSentCount serverIndex
    connectionState armed next_id trace now entropy v math_random random_pos waiters.

Definition set_random_pos (v : nat) (w : World) : World :=
  let '(mkWorld ws isConnected isAuthenticated messageQueue keepAliveTimer reconnectTimer
    connectionAttempts maxReconnectAttempts reconnectDelay keepAliveInterval connectionTimeout
    autoReconnect lastActivity pingInterval pongTimeout connectionMonitor clientId serverRef
    privateKey publicKey encKey macKey connectionInfo messageSentCount serverIndex
    connectionState armed next_id trace now entropy entropy_pos math_random random_pos waiters)
    := w in
  mkWorld ws isConnected isAuthenticated messageQueue keepAliveTimer reconnectTimer
    connectionAttempts maxReconnectAttempts reconnectDelay keepAliveInterval connectionTimeout
    autoReconnect lastActivity pingInterval pongTimeout connectionMonitor clientId serverRef
    privateKey publicKey encKey macKey connectionInfo messageSentCount serverIndex
    connectionState armed next_id trace now entropy entropy_pos math_random v waiters.

Definition set_waiters (v : list Waiter) (w : World) : World :=
  let '(mkWorld ws isConnected isAuthenticated messageQueue keepAliveTimer reconnectTimer
    connectionAttempts maxReconnectAttempts reconnectDelay keepAliveInterval connectionTimeout
    autoReconnect lastActivity pingInterval pongTimeout connectionMonitor clientId serverRef
    privateKey publicKey encKey macKey connectionInfo messageSentCount serverIndex
    connectionState armed next_id trace now entropy entropy_pos math_random random_pos waiters)
    := w in
  mkWorld ws isConnected isAuthenticated messageQueue keepAliveTimer reconnectTimer
    connectionAttempts maxReconnectAttempts reconnectDelay keepAliveInterval connectionTimeout
    autoReconnect lastActivity pingInterval pongTimeout connectionMonitor clientId serverRef
    privateKey publicKey encKey macKey connectionInfo messageSentCount serverIndex
    connectionState armed next_id trace now entropy entropy_pos math_random random_pos v.

(** *** The event loop: effects, timers, random numbers *)

Definition log (e : Effect) (w : World) : World :=
  set_trace (trace w ++ [e]) w.

(** [this.emit(event, arg)] as far as listeners outside the manager are
    concerned: they are not modelled, the call is recorded. *)
Definition emit (event : string) (arg : EventArg) (w : World) : World :=
  log (Emit event arg) w.

(** [setTimeout]/[setInterval]: a fresh handle, the timer armed. *)
Definition setTimer (cb : Callback) (ms : Q) (rep : bool) (w : World) : nat * World :=
  let id := next_id w in
  let t := mkTimer id cb ms rep in
  (id, log (SetTimer t) (set_next_id (S id) (set_armed (armed w ++ [t]) w))).

Definition setTimeout (cb : Callback) (ms : Q) (w : World) : nat * World :=
  setTimer cb ms false w.

Definition setInterval (cb : Callback) (ms : Q) (w : World) : nat * World :=
  setTimer cb ms true w.

Definition disarm (id : nat) (l : list Timer) : list Timer :=
  filter (fun t => timer_id t <> id) l.

(** [clearTimeout]/[clearInterval] *)
Definition clearTimer (id : nat) (w : World) : World :=
  log (ClearTimer id) (set_armed (disarm id (armed w)) w).

(** [crypto.randomBytes(n)]: the next [n] bytes of the entropy source. *)
Definition randomBytes (n : nat) (w : World) : list byte * World :=
  (map (entropy w) (seq (entropy_pos w) n),
   set_entropy_pos (entropy_pos w + n)%nat w).

(** [Math.random()]: the next draw, a number in [0, 1). *)
Definition Math_random (w : World) : Q * World :=
  (math_random w (random_pos w), set_random_pos (S (random_pos w)) w).

(** [getTimestamp()]: [Math.floor(Date.now() / 1000)] *)
Definition getTimestamp (w : World) : Z := now w / 1000.

(** A promise created by [new Promise(...)]: a fresh identity. *)
Definition newPromise (w : World) : nat * World :=
  (next_id w, set_next_id (S (next_id w)) w).

(** *** Back-off *)

Definition WA_WEB_SERVERS : list string :=
  [ "wss://web.whatsapp.com/ws"; "wss://w1.web.whatsapp.com/ws";
    "wss://w2.web.whatsapp.com/ws"; "wss://w3.web.whatsapp.com/ws" ].

Definition _getNextServer (w : World) : string * World :=
  let server := nth (Z.to_nat (serverIndex w)) WA_WEB_SERVERS EmptyString in
  (server,
   set_serverIndex ((serverIndex w + 1) mod Z.of_nat (length WA_WEB_SERVERS)) w).

(** [Math.min(baseDelay * Math.pow(2, attempts - 1), maxDelay)] *)
Definition exponentialDelay (baseDelay : Q) (attempts : Z) : Q :=
  Qmin (baseDelay * (2 ^ (attempts - 1)))%Q 30000%Q.

(** [_calculateBackoffDelay] with the outcome [u] of [Math.random()]. *)
Definition backoffDelay (baseDelay : Q) (attempts : Z) (u : Q) : Q :=
  let maxDelay := 30000%Q in
  let jitter := (u * 1000)%Q in
  let exponentialDelay :=
    Qmin (baseDelay * (2 ^ (attempts - 1)))%Q maxDelay in
  (exponentialDelay + jitter)%Q.

Definition _calculateBackoffDelay (w : World) : Q * World :=
  let (u, w') := Math_random w in
  (backoffDelay (reconnectDelay w) (connectionAttempts w) u, w').

(** *** Keep-alive and dead-connection detection *)

Definition clear_handle (get : World -> option nat)
    (set : option nat -> World -> World) (w : World) : World :=
  match get w with
  | Some t => set None (clearTimer t w)
  | None => w
  end.

Definition _clearKeepAlive (w : World) : World :=
  let w := clear_handle pingInterval set_pingInterval w in
  let w := clear_handle connectionMonitor set_connectionMonitor w in
  let w := clear_handle pongTimeout set_pongTimeout w in
  clear_handle reconnectTimer set_reconnectTimer w.

Definition _startKeepAlive (w : World) : World :=
  let w := _clearKeepAlive w in
  let (t1, w) := setInterval KeepAlivePing (inject_Z (keepAliveInterval w)) w in
  let w := set_pingInterval (Some t1) w in
  let (t2, w) := setInterval MonitorHealth (inject_Z (keepAliveInterval w)) w in
  set_connectionMonitor (Some t2) w.

Definition _handlePong (w : World) : World :=
  let w := clear_handle pongTimeout set_pongTimeout w in
  set_lastActivity (now w) w.

Definition _handleConnectionDead (w : World) : World :=
  let w := set_connectionState disconnected w in
  let w := set_isConnected false w in
  let w :=
    match ws w with
    | Some _ => set_ws None (log WsTerminate (log WsRemoveAllListeners w))
    | None => w
    end in
  let w := _clearKeepAlive w in
  let w := emit "connection_lost" NoArg w in
  if autoReconnect w then
    let (ms, w) := _calculateBackoffDelay w in
    let (t, w) := setTimeout Reconnect ms w in
    set_reconnectTimer (Some t) w
  else w.

Definition socket_open (w : World) : bool :=
  match ws w with Some OPEN => true | _ => false end.

(** The callback of the probe interval. *)
Definition keepAlivePing (w : World) : World :=
  if socket_open w then
    let w := set_lastActivity (now w) w in
    let w := log (WsSendText "?,,") w in
    let w := log WsPing w in
    let (t, w) := setTimeout PongDeadline 5000%Q w in
    set_pongTimeout (Some t) w
  else _handleConnectionDead w.

(** The callback of the health monitor. *)
Definition monitorHealth (w : World) : World :=
  let timeSinceLastActivity := now w - lastActivity w in
  if timeSinceLastActivity >? keepAliveInterval w * 3
  then _handleConnectionDead w
  else w.

(** *** Connecting *)

(** The [catch] block of [connect()], reached when the promise it awaits
    rejects with [error]. *)
Definition connect_catch (reconnecting : bool) (error : JsError) (w : World) : World :=
  let w := set_connectionState disconnected w in
  let w :=
    if autoReconnect w && (connectionAttempts w <? maxReconnectAttempts w) then
      let (ms, w) := _calculateBackoffDelay w in
      let (t, w) := setTimeout Reconnect ms w in
      set_reconnectTimer (Some t) w
    else emit "connection_failed" (ErrorArg error) w in
  if reconnecting
  then emit "reconnect_failed" (ErrorArg (ConnectionFailed error)) w
  else log (ConnectRejected (ConnectionFailed error)) w.

(** [connect()] up to its [await]: [reconnecting] tells whether the call
    comes from a reconnect timer (whose [.catch] emits
    ['reconnect_failed']) or from the user. *)
Definition connect (reconnecting : bool) (w : World) : World :=
  match connectionState w with
  | connecting | connected => w
  | _ =>
      let w := set_connectionState connecting w in
      let w := set_connectionAttempts (connectionAttempts w + 1) w in
      let (serverUrl, w) := _getNextServer w in
      let w :=
        match ws w with
        | Some _ => log WsTerminate (log WsRemoveAllListeners w)
        | None => w
        end in
      let w := log (WsNew serverUrl) (set_ws (Some CONNECTING) w) in
      let (timeout, w) := setTimeout ConnectTimeout (inject_Z (connectionTimeout w)) w in
      set_waiters (waiters w ++ [mkWaiter timeout reconnecting false true true]) w
  end.

(** The [once('connected')] listener of one pending [connect()]. *)
Definition on_connected_listener (x : Waiter) (w : World) : World :=
  if on_connected x then
    let w := clearTimer (waiter_timeout x) w in
    let w := set_connectionAttempts 0 w in
    if settled x then w else log ConnectResolved w
  else w.

(** The [once('error')] listener of one pending [connect()]; the
    rejection runs the [catch] block. *)
Definition on_error_listener (error : JsError) (x : Waiter) (w : World) : World :=
  if on_error x then
    let w := clearTimer (waiter_timeout x) w in
    if settled x then w else connect_catch (from_reconnect x) error w
  else w.

Definition after_connected (x : Waiter) : Waiter :=
  if on_connected x
  then mkWaiter (waiter_timeout x) (from_reconnect x) true false (on_error x)
  else x.

Definition after_error (x : Waiter) : Waiter :=
  if on_error x
  then mkWaiter (waiter_timeout x) (from_reconnect x) true (on_connected x) false
  else x.

(** [this.emit('connected')]: the outside listeners, then the listeners
    [connect()] registered. *)
Definition emit_connected (w : World) : World :=
  let listeners := waiters w in
  let w := emit "connected" NoArg w in
  let w := set_waiters (map after_connected listeners) w in
  foldl (fun w x => on_connected_listener x w) w listeners.

(** [this.emit('error', error)] *)
Definition emit_error (error : JsError) (w : World) : World :=
  let listeners := waiters w in
  let w := emit "error" (ErrorArg error) w in
  let w := set_waiters (map after_error listeners) w in
  foldl (fun w x => on_error_listener error x w) w listeners.

(** The callback of the timeout of [connect()]. *)
Definition connectTimeout (id : nat) (w : World) : World :=
  let w := set_connectionState disconnected w in
  match filter (fun x => waiter_timeout x = id) (waiters w) with
  | x :: _ =>
      if settled x then w
      else
        let w :=
          set_waiters
            (map (fun y =>
                    if bool_decide (waiter_timeout y = id)
                    then mkWaiter id (from_reconnect y) true (on_connected y) (on_error y)
                    else y) (waiters w)) w in
        connect_catch (from_reconnect x) ConnectionTimeout w
  | [] => w
  end.

Definition _handleOpen (w : World) : World :=
  let w := set_connectionState connected w in
  let w := set_isConnected true w in
  let w := set_lastActivity (now w) w in
  let w := set_connectionAttempts 0 w in
  let w := _startKeepAlive w in
  emit_connected w.

Definition _handleClose (code : Z) (w : World) : World :=
  let w := set_isConnected false w in
  let w := set_isAuthenticated false w in
  let w := clear_handle keepAliveTimer set_keepAliveTimer w in
  emit "disconnected" (CloseArg code) w.

Definition _handleError (error : JsError) (w : World) : World :=
  emit_error error w.

(** *** Sending *)

Definition _sendMessage (tag : string) (payload : Json) (w : World)
  : Result JsError World :=
  if socket_open w then Ok (log (WsSendMessage tag payload) w)
  else Err WebSocketNotConnected.

(** [disconnect()].  The 100 ms pause before the close frame is recorded
    as [Sleep]; what other callbacks do during the pause is not part of
    this function.  An exception inside the [try] leaves the state as it
    was when it was thrown. *)
Definition disconnect (w : World) : World :=
  let w := set_autoReconnect false w in
  let w := set_connectionState disconnected w in
  let w := _clearKeepAlive w in
  let closed :=
    match ws w with
    | Some OPEN =>
        letR w := _sendMessage "goodbye"
                    (JArr [JStr "admin"; JStr "Conn"; JStr "disconnect"]) w in
        let w := log (Sleep 100) w in
        Ok (log (WsClose 1000 "Client disconnect") w)
    | Some _ => Ok (log WsTerminate w)
    | None => Ok w
    end in
  match closed with
  | Ok w =>
      let w := set_isConnected false w in
      let w := set_isAuthenticated false w in
      let w := set_ws None w in
      let w := set_connectionAttempts 0 w in
      set_messageSentCount 0 w
  | Err _ => w  (* the catch block only logs *)
  end.


(** *** Inbound messages and the request correlator *)

(** [str.split(',')] *)
Fixpoint split_comma (s : string) (current : string) : list string :=
  match s with
  | EmptyString => [current]
  | String c rest =>
      if Ascii.eqb c ","%char then current :: split_comma rest EmptyString
      else split_comma rest (current +:+ String c EmptyString)
  end.

(** [message.split(',', 2)]: at most the first two pieces. *)
Definition split_limit2 (message : string) : list string :=
  take 2 (split_comma message EmptyString).

Fixpoint lookup_field (key : string) (fields : list (string * Json)) : option Json :=
  match fields with
  | [] => None
  | (k, v) :: rest => if String.eqb k key then Some v else lookup_field key rest
  end.

(** [value.key] for a value that came out of [JSON.parse] ([None] is
    [undefined]): a [TypeError] on [null] and [undefined], the member of an
    object, [undefined] on anything else. *)
Definition prop (value : option Json) (key : string) : Result JsError (option Json) :=
  match value with
  | None | Some JNull => Err JsTypeError
  | Some (JObj fields) => Ok (lookup_field key fields)
  | Some _ => Ok None
  end.

Definition is_200 (status : option Json) : bool :=
  match status with
  | Some (JNum 200) => true
  | _ => false
  end.

(** [null] where [JSON.stringify] finds [undefined] inside an array. *)
Definition or_null (v : option Json) : Json := default JNull v.

Definition call_resolve (item : QueueItem) (value : Settlement) (w : World) : World :=
  match resolve item with
  | Some p => log (Resolve p value) w
  | None => w
  end.

Definition call_reject (item : QueueItem) (error : JsError) (w : World) : World :=
  match reject item with
  | Some p => log (Reject p error) w
  | None => w
  end.

(** [privateKey[0] &= 248; privateKey[31] &= 127; privateKey[31] |= 64] *)
Definition clamp (privateKey : list byte) : list byte :=
  alter (fun b => byte_of_Z (Z.lor (byte_to_Z b) 64)) 31%nat
    (alter (fun b => byte_of_Z (Z.land (byte_to_Z b) 127)) 31%nat
       (alter (fun b => byte_of_Z (Z.land (byte_to_Z b) 248)) 0%nat privateKey)).

Definition _generateKeyPair (w : World) : (list byte * list byte) * World :=
  let (privateKey, w) := randomBytes 32 w in
  let privateKey := clamp privateKey in
  let (publicKey, w) := randomBytes 32 w in
  ((privateKey, publicKey), w).

Definition _computeSharedSecret (serverPublicKey : list byte) (w : World)
  : list byte * World :=
  randomBytes 32 w.

Section Handlers.

(** Primitives of the platform: [JSON.parse] ([None] when it throws),
    [Buffer.from(x, 'base64')] on a parsed value, [buf.toString('base64')],
    [date.toISOString()], HMAC-SHA256 and the cipher objects. *)
Variable JSON_parse : string -> option Json.
Variable Buffer_from_base64 : option Json -> Result JsError (list byte).
Variable base64 : list byte -> string.
Variable toISOString : Z -> string.
Variable hmac_sha256 : list byte -> list byte -> list byte.
Variable aes_cbc_encrypt : list byte -> list byte -> list byte -> Result Utils.CryptoError (list byte).
Variable aes_cbc_decrypt : list byte -> list byte -> list byte -> Result Utils.CryptoError (list byte).
Variable createDecipherGCM : list byte -> list byte -> list byte -> Result JsError (list byte).
Variable toPropertyKey : Binary.Value -> option string.

Definition parseWhatsAppVersion : Json := JArr [JNum 2; JNum 2121; JNum 6].

(** [initializeAuth()] *)
Definition initializeAuth (w : World) : World :=
  let (bytes, w) := randomBytes 16 w in
  let w := set_clientId (Some (base64 bytes)) w in
  let messageTag := Binary.number_toString (getTimestamp w) in
  let initMessage :=
    JArr [ JStr "admin"; JStr "init"; parseWhatsAppVersion;
           JArr [ JStr ("WhatsApp Web Library at " +:+ toISOString (now w));
                  JStr "WhatsApp Web Library" ];
           JStr (base64 bytes); JBool true ] in
  let w := set_messageQueue (<[messageTag := mkItem "_login" None None]> (messageQueue w)) w in
  match _sendMessage messageTag initMessage w with
  | Err e => log (Throws e) w
  | Ok w =>
      let (p, w) := newPromise w in
      let w := set_messageQueue
                 (<[messageTag := mkItem "_login" (Some p) (Some p)]> (messageQueue w)) w in
      let (_, w) := setTimeout (RequestTimeout messageTag p AuthInitTimeout) 30000%Q w in
      w
  end.

(** [loginWithSession(sessionData)], the keys already decoded. *)
Definition loginWithSession (sessionData : Credentials) (w : World) : World :=
  let w := set_clientId (cred_clientId sessionData) w in
  let info := connectionInfo w in
  let w := set_connectionInfo
             (mkConnectionInfo (cred_clientToken sessionData) (cred_serverToken sessionData)
                (browserToken info) (secret info) (sharedSecret info) (me info)
                (pushname info)) w in
  let w := set_encKey (Some (cred_encKey sessionData)) w in
  let w := set_macKey (Some (cred_macKey sessionData)) w in
  let clientIdJson := match clientId w with Some s => JStr s | None => JNull end in
  let messageTag := Binary.number_toString (getTimestamp w) in
  let initMessage :=
    JArr [ JStr "admin"; JStr "init"; parseWhatsAppVersion;
           JArr [ JStr "WhatsApp Web Library"; JStr "WhatsApp Web Library" ];
           clientIdJson; JBool true ] in
  match _sendMessage messageTag initMessage w with
  | Err e => log (Throws e) w
  | Ok w =>
      let loginTag := Binary.number_toString (getTimestamp w) in
      let loginMessage :=
        JArr [ JStr "admin"; JStr "login";
               or_null (clientToken (connectionInfo w));
               or_null (serverToken (connectionInfo w));
               clientIdJson; JStr "takeover" ] in
      let w := set_messageQueue
                 (<[loginTag := mkItem "_restoresession" None None]> (messageQueue w)) w in
      match _sendMessage loginTag loginMessage w with
      | Err e => log (Throws e) w
      | Ok w =>
          let (p, w) := newPromise w in
          let w := set_messageQueue
                     (<[loginTag := mkItem "_restoresession" (Some p) (Some p)]>
                        (messageQueue w)) w in
          let (_, w) := setTimeout (RequestTimeout loginTag p SessionLoginTimeout) 30000%Q w in
          w
      end
  end.

(** The callback of a request's 30 s timeout. *)
Definition requestTimeout (tag : string) (promise : nat) (error : JsError)
    (w : World) : World :=
  match messageQueue w !! tag with
  | Some _ =>
      let w := set_messageQueue (delete tag (messageQueue w)) w in
      log (Reject promise error) w
  | None => w
  end.

Definition _handleLoginResponse (response : Json) (queueItem : QueueItem)
    (w : World) : World :=
  match prop (Some response) "status" with
  | Err e => call_reject queueItem e w
  | Ok status =>
      if is_200 status then
        let w := set_serverRef (lookup_field "ref"
                   match response with JObj f => f | _ => [] end) w in
        let '((privKey, pubKey), w) := _generateKeyPair w in
        let w := set_privateKey (Some privKey) w in
        let w := set_publicKey (Some pubKey) w in
        let qrContent := mkQr (serverRef w) pubKey (clientId w) in
        let w := call_resolve queueItem (QrValue qrContent (serverRef w)) w in
        emit "qr" (QrArg qrContent) w
      else call_reject queueItem (LoginFailed status) w
  end.

Definition _handleSessionResponse (response : Json) (queueItem : QueueItem)
    (w : World) : World :=
  match prop (Some response) "status" with
  | Err e => call_reject queueItem e w
  | Ok status =>
      if is_200 status then
        let w := set_isAuthenticated true w in
        let w := emit "authenticated" NoArg w in
        call_resolve queueItem (JsonValue response) w
      else call_reject queueItem (SessionRestoreFailed status) w
  end.

Definition _handleQueuedMessage (messageTag : string) (messageContent : option string)
    (w : World) : World :=
  match messageQueue w !! messageTag with
  | None => set_messageQueue (delete messageTag (messageQueue w)) w
  | Some queueItem =>
      let w := set_messageQueue (delete messageTag (messageQueue w)) w in
      match messageContent ≫= JSON_parse with
      | None => call_reject queueItem SyntaxError w
      | Some response =>
          if String.eqb (desc queueItem) "_login" then
            _handleLoginResponse response queueItem w
          else if String.eqb (desc queueItem) "_restoresession" then
            _handleSessionResponse response queueItem w
          else w
      end
  end.

(** [this._aesDecrypt(key, ciphertext)] *)
Definition _aesDecrypt (key ciphertext : list byte) : Result JsError (list byte) :=
  let iv := take 16 ciphertext in
  let encrypted := drop 16 ciphertext in
  createDecipherGCM key iv encrypted.

(** The [try] block of [_handleConnectionInfo]; the state it returns with
    an error is the state at the [throw]. *)
Definition connectionInfo_try (connData : option Json) (w : World)
  : World * Result JsError Credentials :=
  match prop connData "clientToken" with
  | Err e => (w, Err e)
  | Ok _ =>
      let get key := match prop connData key with Ok v => v | Err _ => None end in
      let info := connectionInfo w in
      let info := mkConnectionInfo (get "clientToken") (get "serverToken")
                    (get "browserToken") (secret info) (sharedSecret info)
                    (get "wid") (get "pushname") in
      let w := set_connectionInfo info w in
      match Buffer_from_base64 (get "secret") with
      | Err e => (w, Err e)
      | Ok secretBytes =>
          let info := mkConnectionInfo (clientToken info) (serverToken info)
                        (browserToken info) (Some secretBytes) (sharedSecret info)
                        (me info) (pushname info) in
          let w := set_connectionInfo info w in
          let (shared, w) := _computeSharedSecret (take 32 secretBytes) w in
          let info := mkConnectionInfo (clientToken info) (serverToken info)
                        (browserToken info) (Some secretBytes) (Some shared)
                        (me info) (pushname info) in
          let w := set_connectionInfo info w in
          let sharedSecretExpanded :=
            Utils.hkdf hmac_sha256 shared (replicate 32 x00)
              (list_byte_of_string "WhatsApp Web Keys") 80 in
          let hmacValidation :=
            Utils.hmacSha256 hmac_sha256
              (Binary.slice sharedSecretExpanded 32 64)
              (take 32 secretBytes ++ drop 64 secretBytes) in
          if negb (bool_decide (hmacValidation = Binary.slice secretBytes 32 64)) then
            (w, Err HmacValidationFailed)
          else
            let keysEncrypted := drop 64 sharedSecretExpanded ++ drop 64 secretBytes in
            match _aesDecrypt (take 32 sharedSecretExpanded) keysEncrypted with
            | Err e => (w, Err e)
            | Ok keysDecrypted =>
                let w := set_encKey (Some (take 32 keysDecrypted)) w in
                let w := set_macKey (Some (Binary.slice keysDecrypted 32 64)) w in
                let w := set_isAuthenticated true w in
                let w := _startKeepAlive w in
                (w, Ok (mkCredentials (clientToken info) (serverToken info) (clientId w)
                          (take 32 keysDecrypted) (Binary.slice keysDecrypted 32 64)))
            end
      end
  end.

Definition _handleConnectionInfo (connData : option Json) (w : World) : World :=
  match connectionInfo_try connData w with
  | (w, Ok credentials) => emit "authenticated" (AuthArg credentials) w
  | (w, Err e) => emit "auth_failure" (ErrorArg e) w
  end.

Definition _handleChallenge (challenge : option Json) (w : World) : World :=
  match Buffer_from_base64 challenge with
  | Err _ => w
  | Ok challengeData =>
      let (iv, w) := randomBytes 16 w in
      match encKey w, macKey w with
      | Some ek, Some mk =>
          match Utils.whatsappEncrypt hmac_sha256 aes_cbc_encrypt iv ek mk challengeData with
          | Err _ => w
          | Ok response =>
              let messageTag := Binary.number_toString (getTimestamp w) in
              let challengeResponse :=
                JArr [ JStr "admin"; JStr "challenge"; JStr (base64 response);
                       or_null (serverToken (connectionInfo w));
                       match clientId w with Some s => JStr s | None => JNull end ] in
              match _sendMessage messageTag challengeResponse w with
              | Ok w => w
              | Err _ => w
              end
          end
      | _, _ => w
      end
  end.

Definition _handleCommand (cmdData : option Json) (w : World) : Result JsError World :=
  letR type := prop cmdData "type" in
  match type with
  | Some (JStr "challenge") =>
      letR challenge := prop cmdData "challenge" in
      Ok (_handleChallenge challenge w)
  | _ => Ok w
  end.

Definition _handleJsonMessage (jsonData : Json) (w : World) : Result JsError World :=
  letR w :=
    match jsonData with
    | JArr (JStr command :: args) =>
        if String.eqb command "Conn" then Ok (_handleConnectionInfo (head args) w)
        else if String.eqb command "Stream" then Ok w
        else if String.eqb command "Props" then Ok w
        else if String.eqb command "Cmd" then _handleCommand (head args) w
        else Ok w
    | _ => Ok w
    end in
  Ok (emit "json_message" (JsonArg jsonData) w).

Definition _handleTextMessage (message : string) (w : World) : World :=
  let parts := split_limit2 message in
  let messageTag := default EmptyString (parts !! 0%nat) in
  let messageContent := parts !! 1%nat in
  match messageQueue w !! messageTag with
  | Some _ => _handleQueuedMessage messageTag messageContent w
  | None =>
      match messageContent ≫= JSON_parse with
      | None => w
      | Some jsonData =>
          match _handleJsonMessage jsonData w with
          | Ok w' => w'
          | Err _ => w
          end
      end
  end.

(** [data.indexOf(',')] on a buffer, as a split at the first comma. *)
Fixpoint split_at_comma (d : list byte) (before : list byte) : option (list byte * list byte) :=
  match d with
  | [] => None
  | b :: rest => if byte_to_Z b =? 44 then Some (before, rest)
                 else split_at_comma rest (before ++ [b])
  end.

Definition _handleBinaryMessage (d : list byte) (w : World) : World :=
  if negb (isAuthenticated w) then w
  else
    match split_at_comma d [] with
    | None => w
    | Some (tagBytes, messageContent) =>
        let messageTag := string_of_list_byte tagBytes in
        match encKey w, macKey w with
        | Some ek, Some mk =>
            match Utils.whatsappDecrypt hmac_sha256 aes_cbc_decrypt ek mk messageContent with
            | Err _ => w
            | Ok decryptedData =>
                match Binary.decode toPropertyKey decryptedData with
                | Err _ => w
                | Ok parsedData =>
                    emit "binary_message" (BinaryArg messageTag parsedData) w
                end
            end
        | _, _ => w
        end
    end.

Inductive Frame : Type :=
| TextFrame (message : string)
| BinaryFrame (d : list byte).

Definition _handleMessage (frame : Frame) (w : World) : World :=
  match frame with
  | BinaryFrame d => _handleBinaryMessage d w
  | TextFrame message => _handleTextMessage message w
  end.

(** *** Timers firing *)

Definition run_callback (t : Timer) (w : World) : World :=
  match callback t with
  | KeepAlivePing => keepAlivePing w
  | MonitorHealth => monitorHealth w
  | PongDeadline => _handleConnectionDead w
  | Reconnect => connect true w
  | ConnectTimeout => connectTimeout (timer_id t) w
  | RequestTimeout tag promise error => requestTimeout tag promise error w
  end.

(** The event loop runs the callback of an armed timer; a timeout is
    disarmed by firing, an interval stays armed.  A timer that is not
    armed cannot fire. *)
Definition fire (id : nat) (w : World) : World :=
  match filter (fun t => timer_id t = id) (armed w) with
  | t :: _ =>
      let w := if repeats t then w else set_armed (disarm id (armed w)) w in
      run_callback t w
  | [] => w
  end.

(** What the socket delivers to the listeners [connect()] registered on
    it; a manager without a socket receives nothing. *)
Inductive SocketEvent : Type :=
| SocketOpen
| SocketMessage (frame : Frame)
| SocketClose (code : Z)
| SocketFailure (error : JsError)
| SocketPong.

Definition socket_event (e : SocketEvent) (w : World) : World :=
  match ws w with
  | None => w
  | Some _ =>
      match e with
      | SocketOpen => _handleOpen (set_ws (Some OPEN) w)
      | SocketMessage frame => _handleMessage frame w
      | SocketClose code => _handleClose code (set_ws (Some CLOSED) w)
      | SocketFailure error => _handleError error w
      | SocketPong => _handlePong w
      end
  end.

End Handlers.

(** *** The manager as constructed *)

Definition emptyConnectionInfo : ConnectionInfo :=
  mkConnectionInfo None None None None None None None.

(** [new RealWebSocketManager({})] at time [t0], with the sources of
    random bytes and of [Math.random()] draws. *)
Definition initial (t0 : Z) (bytes : nat -> byte) (draws : nat -> Q) : World :=
  {| ws := None; isConnected := false; isAuthenticated := false;
     messageQueue := ∅; keepAliveTimer := None; reconnectTimer := None;
     connectionAttempts := 0; maxReconnectAttempts := 50;
     reconnectDelay := 2000%Q; keepAliveInterval := 20000;
     connectionTimeout := 20000; autoReconnect := true; lastActivity := t0;
     pingInterval := None; pongTimeout := None; connectionMonitor := None;
     clientId := None; serverRef := None; privateKey := None;
     publicKey := None; encKey := None; macKey := None;
     connectionInfo := emptyConnectionInfo; messageSentCount := 0;
     serverIndex := 0; connectionState := disconnected;
     armed := []; next_id := 0%nat; trace := []; now := t0;
     entropy := bytes; entropy_pos := 0%nat;
     math_random := draws; random_pos := 0%nat; waiters := [] |}.

(** Time passing: [Date.now()] moves on. *)
Definition advance (ms : Z) (w : World) : World := set_now (now w + ms) w.


(** *** Vocabulary of the properties of the manager *)

(** A freshly constructed manager whose every random byte is [x2a] and
    whose every [Math.random()] draw is one half. *)
Definition fresh : World := initial 1700000000000 (fun _ => x2a) (fun _ => 1 # 2)%Q.

(** The timers the manager keeps a handle of, in the order
    [_clearKeepAlive] clears them. *)
Definition handles (w : World) : list nat :=
  omap id [pingInterval w; connectionMonitor w; pongTimeout w; reconnectTimer w].

Definition disarm_all (ids : list nat) (l : list Timer) : list Timer :=
  foldl (fun l id => disarm id l) l ids.

(** The reconnect timer the dead-connection path arms. *)
Definition reconnect_timer (w : World) : Timer :=
  mkTimer (next_id w) Reconnect
    (backoffDelay (reconnectDelay w) (connectionAttempts w)
       (math_random w (random_pos w)))
    false.

(** What a call adds to the trace. *)
Definition added (w w' : World) : list Effect :=
  drop (length (trace w)) (trace w').

Definition is_connection_lost (e : Effect) : bool :=
  match e with
  | Emit event _ => String.eqb event "connection_lost"
  | _ => false
  end.

Definition is_reconnect_timer (e : Effect) : bool :=
  match e with
  | SetTimer t => match callback t with Reconnect => true | _ => false end
  | _ => false
  end.

Definition count (f : Effect -> bool) (l : list Effect) : nat :=
  length (filter (fun e => f e = true) l).

Definition goodbye : Json := JArr [JStr "admin"; JStr "Conn"; JStr "disconnect"].

(** What [disconnect()] does to the socket. *)
Definition closing_effects (w : World) : list Effect :=
  match ws w with
  | Some OPEN =>
      [WsSendMessage "goodbye" goodbye; Sleep 100; WsClose 1000 "Client disconnect"]
  | Some _ => [WsTerminate]
  | None => []
  end.

Definition is_settle (e : Effect) : bool :=
  match e with
  | Resolve _ _ | Reject _ _ => true
  | _ => false
  end.

(** A toy [toString('base64')] and [toISOString()]. *)
Definition demo_base64 (b : list byte) : string := string_of_list_byte b.
Definition demo_date (t : Z) : string := EmptyString.

(** A manager that has called [connect()] and whose socket has opened. *)
Definition opened : World := _handleOpen (set_ws (Some OPEN) (connect false fresh)).

(** The same manager after its first keep-alive probe: the pong deadline
    is armed. *)
Definition probed : World := fire 1 opened.

(** The opened manager after two [init] requests, one second apart; both
    are pending. *)
Definition two_pending : World :=
  initializeAuth demo_base64 demo_date
    (advance 1000 (initializeAuth demo_base64 demo_date opened)).

(** The leading tag of a text message, and what follows it up to the next
    comma, as [_handleTextMessage] splits them. *)
Definition tag_of (message : string) : string :=
  default EmptyString (split_limit2 message !! 0%nat).

Definition content_of (message : string) : option string :=
  split_limit2 message !! 1%nat.

(** [w'] comes after [w] without any callback of a request having been
    invoked and with the pending requests as they were. *)
Definition quiet (w w' : World) : Prop :=
  messageQueue w' = messageQueue w
  /\ exists l, trace w' = trace w ++ l /\ count is_settle l = 0%nat.

(** The callbacks of promise [p]. *)
Definition settles_of (p : nat) (e : Effect) : bool :=
  match e with
  | Resolve q _ | Reject q _ => bool_decide (q = p)
  | _ => false
  end.

(** An entry holds the callbacks of promise [p]. *)
Definition holds (p : nat) (w : World) : Prop :=
  exists t item, messageQueue w !! t = Some item
    /\ (resolve item = Some p \/ reject item = Some p).

(** The shape of what the handling of a matching message adds to the
    trace: at most one invocation of a callback, and then a callback of the
    entry [item]. *)
Definition one_settle (item : QueueItem) (l : list Effect) : Prop :=
  exists pre mid post,
    l = pre ++ mid ++ post
    /\ count is_settle pre = 0%nat /\ count is_settle post = 0%nat
    /\ (mid = []
        \/ (exists p v, resolve item = Some p /\ mid = [Resolve p v])
        \/ (exists p e, reject item = Some p /\ mid = [Reject p e])).

(** A toy platform: a parser that knows one response, and ciphers that
    return their input. *)
Definition demo_parse (s : string) : option Json :=
  if String.eqb s "ok" then Some (JObj [("status", JNum 200)]) else None.
Definition demo_buffer (j : option Json) : Result JsError (list byte) :=
  Err JsTypeError.
Definition demo_cipher (key iv d : list byte)
  : Result Utils.CryptoError (list byte) := Ok d.
Definition demo_gcm (key iv d : list byte) : Result JsError (list byte) := Ok d.
Definition demo_hmac (key d : list byte) : list byte := replicate 32 x00.

(** *** Further vocabulary *)

(** The identities given out so far, of timers and of promises, are
    below [next_id]. *)
Definition fresh_ids (w : World) : Prop :=
  Forall (fun t => (timer_id t < next_id w)%nat) (armed w)
  /\ Forall (fun x => (waiter_timeout x < next_id w)%nat) (waiters w)
  /\ (forall p, holds p w -> (p < next_id w)%nat).

Fixpoint no_comma (s : string) : bool :=
  match s with
  | EmptyString => true
  | String c rest => negb (Ascii.eqb c ","%char) && no_comma rest
  end.

(** [n] calls of [_getNextServer], the servers they return in order. *)
Fixpoint next_servers (n : nat) (w : World) : list string * World :=
  match n with
  | O => ([], w)
  | S n' =>
      let (server, w) := _getNextServer w in
      let (servers, w) := next_servers n' w in
      (server :: servers, w)
  end.

(** The timeout [initializeAuth] arms for the request it registers under
    [tag] for the promise [p]. *)
Definition auth_timeout (id : nat) (tag : string) (p : nat) : Timer :=
  mkTimer id (RequestTimeout tag p AuthInitTimeout) 30000%Q false.

(** The [init] message of [initializeAuth], as sent from the state [w]. *)
Definition init_message (base64 : list byte -> string) (toISOString : Z -> string)
    (w : World) : Json :=
  JArr [ JStr "admin"; JStr "init"; parseWhatsAppVersion;
         JArr [ JStr ("WhatsApp Web Library at " +:+ toISOString (now w));
                JStr "WhatsApp Web Library" ];
         JStr (base64 (map (entropy w) (seq (entropy_pos w) 16))); JBool true ].


End Manager.

(** ** The rate-limited outbound queue ([ProductionWhatsAppClient]) *)

Module Production.

(** An entry of [this.messageQueue]: the message function, and the
    promise [_queueMessage] returned, whose [resolve] and [reject] the
    entry holds. *)
Record QueuedMessage : Type := mkQueued {
  function : nat;
  promise : nat;
  attempts : Z;
  maxAttempts : Z
}.

Inductive Effect : Type :=
| Call (messageFunction : nat)
| Resolve (promise : nat) (result : Z)
| Reject (promise : nat) (error : Z).

Record Client : Type := mkClient {
  messageQueue : list QueuedMessage;
  messagingActive : bool;
  isReady : bool;
  maxMessageRetries : Z;
  (* the locals of a [_processMessageQueue] suspended at its [await] *)
  awaiting : option QueuedMessage;
  next_promise : nat;
  trace : list Effect
}.

Definition log (e : Effect) (c : Client) : Client :=
  mkClient (messageQueue c) (messagingActive c) (isReady c) (maxMessageRetries c)
    (awaiting c) (next_promise c) (trace c ++ [e]).

(** [_queueMessage(messageFunction)]: the new promise and the client. *)
Definition _queueMessage (messageFunction : nat) (c : Client) : nat * Client :=
  let p := next_promise c in
  (p, mkClient (messageQueue c ++ [mkQueued messageFunction p 0 (maxMessageRetries c)])
        (messagingActive c) (isReady c) (maxMessageRetries c) (awaiting c)
        (S p) (trace c)).

(** [_processMessageQueue()] up to its [await]. *)
Definition _processMessageQueue (c : Client) : Client :=
  if messagingActive c || bool_decide (messageQueue c = []) || negb (isReady c) then c
  else
    match messageQueue c with
    | item :: rest =>
        log (Call (function item))
          (mkClient rest true (isReady c) (maxMessageRetries c) (Some item)
             (next_promise c) (trace c))
    | [] => c
    end.

(** [_processMessageQueue()] from its [await] on, when the message
    function has returned ([Ok result]) or thrown ([Err error]). *)
Definition _processMessageQueue_resume (outcome : Result Z Z) (c : Client) : Client :=
  match awaiting c with
  | None => c
  | Some dequeued =>
      let c :=
        match outcome with
        | Ok result => log (Resolve (promise dequeued) result) c
        | Err error =>
            match last (messageQueue c) with
            | Some item => log (Reject (promise item) error) c
            | None => c
            end
        end in
      mkClient (messageQueue c) false (isReady c) (maxMessageRetries c) None
        (next_promise c) (trace c)
  end.

(** The part of [_resetState()] that touches the queue. *)
Definition _resetState (c : Client) : Client :=
  mkClient [] (messagingActive c) false (maxMessageRetries c) (awaiting c)
    (next_promise c) (trace c).

Definition set_ready (b : bool) (c : Client) : Client :=
  mkClient (messageQueue c) (messagingActive c) b (maxMessageRetries c)
    (awaiting c) (next_promise c) (trace c).

(** What can happen to the queue, one event of the event loop at a time. *)
Inductive Op : Type :=
| Enqueue (messageFunction : nat)
| Tick
| Settled (outcome : Result Z Z)
| Reset
| Ready (b : bool).

Definition step (c : Client) (op : Op) : Client :=
  match op with
  | Enqueue f => (_queueMessage f c).2
  | Tick => _processMessageQueue c
  | Settled outcome => _processMessageQueue_resume outcome c
  | Reset => _resetState c
  | Ready b => set_ready b c
  end.

Definition run (ops : list Op) (c : Client) : Client := foldl step c ops.

Definition newClient : Client := mkClient [] false false 3 None 0 [].

(** How often the callbacks of promise [p] were invoked. *)
Definition settles (p : nat) (e : Effect) : bool :=
  match e with
  | Resolve q _ | Reject q _ => bool_decide (q = p)
  | Call _ => false
  end.

(** *** Vocabulary of the properties of the queue *)

(** How often the callbacks of promise [p] are invoked in a trace. *)
Definition count_settles (p : nat) (l : list Effect) : nat :=
  length (filter (fun e => settles p e = true) l).

(** While the call of the dequeued message [m] is pending: [m] is held
    by the suspended tick only, and no tick can start. *)
Definition pending (m : QueuedMessage) (c : Client) : Prop :=
  awaiting c = Some m /\ messagingActive c = true
  /\ (promise m ∉ promise <$> messageQueue c)
  /\ (promise m < next_promise c)%nat.

(** Nothing holds the callbacks of promise [p] any more. *)
Definition orphan (p : nat) (c : Client) : Prop :=
  (p ∉ promise <$> messageQueue c)
  /\ (forall x, awaiting c = Some x -> promise x <> p)
  /\ (p < next_promise c)%nat.

(** Two messages queued on a ready client; the first one's function
    throws. *)
Definition two_queued : Client :=
  set_ready true (_queueMessage 8 (_queueMessage 7 newClient).2).2.

(** The message functions called, in the order of the calls. *)
Definition calls (l : list Effect) : list nat :=
  omap (fun e => match e with Call f => Some f | _ => None end) l.

(** The message functions handed to [_queueMessage], in that order. *)
Definition enqueued (ops : list Op) : list nat :=
  omap (fun op => match op with Enqueue f => Some f | _ => None end) ops.

(** The states of a client on which only the operations of the queue have
    acted. *)
Definition reachable (c : Client) : Prop := exists ops, c = run ops newClient.

(** What every reachable client satisfies: a tick is suspended exactly
    while [messagingActive] is set, and the promises held are distinct and
    were handed out by [_queueMessage]. *)
Definition sound (c : Client) : Prop :=
  (messagingActive c = true <-> awaiting c <> None)
  /\ NoDup (promise <$> messageQueue c)
  /\ Forall (fun x => (promise x < next_promise c)%nat) (messageQueue c)
  /\ (forall m, awaiting c = Some m ->
        (promise m ∉ promise <$> messageQueue c) /\ (promise m < next_promise c)%nat).


End Production.

(** ** The cryptography manager ([CryptoManager] of [src/crypto.js]) *)

Module Crypto.

Inductive CryptoManagerError : Type :=
| MacKeyNotAvailable          (* Error('MAC key not available') *)
| SharedSecretNotAvailable    (* Error('Shared secret not available') *)
| MediaMacVerificationFailed  (* Error('Media MAC verification failed') *)
| InvalidDigest               (* thrown by crypto.createHmac *)
| Thrown (e : Utils.CryptoError).  (* thrown by timingSafeEqual or a cipher object *)

(** The fields of [this]; [keyPair] tells whether the ECDH object is
    there. *)
Record CryptoManager : Type := mkCryptoManager {
  privateKey : option (list byte);
  publicKey : option (list byte);
  sharedSecret : option (list byte);
  macKey : option (list byte);
  encKey : option (list byte);
  keyPair : bool
}.

(** What [encryptMedia] returns. *)
Record EncryptedMedia : Type := mkEncryptedMedia {
  encryptedData : list byte;
  mediaKey : list byte;
  iv : list byte;
  mac : list byte
}.

Section Primitives.

(** Node's [crypto] module: [createHmac(algorithm, key)] fed with the
    data ([None] when the algorithm is not known and it throws), and the
    AES-256-CBC objects as in [Utils]. *)
Variable createHmac : string -> list byte -> list byte -> option (list byte).
Variable aes_cbc_encrypt : list byte -> list byte -> list byte -> Result Utils.CryptoError (list byte).
Variable aes_cbc_decrypt : list byte -> list byte -> list byte -> Result Utils.CryptoError (list byte).

Definition lift {A} (r : Result Utils.CryptoError A) : Result CryptoManagerError A :=
  match r with
  | Ok a => Ok a
  | Err e => Err (Thrown e)
  end.

(** [sign(data, options)]; [algorithm] is [options.algorithm], [None]
    when it is not given; the empty string is as good as none. *)
Definition sign (m : CryptoManager) (data : list byte) (algorithm : option string)
  : Result CryptoManagerError (list byte) :=
  match macKey m with
  | None => Err MacKeyNotAvailable
  | Some key =>
      let algorithm :=
        match algorithm with
        | Some (String c rest) => String c rest
        | _ => "sha256"   (* [options.algorithm || 'sha256'] *)
        end in
      match createHmac algorithm key data with
      | Some digest => Ok digest
      | None => Err InvalidDigest
      end
  end.

(** [verify(data, signature, options)]: whatever is thrown inside is
    caught and answered with [false]. *)
Definition verify (m : CryptoManager) (data signature : list byte)
    (algorithm : option string) : bool :=
  match macKey m with
  | None => false
  | Some _ =>
      match sign m data algorithm with
      | Err _ => false
      | Ok expectedSignature =>
          match Utils.timingSafeEqual signature expectedSignature with
          | Ok same => same
          | Err _ => false
          end
      end
  end.

(** [encryptMedia(mediaData, mediaKey)] with the random bytes it draws
    passed in: [freshKey] are the 32 bytes drawn when no key is given, [iv]
    the 16 bytes drawn next. *)
Definition encryptMedia (freshKey iv : list byte) (mediaData : list byte)
    (mediaKey : option (list byte)) : Result CryptoManagerError EncryptedMedia :=
  let mediaKey := default freshKey mediaKey in
  letR encrypted := lift (aes_cbc_encrypt mediaKey iv mediaData) in
  match createHmac "sha256" mediaKey (iv ++ encrypted) with
  | None => Err InvalidDigest
  | Some macDigest => Ok (mkEncryptedMedia encrypted mediaKey iv macDigest)
  end.

Definition decryptMedia (encryptedData mediaKey iv expectedMac : list byte)
  : Result CryptoManagerError (list byte) :=
  match createHmac "sha256" mediaKey (iv ++ encryptedData) with
  | None => Err InvalidDigest
  | Some computedMac =>
      letR same := lift (Utils.timingSafeEqual expectedMac computedMac) in
      if negb same then Err MediaMacVerificationFailed
      else lift (aes_cbc_decrypt mediaKey iv encryptedData)
  end.

End Primitives.

Section Sha256.

(** HMAC-SHA256, which [createHmac('sha256', ...)] never refuses. *)
Variable hmac_sha256 : list byte -> list byte -> list byte.

(** [_hkdf(inputKeyMaterial, salt, info, length)]; its expand loop is
    the loop of [hkdf] in [utils.js], statement by statement. *)
Definition _hkdf (inputKeyMaterial salt info : list byte) (length : Z) : list byte :=
  let prk :=
    hmac_sha256 (if (0 <? Z.of_nat (List.length salt)) then salt else replicate 32 x00)
      inputKeyMaterial in
  let blocks := (length + 31) / 32 in
  take (Z.to_nat length)
    (Utils.hkdf_blocks hmac_sha256 prk info (Z.to_nat blocks) 1 [] []).

(** [_deriveKeys()] *)
Definition _deriveKeys (m : CryptoManager) : Result CryptoManagerError CryptoManager :=
  match sharedSecret m with
  | None => Err SharedSecretNotAvailable
  | Some secret =>
      let salt := replicate 32 x00 in
      let info := list_byte_of_string "WhatsApp Web Keys" in
      let derivedKeys := _hkdf secret salt info 64 in
      Ok (mkCryptoManager (privateKey m) (publicKey m) (sharedSecret m)
            (Some (Binary.slice derivedKeys 32 64))
            (Some (Binary.slice derivedKeys 0 32)) (keyPair m))
  end.

End Sha256.

End Crypto.


(** * Properties *)

(** ** The codec *)

Module BinaryFacts.
Import Binary.

Lemma byte_to_Z_range b : 0 <= byte_to_Z b < 256.
Proof.
  unfold byte_to_Z. pose proof (Byte.to_N_bounded b). lia.
Qed.

(** *** The reader never reads past the end *)

Lemma follows_refl r : follows r r.
Proof. unfold follows. repeat split; reflexivity || lia. Qed.

Lemma follows_trans r1 r2 r3 : follows r1 r2 -> follows r2 r3 -> follows r1 r3.
Proof. unfold follows. intros (?&?&?&?) (?&?&?&?). repeat split; try congruence; lia. Qed.

Lemma readByte_ok r b r' :
  readByte r = Ok (b, r') ->
  position r < data_length r
  /\ b = byte_to_Z (nth (Z.to_nat (position r)) (data r) x00)
  /\ 0 <= b < 256
  /\ position r' = position r + 1 /\ follows r r'.
Proof.
  unfold readByte. destruct (Z.geb_spec (position r) (data_length r)); [done|].
  intros [= <- <-]. unfold follows, data_length in *. simpl.
  repeat split; try apply byte_to_Z_range; lia || reflexivity.
Qed.

Lemma readByte_err r e :
  readByte r = Err e -> e = UnexpectedEnd /\ data_length r <= position r.
Proof.
  unfold readByte. destruct (Z.geb_spec (position r) (data_length r)); [|done].
  intros [= <-]. split; [reflexivity|lia].
Qed.

Lemma readBytes_ok count r bytes r' :
  0 <= count ->
  readBytes count r = Ok (bytes, r') ->
  position r + count <= data_length r
  /\ bytes = slice (data r) (position r) (position r + count)
  /\ position r' = position r + count /\ follows r r'.
Proof.
  unfold readBytes. destruct (Z.gtb_spec (position r + count) (data_length r)); [done|].
  intros ? [= <- <-]. unfold follows, data_length in *. simpl.
  repeat split; lia || reflexivity.
Qed.

Lemma readBytes_err count r e :
  readBytes count r = Err e ->
  e = UnexpectedEnd /\ data_length r < position r + count.
Proof.
  unfold readBytes. destruct (Z.gtb_spec (position r + count) (data_length r)); [|done].
  intros [= <-]. split; [reflexivity|lia].
Qed.

Lemma int20_nonneg a b c :
  0 <= Z.lor (Z.lor (Z.shiftl (byte_to_Z a) 16) (Z.shiftl (byte_to_Z b) 8))
         (byte_to_Z c).
Proof.
  pose proof (byte_to_Z_range a). pose proof (byte_to_Z_range b).
  pose proof (byte_to_Z_range c).
  apply Z.lor_nonneg; split; [|lia].
  apply Z.lor_nonneg; split; apply Z.shiftl_nonneg; lia.
Qed.

Lemma readInt20_ok r n r' :
  readInt20 r = Ok (n, r') ->
  position r + 3 <= data_length r /\ 0 <= n
  /\ position r' = position r + 3 /\ follows r r'.
Proof.
  unfold readInt20. destruct (readBytes 3 r) as [[bytes r1]|] eqn:E; [|done].
  simpl. intros [= <- <-]. apply readBytes_ok in E; [|lia].
  split; [tauto|]. split; [apply int20_nonneg|tauto].
Qed.

Lemma readInt20_err r e :
  readInt20 r = Err e -> e = UnexpectedEnd /\ data_length r < position r + 3.
Proof.
  unfold readInt20. destruct (readBytes 3 r) as [[bytes r1]|] eqn:E; [done|].
  simpl. intros [= <-]. by apply readBytes_err in E.
Qed.

(** *** Decoding moves forward *)

Ltac case_if H :=
  match type of H with
  | context [if ?c then _ else _] => destruct c eqn:?
  end.

Ltac case_if_goal :=
  match goal with
  | |- context [if ?c then _ else _] => destruct c eqn:?
  end.

(** Runs the next primitive read in [H : ... = Some (Ok _)]. *)
Ltac read_step H :=
  match type of H with
  | context [readByte ?r] =>
      let E := fresh "E" in
      destruct (readByte r) as [[? ?]|?] eqn:E; simpl in H;
      [apply readByte_ok in E; destruct E as (? & ? & ? & ? & ?)
      | try discriminate H]
  | context [readInt20 ?r] =>
      let E := fresh "E" in
      destruct (readInt20 r) as [[? ?]|?] eqn:E; simpl in H;
      [apply readInt20_ok in E; destruct E as (? & ? & ? & ?)
      | try discriminate H]
  | context [readBytes ?c ?r] =>
      let E := fresh "E" in
      destruct (readBytes c r) as [[? ?]|?] eqn:E; simpl in H;
      [apply readBytes_ok in E; [destruct E as (? & ? & ? & ?)|lia]
      | try discriminate H]
  end.

Ltac chain :=
  repeat match goal with
  | H1 : follows ?a ?b, H2 : follows ?b ?c |- _ =>
      lazymatch goal with
      | _ : follows a c |- _ => fail
      | _ => pose proof (follows_trans _ _ _ H1 H2)
      end
  end.

Section Advances.
Variable toPropertyKey : Value -> option string.
Variable rec : Action Value.
Hypothesis rec_advances : advances rec.

Lemma readArrayItems_advances n : forall acc, advances (readArrayItems rec n acc).
Proof.
  induction n as [|n IH]; intros acc r a r' H; simpl in H; unfold done in H.
  - injection H as <- <-. apply follows_refl.
  - destruct (rec r) as [[[item r1]|?]|] eqn:E; simpl in H; try discriminate H.
    apply rec_advances in E. apply IH in H. by eapply follows_trans.
Qed.

Lemma readAttributes_advances n :
  forall obj, advances (readAttributes toPropertyKey rec n obj).
Proof.
  induction n as [|n IH]; intros obj r a r' H; simpl in H; unfold done, throw in H.
  - injection H as <- <-. apply follows_refl.
  - destruct (rec r) as [[[key r1]|?]|] eqn:E; simpl in H; try discriminate H.
    destruct (rec r1) as [[[value r2]|?]|] eqn:E1; simpl in H; try discriminate H.
    destruct (toPropertyKey key); [|discriminate H].
    apply rec_advances in E, E1. apply IH in H.
    eapply follows_trans; [|exact H]. by eapply follows_trans.
Qed.

(** One call of [_readNode] consumes at least its marker and stays
    inside the buffer. *)
Lemma readNode_body_advances r v r' :
  readNode_body toPropertyKey rec r = Some (Ok (v, r')) ->
  follows r r' /\ position r < position r' <= data_length r.
Proof.
  intros H. unfold readNode_body, done, throw in H.
  read_step H.
  repeat case_if H; try discriminate H;
    try (repeat read_step H; simplify_eq; chain; unfold follows in *;
         split; [tauto|lia]).
  - unfold _readArray, done in H. read_step H.
    destruct (readArrayItems _ _ _ _) as [[[? ?]|?]|] eqn:EA; simplify_eq/=.
    apply readArrayItems_advances in EA. chain. unfold follows in *.
    split; [tauto|lia].
  - unfold _readObject, done in H.
    destruct (rec _) as [[[tag r2]|?]|] eqn:Etag; simpl in H; try discriminate H.
    read_step H.
    destruct (readAttributes _ _ _ _ _) as [[[obj r4]|?]|] eqn:EA;
      simpl in H; try discriminate H.
    destruct (rec r4) as [[[content r5]|?]|] eqn:Econtent;
      simpl in H; try discriminate H.
    simplify_eq.
    apply rec_advances in Etag, Econtent.
    apply readAttributes_advances in EA. chain. unfold follows in *.
    split; [tauto|lia].
Qed.

End Advances.

Lemma readNode_advances k fuel r v r' :
  _readNode k fuel r = Some (Ok (v, r')) ->
  follows r r' /\ position r < position r' <= data_length r.
Proof.
  revert r v r'. induction fuel as [|fuel IH]; intros r v r' H; [done|].
  simpl in H. apply readNode_body_advances in H; [done|].
  intros r0 a r0' H0. by destruct (IH _ _ _ H0).
Qed.

(** *** The step budget of [decode] is never exhausted *)

Section Defined.
Variable toPropertyKey : Value -> option string.
Variable rec : Action Value.
Variable d : list byte.
Variable bound : Z.
Hypothesis rec_advances : advances rec.
Hypothesis rec_defined :
  forall r, data r = d -> bound <= position r <= data_length r -> rec r <> None.

Lemma readArrayItems_defined n : forall acc r,
  data r = d -> bound <= position r <= data_length r ->
  readArrayItems rec n acc r <> None.
Proof.
  induction n as [|n IH]; intros acc r Hd Hp; simpl; [done|].
  destruct (rec r) as [[[v r1]|e]|] eqn:E; simpl; [|done|by apply rec_defined in E].
  apply rec_advances in E. unfold follows in E.
  apply IH; [intuition congruence|lia].
Qed.

Lemma readAttributes_defined n : forall obj r,
  data r = d -> bound <= position r <= data_length r ->
  readAttributes toPropertyKey rec n obj r <> None.
Proof.
  induction n as [|n IH]; intros obj r Hd Hp; simpl; [done|].
  destruct (rec r) as [[[key r1]|e]|] eqn:E; simpl; [|done|by apply rec_defined in E].
  apply rec_advances in E. unfold follows in E.
  destruct (rec r1) as [[[v r2]|e]|] eqn:E1; simpl;
    [|done|apply rec_defined in E1; [done|intuition congruence|lia]].
  apply rec_advances in E1. unfold follows in E1.
  destruct (toPropertyKey key); [|done]. apply IH; [intuition congruence|lia].
Qed.

Lemma readNode_body_defined r :
  data r = d -> bound - 1 <= position r ->
  readNode_body toPropertyKey rec r <> None.
Proof.
  intros Hd Hp. unfold readNode_body, _readArray, _readObject, done, throw.
  destruct (readByte r) as [[marker r1]|e] eqn:E; simpl; [|done].
  apply readByte_ok in E as (? & ? & ? & ? & F1). unfold follows in F1.
  repeat case_if_goal; try done.
  - destruct (readByte r1) as [[? ?]|?]; done.
  - destruct (readByte r1) as [[len r2]|?] eqn:E1; simpl; [|done].
    apply readByte_ok in E1 as (? & ? & ? & ? & F2). unfold follows in F2.
    pose proof (readArrayItems_defined (Z.to_nat len) [] r2) as Hitems.
    destruct (readArrayItems _ _ _ _) as [[[? ?]|?]|]; simpl; try done.
    exfalso; apply Hitems; [intuition congruence|lia|done].
  - destruct (readByte r1) as [[? ?]|?]; simpl; [|done].
    destruct (readBytes _ _) as [[? ?]|?]; done.
  - destruct (readInt20 r1) as [[? ?]|?]; simpl; [|done].
    destruct (readBytes _ _) as [[? ?]|?]; done.
  - destruct (readInt20 r1) as [[? ?]|?]; simpl; [|done].
    destruct (readBytes _ _) as [[? ?]|?]; done.
  - destruct (rec r1) as [[[tag r2]|?]|] eqn:E1; simpl;
      [|done|apply rec_defined in E1; [done|intuition congruence|lia]].
    apply rec_advances in E1. unfold follows in E1.
    destruct (readByte r2) as [[count r3]|?] eqn:E2; simpl; [|done].
    apply readByte_ok in E2 as (? & ? & ? & ? & F3). unfold follows in F3.
    pose proof (readAttributes_defined (Z.to_nat count)
                  (if truthy tag then [("tag", tag)] else []) r3) as Hattrs.
    destruct (readAttributes _ _ _ _ _) as [[[obj r4]|?]|] eqn:E3; simpl;
      [|done|exfalso; apply Hattrs; [intuition congruence|lia|done]].
    apply (readAttributes_advances toPropertyKey rec rec_advances) in E3.
    unfold follows in E3.
    destruct (rec r4) as [[[? ?]|?]|] eqn:E4; simpl;
      [done|done|apply rec_defined in E4; [done|intuition congruence|lia]].
Qed.

End Defined.

Lemma readNode_fuel_enough k fuel r :
  position r <= data_length r ->
  data_length r - position r < Z.of_nat fuel -> _readNode k fuel r <> None.
Proof.
  revert r. induction fuel as [|fuel IH]; intros r Hpos Hfuel; [lia|].
  simpl. apply (readNode_body_defined k (_readNode k fuel) (data r)
                  (data_length r - Z.of_nat fuel + 1)); [| |done|lia].
  - intros r0 a r' H. by apply readNode_advances in H as [? ?].
  - intros r' Hd Hp. unfold data_length in *. rewrite Hd in Hp. apply IH; rewrite Hd; lia.
Qed.

(** *** More budget changes nothing *)

Section Refines.
Variable toPropertyKey : Value -> option string.
Variables rec rec' : Action Value.
Hypothesis rec_refines : refines rec rec'.

Lemma readArrayItems_refines n : forall acc,
  refines (readArrayItems rec n acc) (readArrayItems rec' n acc).
Proof.
  induction n as [|n IH]; intros acc r x H; simpl in *; [done|].
  destruct (rec r) as [[[v r1]|e]|] eqn:E; simpl in H; [|
    by rewrite (rec_refines _ _ E)|done].
  rewrite (rec_refines _ _ E). simpl. by apply IH.
Qed.

Lemma readAttributes_refines n : forall obj,
  refines (readAttributes toPropertyKey rec n obj)
          (readAttributes toPropertyKey rec' n obj).
Proof.
  induction n as [|n IH]; intros obj r x H; simpl in *; [done|].
  destruct (rec r) as [[[key r1]|e]|] eqn:E; simpl in H; [|
    by rewrite (rec_refines _ _ E)|done].
  rewrite (rec_refines _ _ E). simpl.
  destruct (rec r1) as [[[v r2]|e]|] eqn:E1; simpl in H; [|
    by rewrite (rec_refines _ _ E1)|done].
  rewrite (rec_refines _ _ E1). simpl.
  destruct (toPropertyKey key); [by apply IH|done].
Qed.

Lemma readNode_body_refines :
  refines (readNode_body toPropertyKey rec) (readNode_body toPropertyKey rec').
Proof.
  intros r x H. unfold readNode_body, _readArray, _readObject in *.
  destruct (readByte r) as [[marker r1]|e]; simpl in *; [|done].
  repeat case_if H; try done.
  - destruct (readByte r1) as [[len r2]|?]; simpl in *; [|done].
    destruct (readArrayItems rec _ _ _) as [[[? ?]|?]|] eqn:E; simpl in H; [| |done];
      by rewrite (readArrayItems_refines _ _ _ _ E).
  - destruct (rec r1) as [[[tag r2]|?]|] eqn:E; simpl in H; [|
      by rewrite (rec_refines _ _ E)|done].
    rewrite (rec_refines _ _ E). simpl.
    destruct (readByte r2) as [[count r3]|?]; simpl in *; [|done].
    destruct (readAttributes _ rec _ _ _) as [[[obj r4]|?]|] eqn:E1; simpl in H; [|
      by rewrite (readAttributes_refines _ _ _ _ E1)|done].
    rewrite (readAttributes_refines _ _ _ _ E1). simpl.
    destruct (rec r4) as [[[? ?]|?]|] eqn:E2; simpl in H; [| |done];
      by rewrite (rec_refines _ _ E2).
Qed.

End Refines.

Lemma readNode_fuel_mono k fuel fuel' :
  (fuel <= fuel')%nat -> refines (_readNode k fuel) (_readNode k fuel').
Proof.
  revert fuel'. induction fuel as [|fuel IH]; intros fuel' Hle r x H; [done|].
  destruct fuel' as [|fuel']; [lia|]. simpl in *.
  eapply readNode_body_refines; [|exact H]. apply IH. lia.
Qed.

(** *** Truncated input *)








Lemma cut_safe_ext {A} n (f g : Action A) :
  (forall r, f r = g r) -> cut_safe n f -> cut_safe n g.
Proof.
  intros Hfg [Hadv Hcut]. split.
  - intros r a r' H. rewrite <- Hfg in H. by eapply Hadv.
  - intros r a r' Hr H. rewrite <- !Hfg in *. by apply Hcut.
Qed.




Section Cut.
Variable toPropertyKey : Value -> option string.
Variable rec : Action Value.
Variable n : nat.
Hypothesis rec_cut : cut_safe n rec.







End Cut.


Lemma decode_returns k d :
  exists res, _readNode k (decode_fuel d) (newReader d) = Some res.
Proof.
  destruct (_readNode k (decode_fuel d) (newReader d)) as [res|] eqn:E; [by exists res|].
  apply readNode_fuel_enough in E; [done| |];
    unfold decode_fuel, data_length, newReader; simpl; lia.
Qed.




(** *** Objects do not survive the round trip *)

(** Storing a byte and reading it back. *)
Lemma byte_to_of_Z z : 0 <= z < 256 -> byte_to_Z (byte_of_Z z) = z.
Proof.
  intros Hz. unfold byte_to_Z, byte_of_Z.
  change 255 with (Z.ones 8). rewrite Z.land_ones by lia.
  rewrite Z.mod_small by (change (2 ^ 8) with 256; lia).
  destruct (Byte.of_N (Z.to_N z)) as [b|] eqn:E.
  - simpl. apply Byte.to_of_N in E. lia.
  - apply Byte.of_N_None_iff in E. lia.
Qed.

Lemma extends_refl w : extends w w.
Proof. split; [exists []; by rewrite app_nil_r|lia]. Qed.

Lemma extends_trans w1 w2 w3 : extends w1 w2 -> extends w2 w3 -> extends w1 w3.
Proof.
  intros [[e1 H1] L1] [[e2 H2] L2]. split; [|lia].
  exists (e1 ++ e2). by rewrite H2, H1, app_assoc.
Qed.

Lemma writeByte_extends b w : extends w (writeByte b w).
Proof. split; [by eexists|simpl; lia]. Qed.

Lemma writeBytes_extends bs w : extends w (writeBytes bs w).
Proof. split; [by eexists|simpl; lia]. Qed.

Lemma writeInt20_extends n w : extends w (writeInt20 n w).
Proof. apply writeBytes_extends. Qed.

Lemma writeString_extends s w : extends w (_writeString s w).
Proof.
  unfold _writeString. repeat case_match;
    eauto using extends_trans, writeByte_extends, writeBytes_extends, writeInt20_extends.
Qed.

Lemma writeNumber_extends n w : extends w (_writeNumber n w).
Proof.
  unfold _writeNumber. case_match;
    eauto using extends_trans, writeByte_extends, writeString_extends.
Qed.

Lemma writeBuffer_extends b w : extends w (_writeBytes b w).
Proof.
  unfold _writeBytes.
  eauto using extends_trans, writeByte_extends, writeBytes_extends, writeInt20_extends.
Qed.

(** Induction on a value and on the values inside it. *)
Lemma Value_nested_ind (P : Value -> Prop) :
  P VNull -> (forall s, P (VStr s)) -> (forall n, P (VNum n)) ->
  (forall b, P (VBuf b)) ->
  (forall items, Forall P items -> P (VArr items)) ->
  (forall props, Forall (fun kv => P kv.2) props -> P (VObj props)) ->
  forall v, P v.
Proof.
  intros HNull HStr HNum HBuf HArr HObj. fix IH 1.
  intros [ | s | n | b | items | props]; [done..| |].
  - apply HArr. induction items as [|v items IHitems]; constructor; [apply IH|done].
  - apply HObj. induction props as [|[k v] props IHprops]; constructor; [apply IH|done].
Qed.


Lemma write_items_extends l :
  Forall node_extends l ->
  forall w w', write_items _writeNode l w = Ok w' -> extends w w'.
Proof.
  induction 1 as [|v l Hv _ IH]; intros w w' H; simpl in H.
  - injection H as <-. apply extends_refl.
  - destruct (_writeNode v w) as [w1|] eqn:E; [|done]. simpl in H.
    eauto using extends_trans.
Qed.

Lemma write_tag_extends l : forall w w', write_tag l w = Ok w' -> extends w w'.
Proof.
  induction l as [|[k v] l IH]; intros w w' H; simpl in H.
  - injection H as <-. apply writeByte_extends.
  - repeat case_match; try done; try (by apply IH);
      injection H as <-; auto using writeByte_extends, writeString_extends.
Qed.

Lemma write_attributes_extends l :
  Forall (fun kv => node_extends kv.2) l ->
  forall w w', write_attributes _writeNode l w = Ok w' -> extends w w'.
Proof.
  induction 1 as [|[k v] l Hv _ IH]; intros w w' H; simpl in H.
  - injection H as <-. apply extends_refl.
  - destruct (is_attribute k); [|by apply IH].
    destruct (_writeNode v (_writeString k w)) as [w1|] eqn:E; [|done]. simpl in H.
    apply Hv in E. eauto using extends_trans, writeString_extends.
Qed.

Lemma write_children_extends l :
  Forall (fun kv => node_extends kv.2) l ->
  forall w w', write_children _writeNode l w = Ok w' -> extends w w'.
Proof.
  induction 1 as [|[k v] l Hv _ IH]; intros w w' H; simpl in H.
  - injection H as <-. apply writeByte_extends.
  - destruct (String.eqb k "children"); [|by apply IH].
    destruct v; try (injection H as <-; apply writeByte_extends).
    by apply Hv.
Qed.

Lemma write_content_extends obj l :
  Forall (fun kv => node_extends kv.2) obj ->
  Forall (fun kv => node_extends kv.2) l ->
  forall w w', write_content _writeNode obj l w = Ok w' -> extends w w'.
Proof.
  intros Hobj. induction 1 as [|[k v] l Hv _ IH]; intros w w' H; simpl in H.
  - by eapply write_children_extends.
  - destruct (String.eqb k "content"); [by apply Hv|by apply IH].
Qed.

(** Whatever [_writeNode] writes, it appends. *)
Lemma writeNode_extends v : node_extends v.
Proof.
  induction v as [ | s | n | b | items IH | props IH] using Value_nested_ind;
    intros w w' H; simpl in H.
  - injection H as <-. apply writeByte_extends.
  - injection H as <-. apply writeString_extends.
  - injection H as <-. apply writeNumber_extends.
  - injection H as <-. apply writeBuffer_extends.
  - unfold _writeArray in H. apply write_items_extends in H; [|done].
    eauto using extends_trans, writeByte_extends.
  - unfold _writeObject in H.
    destruct (write_tag props w) as [w1|] eqn:E1; [|done]. simpl in H.
    destruct (write_attributes _writeNode props _) as [w3|] eqn:E3; [|done].
    simpl in H.
    apply write_tag_extends in E1. apply write_attributes_extends in E3; [|done].
    apply write_content_extends in H; [|done..].
    eauto using extends_trans, writeByte_extends.
Qed.

Lemma starts_with_extends b w w' : starts_with b w -> extends w w' -> starts_with b w'.
Proof.
  intros [[rest H] L] [[ext E] L']. split; [|lia].
  exists (rest ++ concat ext). by rewrite E, concat_app, H.
Qed.

Lemma writeByte_starts z :
  0 <= z < 256 ->
  starts_with (byte_of_Z z) (writeByte z newWriter).
Proof.
  intros Hz. split; [|simpl; lia]. eexists. simpl.
  change 255 with (Z.ones 8). rewrite Z.land_ones by lia.
  rewrite Z.mod_small by (change (2 ^ 8) with 256; lia). reflexivity.
Qed.

Lemma indexOf_from_bound l str : forall i, indexOf_from l str i < i + Z.of_nat (length l) \/ indexOf_from l str i = -1.
Proof.
  induction l as [|x l IH]; intros i; simpl; [by right|].
  destruct x as [s|].
  - destruct (String.eqb s str); [left; lia|].
    destruct (IH (i + 1)); [left; lia|by right].
  - destruct (IH (i + 1)); [left; lia|by right].
Qed.

Lemma writeString_starts s :
  exists b, string_marker b /\ starts_with b (_writeString s newWriter).
Proof.
  unfold _writeString.
  destruct ((0 <? indexOf TOKENS s) && (indexOf TOKENS s <? 256)) eqn:Htok.
  - apply andb_true_iff in Htok as [H1 H2]. apply Z.ltb_lt in H1, H2. exists (byte_of_Z (indexOf TOKENS s)). split.
    + right; left. rewrite byte_to_of_Z by lia.
      destruct (indexOf_from_bound TOKENS s 0) as [H|H]; unfold indexOf in *; lia.
    + apply writeByte_starts. lia.
  - case_match.
    + exists (byte_of_Z 252). split; [right; right; left; reflexivity|].
      eapply starts_with_extends; [apply (writeByte_starts 252); lia|].
      eauto using extends_trans, writeByte_extends, writeBytes_extends.
    + exists (byte_of_Z 253). split; [right; right; right; reflexivity|].
      eapply starts_with_extends; [apply (writeByte_starts 253); lia|].
      eauto using extends_trans, writeInt20_extends, writeBytes_extends.
Qed.

Lemma write_tag_starts l : forall w,
  write_tag l newWriter = Ok w -> exists b, string_marker b /\ starts_with b w.
Proof.
  induction l as [|[k v] l IH]; intros w H; simpl in H.
  - injection H as <-. exists (byte_of_Z 0). split; [by left|].
    apply (writeByte_starts 0). lia.
  - destruct (String.eqb k "tag"); [|by apply IH].
    repeat case_match; try done; injection H as <-;
      try apply writeString_starts;
      (exists (byte_of_Z 0); split; [by left|apply (writeByte_starts 0); lia]).
Qed.

(** What [encode] gives for an object starts with the byte of its tag. *)
Lemma encode_object_starts obj bytes :
  encode (VObj obj) = Ok bytes ->
  exists b rest, string_marker b /\ bytes = b :: rest.
Proof.
  unfold encode. destruct (_writeNode (VObj obj) newWriter) as [w|] eqn:E; [|done].
  simpl. intros [= <-].
  pose proof (writeNode_extends _ _ _ E) as Hext.
  change (_writeObject _writeNode obj newWriter = Ok w) in E.
  unfold _writeObject in E.
  destruct (write_tag obj newWriter) as [w1|] eqn:E1; [|done]. simpl in E.
  destruct (write_tag_starts _ _ E1) as (b & Hb & Hs).
  assert (Hw : starts_with b w).
  { apply write_tag_extends in E1.
    destruct Hs as [[rest Hrest] Hlen], Hext as [_ Hlen'].
    destruct (write_attributes _writeNode obj _) as [w3|] eqn:E3; [|done]. simpl in E.
    apply write_attributes_extends in E3;
      [|apply Forall_forall; intros; apply writeNode_extends].
    apply write_content_extends in E;
      [|apply Forall_forall; intros; apply writeNode_extends..].
    eapply starts_with_extends; [split; [by eexists|exact Hlen]|].
    eauto using extends_trans, writeByte_extends. }
  destruct Hw as [[rest Hrest] Hlen].
  exists b. unfold toBuffer, Buffer_concat. rewrite Hrest.
  destruct (Z.to_nat (wlength w)) as [|n] eqn:En; [lia|].
  simpl. eexists. split; [done|reflexivity].
Qed.

(** On such a first byte [decode] returns [null] or a string, or throws. *)
Lemma decode_string_marker k b rest v :
  string_marker b -> decode k (b :: rest) = Ok v ->
  v = VNull \/ exists s, v = VStr s.
Proof.
  intros Hb. unfold decode, decode_fuel.
  change (_readNode k (S (length (b :: rest))) (newReader (b :: rest)))
    with (readNode_body k (_readNode k (length (b :: rest))) (newReader (b :: rest))).
  unfold readNode_body.
  change (readByte (newReader (b :: rest)))
    with (Ok (E:=CodecError) (byte_to_Z b, mkReader (b :: rest) 1)).
  unfold obind at 1. cbv beta iota.
  pose proof (byte_to_Z_range b) as Hr. unfold string_marker in Hb.
  revert Hb Hr. generalize (byte_to_Z b). intros m Hb Hr.
  destruct Hb as [Hb | [Hb | [Hb | Hb]]].
  - rewrite Hb. simpl. intros [= <-]. by left.
  - destruct (Z.eqb_spec m 0); [lia|].
    destruct (Z.leb_spec 1 m); [|lia].
    destruct (Z.ltb_spec m (Z.of_nat (length TOKENS))); [|lia]. simpl.
    intros [= <-]. unfold token_at. repeat case_match; eauto.
  - rewrite Hb. simpl. unfold obind, done.
    repeat case_match; intros; simplify_eq; eauto.
  - rewrite Hb. simpl. unfold obind, done.
    repeat case_match; intros; simplify_eq; eauto.
Qed.

(** C1.  No object node survives the round trip: [_writeObject] writes
    the tag, the attribute count, the attributes and the content, but no
    object marker in front, so whenever [encode] returns bytes for an
    object, [decode] reads their first byte as a token or as the marker of a
    string and returns [null] or a string (or throws), never the object.
    For the node of the specification's own scenario,
    [{tag: 'iq', type: 'get', id: '1', content: 'hello'}], it returns the
    string ['iq']. *)
Theorem object_node_round_trip_fails (toPropertyKey : Value -> option string) :
  (forall obj bytes, encode (VObj obj) = Ok bytes ->
     (forall v, decode toPropertyKey bytes = Ok v ->
        v = VNull \/ exists s, v = VStr s)
     /\ decode toPropertyKey bytes <> Ok (VObj obj))
  /\ encode iq_node
      = Ok [x03; x02; x0d; xfc; x03; x67; x65; x74; x0e; xfc; x01; x31;
            xfc; x05; x68; x65; x6c; x6c; x6f]
  /\ decode toPropertyKey
        [x03; x02; x0d; xfc; x03; x67; x65; x74; x0e; xfc; x01; x31;
         xfc; x05; x68; x65; x6c; x6c; x6f]
      = Ok (VStr "iq").
Proof.
  split; [|split; vm_compute; reflexivity].
  intros obj bytes H.
  destruct (encode_object_starts _ _ H) as (b & rest & Hb & ->).
  split; [intros v; by apply decode_string_marker|].
  intros Hd. apply decode_string_marker in Hd as [Hd | [s Hd]]; done.
Qed.

Lemma object_node_round_trip_fails_witness :
  decode string_keys
    [x03; x02; x0d; xfc; x03; x67; x65; x74; x0e; xfc; x01; x31;
     xfc; x05; x68; x65; x6c; x6c; x6f]
  <> Ok iq_node.
Proof.
  destruct (object_node_round_trip_fails string_keys) as [H _].
  apply (H _ _). vm_compute. reflexivity.
Defined.

(** The decoder does read objects: behind the marker 255, which
    [_writeNode] never writes, the same bytes give the node back. *)
Lemma object_marker_reads_scenario_node :
  decode string_keys marked_scenario = Ok iq_node.
Proof. vm_compute. reflexivity. Qed.

End BinaryFacts.

(** ** The cipher channel *)

Module UtilsFacts.
Import Utils.

Section Decrypt.
Variable hmac_sha256 : list byte -> list byte -> list byte.
Variable aes_cbc_decrypt : list byte -> list byte -> list byte -> Result CryptoError (list byte).

Lemma timingSafeEqual_spec a b :
  timingSafeEqual a b =
    if decide (length a = length b)
    then Ok (bool_decide (a = b)) else Err RangeError.
Proof.
  unfold timingSafeEqual.
  destruct (decide (length a = length b));
    [by rewrite bool_decide_true|by rewrite bool_decide_false].
Qed.

(** What [whatsappDecrypt] returns, by cases on the comparison of the two
    tags. *)
Lemma whatsappDecrypt_cases encKey macKey blob :
  whatsappDecrypt hmac_sha256 aes_cbc_decrypt encKey macKey blob =
    if decide (take 32 blob = hmac_sha256 macKey (drop 32 blob))
    then aesDecrypt aes_cbc_decrypt encKey (drop 32 blob)
    else if decide (length (take 32 blob)
                    = length (hmac_sha256 macKey (drop 32 blob)))
         then Err HmacVerificationFailed
         else Err RangeError.
Proof.
  unfold whatsappDecrypt, hmacSha256. rewrite timingSafeEqual_spec.
  repeat case_decide; simpl; congruence.
Qed.

End Decrypt.

(** C2.  [whatsappDecrypt] takes the first 32 bytes of the blob as the
    received tag, recomputes the HMAC of the remaining bytes under
    [macKey] and compares the two with [crypto.timingSafeEqual]; when they
    differ it throws, whatever the cipher would have made of the
    ciphertext (the outcome is the same for every cipher), and when it
    returns a plaintext the tags were equal and the plaintext is that of
    [aesDecrypt] on the remaining bytes. *)
Theorem whatsappDecrypt_verifies_before_decrypting
    (hmac_sha256 : list byte -> list byte -> list byte)
    (aes_cbc_decrypt : list byte -> list byte -> list byte -> Result CryptoError (list byte))
    (encKey macKey blob : list byte) :
  let receivedHmac := take 32 blob in
  let encryptedData := drop 32 blob in
  (receivedHmac <> hmac_sha256 macKey encryptedData ->
     exists e, (e = HmacVerificationFailed \/ e = RangeError)
       /\ forall cipher,
            whatsappDecrypt hmac_sha256 cipher encKey macKey blob = Err e)
  /\ (forall plaintext,
        whatsappDecrypt hmac_sha256 aes_cbc_decrypt encKey macKey blob = Ok plaintext ->
        receivedHmac = hmac_sha256 macKey encryptedData
        /\ aesDecrypt aes_cbc_decrypt encKey encryptedData = Ok plaintext)
  /\ (receivedHmac = hmac_sha256 macKey encryptedData ->
        whatsappDecrypt hmac_sha256 aes_cbc_decrypt encKey macKey blob
        = aesDecrypt aes_cbc_decrypt encKey encryptedData).
Proof.
  intros receivedHmac encryptedData. subst receivedHmac encryptedData.
  split; [|split].
  - intros Hne.
    destruct (decide (length (take 32 blob)
                      = length (hmac_sha256 macKey (drop 32 blob)))).
    + exists HmacVerificationFailed. split; [by left|]. intros cipher.
      rewrite whatsappDecrypt_cases. by rewrite decide_False, decide_True.
    + exists RangeError. split; [by right|]. intros cipher.
      rewrite whatsappDecrypt_cases. by rewrite !decide_False.
  - intros plaintext. rewrite whatsappDecrypt_cases.
    repeat case_decide; done.
  - intros Heq. rewrite whatsappDecrypt_cases. by rewrite decide_True.
Qed.

Lemma whatsappDecrypt_verifies_before_decrypting_witness :
  exists e, (e = HmacVerificationFailed \/ e = RangeError)
    /\ forall cipher,
         whatsappDecrypt toy_hmac cipher [x01] [x02] (replicate 40 x07) = Err e.
Proof.
  apply (proj1 (whatsappDecrypt_verifies_before_decrypting
                  toy_hmac toy_cipher [x01] [x02] (replicate 40 x07))).
  vm_compute. discriminate.
Defined.

End UtilsFacts.

(** ** The outbound queue *)

Module ProductionFacts.
Import Production.

Lemma count_settles_app p l1 l2 :
  count_settles p (l1 ++ l2) = (count_settles p l1 + count_settles p l2)%nat.
Proof. unfold count_settles. by rewrite filter_app, length_app. Qed.

Lemma count_settles_other p q error :
  q <> p -> count_settles p [Reject q error] = 0%nat.
Proof.
  intros Hq. unfold count_settles. rewrite filter_cons_False; [done|].
  simpl. by rewrite bool_decide_false.
Qed.

Lemma count_settles_other_resolve p q result :
  q <> p -> count_settles p [Resolve q result] = 0%nat.
Proof.
  intros Hq. unfold count_settles. rewrite filter_cons_False; [done|].
  simpl. by rewrite bool_decide_false.
Qed.

Lemma pending_step m c op :
  (forall o, op <> Settled o) -> pending m c ->
  pending m (step c op) /\ trace (step c op) = trace c.
Proof.
  intros Hop Hpending. pose proof Hpending as (Ha & Hact & Hq & Hn).
  destruct op as [f| |o| |b]; simpl.
  - unfold pending; simpl. repeat split; try done; [|lia].
    rewrite fmap_app, elem_of_app. simpl. intros [?|Hin]; [done|].
    apply list_elem_of_singleton in Hin. lia.
  - unfold _processMessageQueue. rewrite Hact. by simpl.
  - by destruct (Hop o).
  - unfold pending; simpl. repeat split; try done. apply not_elem_of_nil.
  - by unfold pending.
Qed.

Lemma pending_run m ops : forall c,
  Forall (fun op => forall o, op <> Settled o) ops -> pending m c ->
  pending m (run ops c) /\ trace (run ops c) = trace c.
Proof.
  induction ops as [|op ops IH]; intros c Hops Hp; [done|].
  inversion Hops as [|? ? Hop Hrest]; subst.
  destruct (pending_step m c op Hop Hp) as [Hp' Ht].
  destruct (IH (step c op) Hrest Hp') as [? ?]. split; [done|]. simpl.
  unfold run in *. congruence.
Qed.

Lemma orphan_step p c op :
  orphan p c ->
  orphan p (step c op)
  /\ count_settles p (trace (step c op)) = count_settles p (trace c).
Proof.
  intros Horphan. pose proof Horphan as (Hq & Ha & Hn).
  destruct op as [f| |o| |b]; simpl.
  - unfold orphan; simpl. repeat split; try done; [|lia].
    rewrite fmap_app, elem_of_app. simpl. intros [?|Hin]; [done|].
    apply list_elem_of_singleton in Hin. lia.
  - unfold _processMessageQueue.
    destruct (messagingActive c || bool_decide (messageQueue c = []) || negb (isReady c));
      [done|].
    destruct (messageQueue c) as [|item rest] eqn:E; [done|].
    unfold orphan; simpl. split.
    + split; [|split; [|done]].
      * intros Hin. apply Hq. rewrite fmap_cons. apply elem_of_cons. by right.
      * intros x [= <-] Hx. apply Hq. rewrite fmap_cons. apply elem_of_cons. by left.
    + by rewrite count_settles_app, Nat.add_0_r.
  - unfold _processMessageQueue_resume.
    destruct (awaiting c) as [dequeued|] eqn:E; [|done].
    unfold orphan. destruct o as [result|error]; simpl.
    + split; [done|]. rewrite count_settles_app, count_settles_other_resolve; [lia|].
      by apply Ha.
    + destruct (last (messageQueue c)) as [item|] eqn:El; simpl; [|done].
      split; [done|]. rewrite count_settles_app, count_settles_other; [lia|].
      intros Hp. apply Hq. apply last_Some_elem_of in El.
      apply list_elem_of_fmap. by exists item.
  - unfold orphan; simpl. repeat split; try done. apply not_elem_of_nil.
  - by unfold orphan.
Qed.

Lemma orphan_run p ops : forall c,
  orphan p c ->
  count_settles p (trace (run ops c)) = count_settles p (trace c).
Proof.
  induction ops as [|op ops IH]; intros c Ho; [done|].
  destruct (orphan_step p c op Ho) as [Ho' Hc]. simpl.
  unfold run in *. rewrite IH by done. exact Hc.
Qed.

(** C10.  A tick takes the message [m] off a ready queue and calls its
    function; if the function throws, whatever was enqueued in the
    meantime, the [catch] block rejects the promise of the entry that is
    last in the queue at that moment, if there is one (a promise other than
    that of [m]), and the callbacks of the promise [_queueMessage] returned
    for [m] are not invoked then nor at any later time. *)
Theorem thrown_error_goes_to_the_last_queued_message
    (c : Client) (m : QueuedMessage) (rest : list QueuedMessage)
    (during later : list Op) (error : Z) :
  messageQueue c = m :: rest ->
  messagingActive c = false -> isReady c = true -> awaiting c = None ->
  NoDup ((promise <$> m :: rest)) ->
  Forall (fun x => (promise x < next_promise c)%nat) (m :: rest) ->
  Forall (fun op => forall o, op <> Settled o) during ->
  let c1 := _processMessageQueue c in
  let c2 := run during c1 in
  let c3 := _processMessageQueue_resume (Err error) c2 in
  trace c1 = trace c ++ [Call (function m)]
  /\ messageQueue c1 = rest
  /\ trace c3 = trace c2 ++
       match last (messageQueue c2) with
       | Some item => [Reject (promise item) error]
       | None => []
       end
  /\ (forall item, last (messageQueue c2) = Some item -> promise item <> promise m)
  /\ count_settles (promise m) (trace (run later c3))
     = count_settles (promise m) (trace c).
Proof.
  intros Hq Hact Hready Haw Hnd Hlt Hduring c1 c2 c3.
  assert (Hc1 : c1 = log (Call (function m))
                       (mkClient rest true (isReady c) (maxMessageRetries c) (Some m)
                          (next_promise c) (trace c))).
  { subst c1. unfold _processMessageQueue. by rewrite Hact, Hready, Hq. }
  assert (Hp1 : pending m c1).
  { rewrite Hc1. unfold pending; simpl. repeat split; try done.
    - by inversion Hnd.
    - by inversion Hlt. }
  destruct (pending_run m during c1 Hduring Hp1) as [(Ha2 & Hact2 & Hq2 & Hn2) Ht2].
  fold c2 in Ha2, Hact2, Hq2, Hn2, Ht2.
  assert (Hlast : forall item, last (messageQueue c2) = Some item ->
                               promise item <> promise m).
  { intros item El Hp. apply Hq2. apply last_Some_elem_of in El.
    apply list_elem_of_fmap. by exists item. }
  assert (Ht3 : trace c3 = trace c2 ++
                  match last (messageQueue c2) with
                  | Some item => [Reject (promise item) error]
                  | None => []
                  end).
  { subst c3. unfold _processMessageQueue_resume. rewrite Ha2.
    destruct (last (messageQueue c2)); simpl; [done|by rewrite app_nil_r]. }
  assert (Ho3 : orphan (promise m) c3).
  { subst c3. unfold _processMessageQueue_resume. rewrite Ha2.
    unfold orphan. destruct (last (messageQueue c2)); simpl; done. }
  split; [by rewrite Hc1|]. split; [by rewrite Hc1|].
  split; [done|]. split; [done|].
  rewrite (orphan_run _ later c3 Ho3), Ht3, Ht2, Hc1. simpl.
  rewrite !count_settles_app. simpl.
  destruct (last (messageQueue c2)) as [item|] eqn:El.
  - rewrite count_settles_other by by apply Hlast. unfold count_settles. simpl. lia.
  - unfold count_settles. simpl. lia.
Qed.

Lemma thrown_error_goes_to_the_last_queued_message_witness :
  trace (_processMessageQueue_resume (Err 500) (_processMessageQueue two_queued))
  = [Call 7; Reject 1 500].
Proof.
  pose proof (thrown_error_goes_to_the_last_queued_message two_queued
                (mkQueued 7 0 0 3) [mkQueued 8 1 0 3] [] [] 500
                eq_refl eq_refl eq_refl eq_refl) as H.
  simpl in H.
  destruct H as (_ & _ & H & _).
  - simpl. apply NoDup_cons. split; [|apply NoDup_singleton].
    intros Hin%list_elem_of_singleton. discriminate.
  - repeat constructor.
  - constructor.
  - exact H.
Defined.

End ProductionFacts.

(** ** The connection manager *)

Module ManagerFacts.
Import Manager.

(** *** Back-off *)

Lemma exponentialDelay_mono (base : Q) (a b : Z) :
  (0 <= base)%Q -> a <= b ->
  (exponentialDelay base a <= exponentialDelay base b)%Q.
Proof.
  intros Hbase Hab. unfold exponentialDelay.
  apply Q.min_le_compat_r.
  rewrite !(Qmult_comm base). apply Qmult_le_compat_r; [|done].
  apply Qpower_le_compat_l; [lia|]. apply Qle_bool_imp_le. reflexivity.
Qed.

(** C5.  The delay [_calculateBackoffDelay] returns is
    [min(reconnectDelay * 2^(attempts-1), 30000)] plus the jitter
    [Math.random() * 1000]; for a draw [u] in [0, 1) the jitter is in
    [0, 1000), and for a non-negative base delay the first part never
    exceeds the cap and does not decrease when the attempt count grows. *)
Theorem backoff_delay_formula (w : World) :
  let u := math_random w (random_pos w) in
  let base := reconnectDelay w in
  let attempts := connectionAttempts w in
  (0 <= u)%Q -> (u < 1)%Q ->
  ((_calculateBackoffDelay w).1
     == Qmin (base * 2 ^ (attempts - 1)) 30000 + u * 1000)%Q
  /\ (0 <= u * 1000)%Q /\ (u * 1000 < 1000)%Q
  /\ (Qmin (base * 2 ^ (attempts - 1)) 30000 <= 30000)%Q
  /\ (forall more : Z,
        (0 <= base)%Q -> attempts <= more ->
        (Qmin (base * 2 ^ (attempts - 1)) 30000
           <= Qmin (base * 2 ^ (more - 1)) 30000)%Q).
Proof.
  intros u base attempts Hu0 Hu1. split; [reflexivity|].
  split; [|split; [|split]].
  - apply Qmult_le_0_compat; [done|apply Qle_bool_imp_le; reflexivity].
  - apply Qlt_le_trans with (1 * 1000)%Q;
      [apply Qmult_lt_compat_r; [reflexivity|done]
      |apply Qle_bool_imp_le; reflexivity].
  - apply Q.le_min_r.
  - intros more Hbase Hmore. by apply exponentialDelay_mono.
Qed.

Lemma backoff_delay_formula_witness :
  ((_calculateBackoffDelay fresh).1 == 1500)%Q.
Proof.
  destruct (backoff_delay_formula fresh) as [H _].
  - apply Qle_bool_imp_le. reflexivity.
  - reflexivity.
  - rewrite H. reflexivity.
Defined.

(** *** Key agreement *)

(** C3.  What the code does at the failing input: the value
    [_computeSharedSecret] returns is the next 32 bytes of
    [crypto.randomBytes], whatever the private key and the server's key
    are, and the public key of [_generateKeyPair] is 32 further random
    bytes, whatever the private key is: with the same private key and the
    same server key, two runs give different shared secrets and different
    public keys. *)
Theorem shared_secret_is_random_bytes :
  (forall w serverKey serverKey' privateKey',
     (_computeSharedSecret serverKey w).1
       = map (entropy w) (seq (entropy_pos w) 32)
     /\ (_computeSharedSecret serverKey' (set_privateKey privateKey' w)).1
        = (_computeSharedSecret serverKey w).1)
  /\ (forall w,
       (_generateKeyPair w).1.2 = map (entropy w) (seq (entropy_pos w + 32) 32))
  /\ (let key := Some (clamp (replicate 32 x40)) in
      let w1 := set_privateKey key (initial 0 (fun _ => x01) (fun _ => 0%Q)) in
      let w2 := set_privateKey key (initial 0 (fun _ => x02) (fun _ => 0%Q)) in
      let serverKey := replicate 32 x09 in
      privateKey w1 = privateKey w2
      /\ (_computeSharedSecret serverKey w1).1 = replicate 32 x01
      /\ (_computeSharedSecret serverKey w2).1 = replicate 32 x02)
  /\ (let w1 := initial 0 (fun i => if (i <? 32)%nat then x40 else x01) (fun _ => 0%Q) in
      let w2 := initial 0 (fun i => if (i <? 32)%nat then x40 else x02) (fun _ => 0%Q) in
      (_generateKeyPair w1).1.1 = (_generateKeyPair w2).1.1
      /\ (_generateKeyPair w1).1.2 = replicate 32 x01
      /\ (_generateKeyPair w2).1.2 = replicate 32 x02).
Proof.
  split; [|split; [|split]].
  - intros w serverKey serverKey' privateKey'. split; reflexivity.
  - intros w. reflexivity.
  - vm_compute. repeat split; reflexivity.
  - vm_compute. repeat split; reflexivity.
Qed.

(** Unfolding of the field updates and of the event-loop primitives. *)
Create HintDb world discriminated.
#[local] Hint Unfold
  set_ws set_isConnected set_isAuthenticated set_messageQueue
  set_keepAliveTimer set_reconnectTimer set_connectionAttempts set_autoReconnect
  set_lastActivity set_pingInterval set_pongTimeout set_connectionMonitor
  set_clientId set_serverRef set_privateKey set_publicKey
  set_encKey set_macKey set_connectionInfo set_messageSentCount
  set_serverIndex set_connectionState set_armed set_next_id
  set_trace set_now set_entropy_pos set_random_pos
  set_waiters
  log emit setTimer setTimeout setInterval clearTimer clear_handle
  randomBytes Math_random newPromise : world.

Ltac world_eq :=
  autounfold with world; simpl;
  rewrite ?app_nil_r, <- ?app_assoc; simpl; reflexivity.

(** *** Timers *)

(** [_clearKeepAlive] in one step: every handle cleared and forgotten. *)
Lemma clearKeepAlive_eq w :
  _clearKeepAlive w =
    set_reconnectTimer None (set_pongTimeout None
      (set_connectionMonitor None (set_pingInterval None
        (set_trace (trace w ++ map ClearTimer (handles w))
          (set_armed (disarm_all (handles w) (armed w)) w))))).
Proof.
  destruct w. unfold _clearKeepAlive, clear_handle, handles, disarm_all. simpl.
  repeat (case_match; simpl in * ); simplify_eq/=; world_eq.
Qed.

Lemma handleConnectionDead_eq w :
  _handleConnectionDead w =
    let closing :=
      match ws w with
      | Some _ => [WsRemoveAllListeners; WsTerminate]
      | None => []
      end in
    let w1 :=
      set_ws None (set_isConnected false (set_connectionState disconnected
        (set_reconnectTimer None (set_pongTimeout None
          (set_connectionMonitor None (set_pingInterval None
            (set_trace (trace w ++ closing ++ map ClearTimer (handles w)
                          ++ [Emit "connection_lost" NoArg])
              (set_armed (disarm_all (handles w) (armed w)) w)))))))) in
    if autoReconnect w then
      set_reconnectTimer (Some (next_id w))
        (set_trace (trace w1 ++ [SetTimer (reconnect_timer w)])
          (set_next_id (S (next_id w))
            (set_armed (armed w1 ++ [reconnect_timer w])
              (set_random_pos (S (random_pos w)) w1))))
    else w1.
Proof.
  unfold _handleConnectionDead. rewrite clearKeepAlive_eq.
  destruct w.
  unfold handles, disarm_all, _calculateBackoffDelay, reconnect_timer. simpl.
  repeat (case_match; simpl in * ); simplify_eq/=; world_eq.
Qed.

Lemma added_app w w' l : trace w' = trace w ++ l -> added w w' = l.
Proof. intros H. unfold added. rewrite H. by rewrite drop_app_length. Qed.

Lemma count_app f l1 l2 : count f (l1 ++ l2) = (count f l1 + count f l2)%nat.
Proof. unfold count. by rewrite filter_app, length_app. Qed.

Lemma count_clears f ids :
  (forall id, f (ClearTimer id) = false) -> count f (map ClearTimer ids) = 0%nat.
Proof.
  intros Hf. induction ids as [|id ids IH]; [done|].
  unfold count in *. simpl. rewrite filter_cons_False; [done|].
  by rewrite Hf.
Qed.


Lemma disarm_all_covers ids : forall l,
  map timer_id l ⊆ ids -> disarm_all ids l = [].
Proof.
  induction ids as [|id ids IH]; intros l Hl.
  - destruct l as [|t l]; [done|].
    exfalso. apply (not_elem_of_nil (timer_id t)), Hl. simpl. left.
  - simpl. apply IH. intros x Hx.
    apply list_elem_of_fmap in Hx as (t & -> & Ht).
    unfold disarm in Ht. apply list_elem_of_filter in Ht as [Hne Ht].
    assert (Hin : timer_id t ∈ id :: ids).
    { apply Hl, list_elem_of_fmap. by exists t. }
    apply elem_of_cons in Hin as [Heq | Hin]; [done|exact Hin].
Qed.



(** A probe that gets no pong: the deadline fires, ['connection_lost'] is
    emitted once, and the one timer armed afterwards is the reconnect
    timer; when that fires it starts the next attempt. *)
Lemma missed_pong_scenario :
  let w := fire 3 probed in
  map callback (armed probed) = [KeepAlivePing; MonitorHealth; PongDeadline]
  /\ w = _handleConnectionDead probed
  /\ count is_connection_lost (added probed w) = 1%nat
  /\ map callback (armed w) = [Reconnect]
  /\ connectionState w = disconnected
  /\ connectionState (fire 4 w) = connecting
  /\ connectionAttempts (fire 4 w) = 1.
Proof. vm_compute. repeat split; reflexivity. Qed.

(** *** Disconnecting *)

Lemma disconnect_eq w :
  disconnect w =
    set_messageSentCount 0 (set_connectionAttempts 0 (set_ws None
      (set_isAuthenticated false (set_isConnected false
        (set_reconnectTimer None (set_pongTimeout None
          (set_connectionMonitor None (set_pingInterval None
            (set_trace (trace w ++ map ClearTimer (handles w) ++ closing_effects w)
              (set_armed (disarm_all (handles w) (armed w))
                (set_connectionState disconnected
                  (set_autoReconnect false w)))))))))))).
Proof.
  unfold disconnect. rewrite clearKeepAlive_eq.
  destruct w.
  unfold handles, disarm_all, closing_effects, _sendMessage, socket_open, goodbye.
  simpl.
  repeat (case_match; simpl in * ); simplify_eq/=; world_eq.
Qed.

(** C7, as the code has it.  [disconnect()] turns auto-reconnect off,
    sets the state to Disconnected, clears the four timers the manager
    holds a handle of (probe interval, health monitor, pong deadline,
    reconnect), says goodbye on an open socket and closes it (terminates a
    socket that is not open), forgets the socket and resets the attempt and
    sent-message counters.  It invokes no callback of a pending request:
    the pending-request map is left as it was, and of the armed timers
    only the four above are disarmed, so that no timer remains armed when
    these were all. *)
Theorem disconnect_cleans_up (w : World) :
  let w' := disconnect w in
  autoReconnect w' = false /\ connectionState w' = disconnected
  /\ pingInterval w' = None /\ connectionMonitor w' = None
  /\ pongTimeout w' = None /\ reconnectTimer w' = None
  /\ ws w' = None /\ isConnected w' = false /\ isAuthenticated w' = false
  /\ connectionAttempts w' = 0 /\ messageSentCount w' = 0
  /\ trace w' = trace w ++ map ClearTimer (handles w) ++ closing_effects w
  /\ armed w' = disarm_all (handles w) (armed w)
  /\ (map timer_id (armed w) ⊆ handles w -> armed w' = [])
  /\ messageQueue w' = messageQueue w
  /\ count is_settle (added w w') = 0%nat.
Proof.
  intros w'. subst w'. rewrite disconnect_eq. split_and!; try reflexivity.
  - intros Hall. by apply disarm_all_covers.
  - rewrite (added_app _ _ (map ClearTimer (handles w) ++ closing_effects w))
      by reflexivity.
    rewrite count_app, count_clears by done.
    unfold closing_effects. by repeat case_match.
Qed.

Lemma disconnect_cleans_up_witness : armed (disconnect probed) = [].
Proof.
  apply (disconnect_cleans_up probed).
  change (([1; 2; 3]%nat : list nat) ⊆ [1; 2; 3]%nat). reflexivity.
Defined.

(** C7, as stated, fails: with two requests pending, [disconnect()]
    invokes no [reject], leaves both entries in the pending-request map,
    and leaves their two timeout timers armed. *)
Lemma disconnect_leaves_requests_pending :
  let w' := disconnect two_pending in
  map fst (map_to_list (messageQueue two_pending)) = ["1700000001"; "1700000000"]
  /\ map_to_list (messageQueue w') = map_to_list (messageQueue two_pending)
  /\ count is_settle (added two_pending w') = 0%nat
  /\ map callback (armed w')
     = [RequestTimeout "1700000000" 3 AuthInitTimeout;
        RequestTimeout "1700000001" 5 AuthInitTimeout].
Proof. vm_compute. repeat split; reflexivity. Qed.

(** *** The attempt counter *)

Lemma connected_listeners_keep l : forall w,
  connectionAttempts w = 0 ->
  connectionAttempts (foldl (fun w x => on_connected_listener x w) w l) = 0
  /\ connectionState (foldl (fun w x => on_connected_listener x w) w l)
     = connectionState w.
Proof.
  induction l as [|x l IH]; intros w Hw; [done|]. simpl.
  destruct (IH (on_connected_listener x w)) as [H1 H2].
  - unfold on_connected_listener. by repeat case_match.
  - split; [done|]. rewrite H2. unfold on_connected_listener.
    by repeat case_match.
Qed.

Lemma connect_catch_attempts b e w :
  connectionAttempts (connect_catch b e w) = connectionAttempts w.
Proof.
  unfold connect_catch, _calculateBackoffDelay. by repeat (case_match; simpl).
Qed.

Lemma error_listeners_keep e l : forall w,
  connectionAttempts (foldl (fun w x => on_error_listener e x w) w l)
  = connectionAttempts w.
Proof.
  induction l as [|x l IH]; intros w; [done|]. simpl. rewrite IH.
  unfold on_error_listener. repeat case_match; try done.
  by rewrite connect_catch_attempts.
Qed.

(** C6, as the code has it.  The attempt counter is set to zero by the
    socket-open handler, which leaves the state at Connected, and by
    [disconnect()]; a [connect()] that starts an attempt adds one to it (a
    [connect()] in state Connecting or Connected does nothing); the timeout
    and the failure of an attempt, a socket error and the dead-connection
    path leave it as it is. *)
Theorem attempt_counter (w : World) :
  (connectionAttempts (_handleOpen w) = 0
   /\ connectionState (_handleOpen w) = connected)
  /\ connectionAttempts (disconnect w) = 0
  /\ (forall reconnecting,
        connectionState w <> connecting -> connectionState w <> connected ->
        connectionAttempts (connect reconnecting w) = connectionAttempts w + 1)
  /\ (forall reconnecting,
        connectionState w = connecting \/ connectionState w = connected ->
        connect reconnecting w = w)
  /\ (forall id, connectionAttempts (connectTimeout id w) = connectionAttempts w)
  /\ (forall reconnecting error,
        connectionAttempts (connect_catch reconnecting error w)
        = connectionAttempts w)
  /\ (forall error, connectionAttempts (_handleError error w) = connectionAttempts w)
  /\ connectionAttempts (_handleConnectionDead w) = connectionAttempts w.
Proof.
  split; [|split; [|split; [|split; [|split; [|split; [|split]]]]]].
  - unfold _handleOpen, emit_connected, _startKeepAlive.
    rewrite clearKeepAlive_eq.
    match goal with
    | |- context [foldl _ ?w0 ?l] => destruct (connected_listeners_keep l w0) as [H1 H2]
    end; [reflexivity|].
    split; [exact H1|]. rewrite H2. reflexivity.
  - by rewrite disconnect_eq.
  - intros reconnecting H1 H2. destruct w. simpl in *.
    unfold connect, _getNextServer, setTimeout, setTimer. simpl.
    destruct connectionState0; try done; simpl; by repeat (case_match; simpl).
  - intros reconnecting H. destruct w. simpl in *. unfold connect. simpl.
    by destruct H as [-> | ->].
  - intros id. unfold connectTimeout.
    repeat (case_match; simpl); try done. by rewrite connect_catch_attempts.
  - intros. apply connect_catch_attempts.
  - intros error. unfold _handleError, emit_error. by rewrite error_listeners_keep.
  - by rewrite handleConnectionDead_eq; destruct (autoReconnect w).
Qed.

Lemma attempt_counter_witness :
  connectionAttempts (connect false fresh) = connectionAttempts fresh + 1.
Proof.
  apply (attempt_counter fresh); discriminate.
Defined.

(** C6, as stated, fails: the counter, at 1 after the first [connect()],
    is back at zero as soon as the socket opens, in state Connected and
    before any authentication; and a dead-connection event on a manager
    whose counter is 3 leaves it at 3. *)
Lemma attempt_counter_reset_on_open :
  connectionAttempts (connect false fresh) = 1
  /\ connectionAttempts opened = 0
  /\ connectionState opened = connected
  /\ isAuthenticated opened = false
  /\ connectionAttempts (_handleConnectionDead (set_connectionAttempts 3 opened)) = 3.
Proof. vm_compute. repeat split; reflexivity. Qed.

End ManagerFacts.

(** ** The request correlator *)

Module CorrelatorFacts.
Import Manager ManagerFacts.

Lemma quiet_refl w : quiet w w.
Proof. split; [done|]. exists []. by rewrite app_nil_r. Qed.

Lemma quiet_trans w1 w2 w3 : quiet w1 w2 -> quiet w2 w3 -> quiet w1 w3.
Proof.
  intros [Hq1 (l1 & Ht1 & Hc1)] [Hq2 (l2 & Ht2 & Hc2)]. split; [congruence|].
  exists (l1 ++ l2). rewrite Ht2, Ht1, <- app_assoc. split; [done|].
  rewrite count_app. lia.
Qed.

Lemma quiet_same w w' :
  messageQueue w' = messageQueue w -> trace w' = trace w -> quiet w w'.
Proof. intros Hq Ht. split; [done|]. exists []. by rewrite app_nil_r. Qed.

Lemma quiet_added w w' l :
  messageQueue w' = messageQueue w -> trace w' = trace w ++ l ->
  count is_settle l = 0%nat -> quiet w w'.
Proof. intros Hq Ht Hc. split; [done|]. by exists l. Qed.

Lemma quiet_clearKeepAlive w : quiet w (_clearKeepAlive w).
Proof.
  rewrite clearKeepAlive_eq.
  apply (quiet_added _ _ (map ClearTimer (handles w))); [done..|].
  by apply count_clears.
Qed.

Lemma quiet_startKeepAlive w : quiet w (_startKeepAlive w).
Proof.
  eapply quiet_trans; [apply quiet_clearKeepAlive|].
  unfold _startKeepAlive. generalize (_clearKeepAlive w). clear w. intros w.
  eapply (quiet_added _ _ [_; _]); [reflexivity|..].
  - unfold setInterval, setTimer, log. simpl. by rewrite <- app_assoc.
  - reflexivity.
Qed.

Lemma quiet_log e w : is_settle e = false -> quiet w (log e w).
Proof.
  intros He. apply (quiet_added _ _ [e]); [done..|].
  unfold count. rewrite filter_cons_False; [done|]. by rewrite He.
Qed.

Lemma count_le f g l :
  (forall e, f e = true -> g e = true) -> (count f l <= count g l)%nat.
Proof.
  intros Hfg. unfold count. induction l as [|e l IH]; [done|].
  destruct (f e) eqn:Ef.
  - rewrite !filter_cons_True by auto. simpl. lia.
  - rewrite (filter_cons_False (fun e => f e = true)) by congruence.
    destruct (g e) eqn:Eg.
    + rewrite filter_cons_True by done. simpl. lia.
    + by rewrite filter_cons_False by congruence.
Qed.

Lemma settles_of_is_settle p e : settles_of p e = true -> is_settle e = true.
Proof. by destruct e. Qed.

Lemma one_settle_count item l : one_settle item l -> (count is_settle l <= 1)%nat.
Proof.
  intros (pre & mid & post & -> & Hpre & Hpost & Hmid).
  rewrite !count_app, Hpre, Hpost.
  destruct Hmid as [->|[(p & v & _ & ->)|(p & e & _ & ->)]]; by compute; lia.
Qed.


Lemma one_settle_other item l p :
  one_settle item l -> resolve item <> Some p -> reject item <> Some p ->
  count (settles_of p) l = 0%nat.
Proof.
  intros (pre & mid & post & -> & Hpre & Hpost & Hmid) Hr Hj.
  pose proof (count_le (settles_of p) is_settle pre (settles_of_is_settle p)).
  pose proof (count_le (settles_of p) is_settle post (settles_of_is_settle p)).
  rewrite !count_app.
  assert (count (settles_of p) mid = 0%nat); [|lia].
  destruct Hmid as [->|[(q & v & Hq & ->)|(q & e & Hq & ->)]]; [done|..];
    unfold count; rewrite filter_cons_False; try done;
    simpl; rewrite bool_decide_false; congruence.
Qed.


Lemma call_reject_shape item error w :
  messageQueue (call_reject item error w) = messageQueue w
  /\ exists l, trace (call_reject item error w) = trace w ++ l /\ one_settle item l.
Proof.
  unfold call_reject. destruct (reject item) as [p|] eqn:E; simpl.
  - split; [done|]. exists [Reject p error]. split; [done|].
    exists [], [Reject p error], []. repeat split; try done. right. right. eauto.
  - split; [done|]. exists []. split; [by rewrite app_nil_r|].
    exists [], [], []. repeat split; try done. by left.
Qed.

Section Inbound.

Variable JSON_parse : string -> option Json.
Variable Buffer_from_base64 : option Json -> Result JsError (list byte).
Variable base64 : list byte -> string.
Variable hmac_sha256 : list byte -> list byte -> list byte.
Variable aes_cbc_encrypt : list byte -> list byte -> list byte -> Result Utils.CryptoError (list byte).
Variable aes_cbc_decrypt : list byte -> list byte -> list byte -> Result Utils.CryptoError (list byte).
Variable createDecipherGCM : list byte -> list byte -> list byte -> Result JsError (list byte).
Variable toPropertyKey : Binary.Value -> option string.

Local Abbreviation handleConnectionInfo :=
  (_handleConnectionInfo Buffer_from_base64 hmac_sha256 createDecipherGCM).
Local Abbreviation handleChallenge :=
  (_handleChallenge Buffer_from_base64 base64 hmac_sha256 aes_cbc_encrypt).
Local Abbreviation handleJsonMessage :=
  (_handleJsonMessage Buffer_from_base64 base64 hmac_sha256 aes_cbc_encrypt
     createDecipherGCM).
Local Abbreviation handleTextMessage :=
  (_handleTextMessage JSON_parse Buffer_from_base64 base64 hmac_sha256
     aes_cbc_encrypt createDecipherGCM).
Local Abbreviation handleBinaryMessage :=
  (_handleBinaryMessage hmac_sha256 aes_cbc_decrypt toPropertyKey).
Local Abbreviation handleMessage :=
  (_handleMessage JSON_parse Buffer_from_base64 base64 hmac_sha256
     aes_cbc_encrypt aes_cbc_decrypt createDecipherGCM toPropertyKey).

Lemma quiet_connectionInfo_try connData w :
  quiet w (connectionInfo_try Buffer_from_base64 hmac_sha256 createDecipherGCM
             connData w).1.
Proof.
  unfold connectionInfo_try, _computeSharedSecret, randomBytes. cbv zeta.
  destruct (prop connData "clientToken"); [|apply quiet_refl].
  destruct (Buffer_from_base64 _); [|apply quiet_same; reflexivity].
  destruct (negb (bool_decide _)); [apply quiet_same; reflexivity|].
  destruct (_aesDecrypt _ _ _); [|apply quiet_same; reflexivity].
  eapply quiet_trans; [|apply quiet_startKeepAlive]. apply quiet_same; reflexivity.
Qed.

Lemma quiet_handleConnectionInfo connData w :
  quiet w (handleConnectionInfo connData w).
Proof.
  unfold _handleConnectionInfo.
  pose proof (quiet_connectionInfo_try connData w) as H.
  destruct (connectionInfo_try _ _ _ _ _) as [w' [c|e]]; simpl in H;
    (eapply quiet_trans; [exact H|]); by apply quiet_log.
Qed.

Lemma quiet_sendMessage tag payload w w' :
  _sendMessage tag payload w = Ok w' -> quiet w w'.
Proof.
  unfold _sendMessage. case_match; [|done]. intros [= <-]. by apply quiet_log.
Qed.

Lemma quiet_handleChallenge challenge w : quiet w (handleChallenge challenge w).
Proof.
  unfold _handleChallenge, randomBytes. cbv zeta.
  destruct (Buffer_from_base64 challenge); [|apply quiet_refl].
  destruct (encKey _); [|apply quiet_same; reflexivity].
  destruct (macKey _); [|apply quiet_same; reflexivity].
  destruct (Utils.whatsappEncrypt _ _ _ _ _ _); [|apply quiet_same; reflexivity].
  destruct (_sendMessage _ _ _) as [w'|] eqn:E; [|apply quiet_same; reflexivity].
  apply quiet_sendMessage in E.
  eapply quiet_trans; [|exact E]. apply quiet_same; reflexivity.
Qed.

Lemma quiet_handleCommand cmdData w w' :
  _handleCommand Buffer_from_base64 base64 hmac_sha256 aes_cbc_encrypt cmdData w
    = Ok w' -> quiet w w'.
Proof.
  unfold _handleCommand.
  destruct (prop cmdData "type") as [type|]; simpl; [|done].
  destruct (prop cmdData "challenge") as [challenge|]; simpl;
    repeat case_match; try done; intros [= <-];
    first [apply quiet_refl|apply quiet_handleChallenge].
Qed.

Lemma quiet_handleJsonMessage jsonData w w' :
  handleJsonMessage jsonData w = Ok w' -> quiet w w'.
Proof.
  unfold _handleJsonMessage. intros H.
  assert (Hemit : forall w0, quiet w w0 ->
            quiet w (emit "json_message" (JsonArg jsonData) w0)).
  { intros w0 H0. eapply quiet_trans; [exact H0|]. by apply quiet_log. }
  destruct jsonData as [| | | |items|];
    try (injection H as <-; apply Hemit, quiet_refl).
  destruct items as [|[| | |command| |] args];
    try (injection H as <-; apply Hemit, quiet_refl).
  destruct (String.eqb command "Conn");
    [injection H as <-; apply Hemit, quiet_handleConnectionInfo|].
  destruct (String.eqb command "Stream");
    [injection H as <-; apply Hemit, quiet_refl|].
  destruct (String.eqb command "Props");
    [injection H as <-; apply Hemit, quiet_refl|].
  destruct (String.eqb command "Cmd");
    [|injection H as <-; apply Hemit, quiet_refl].
  destruct (_handleCommand _ _ _ _ _ _) as [w0|] eqn:E; simpl in H; [|done].
  injection H as <-. apply Hemit. by eapply quiet_handleCommand.
Qed.

Lemma quiet_handleBinaryMessage d w : quiet w (handleBinaryMessage d w).
Proof.
  unfold _handleBinaryMessage.
  destruct (negb (isAuthenticated w)); [apply quiet_refl|].
  destruct (split_at_comma d []) as [[tagBytes messageContent]|]; [|apply quiet_refl].
  destruct (encKey w); [|apply quiet_refl].
  destruct (macKey w); [|apply quiet_refl].
  destruct (Utils.whatsappDecrypt _ _ _ _ _); [|apply quiet_refl].
  destruct (Binary.decode _ _); [|apply quiet_refl].
  by apply quiet_log.
Qed.

(** A text message whose tag is not pending invokes no callback. *)
Lemma quiet_handleTextMessage message w :
  messageQueue w !! tag_of message = None ->
  quiet w (handleTextMessage message w).
Proof.
  unfold _handleTextMessage. fold (tag_of message). intros ->.
  destruct (_ ≫= JSON_parse) as [jsonData|]; [|apply quiet_refl].
  destruct (_handleJsonMessage _ _ _ _ _ _ _) eqn:E; [|apply quiet_refl].
  by eapply quiet_handleJsonMessage.
Qed.

Lemma handleLoginResponse_shape response item w :
  messageQueue (_handleLoginResponse response item w) = messageQueue w
  /\ exists l, trace (_handleLoginResponse response item w) = trace w ++ l
       /\ one_settle item l.
Proof.
  unfold _handleLoginResponse.
  destruct (prop (Some response) "status") as [status|]; [|apply call_reject_shape].
  destruct (is_200 status); [|apply call_reject_shape].
  unfold _generateKeyPair, randomBytes, call_resolve. cbv zeta. simpl.
  destruct (resolve item) as [p|] eqn:E; simpl.
  - split; [done|]. eexists [_; _]. split; [by rewrite <- app_assoc|].
    eexists [], [Resolve p _], [Emit "qr" _]. repeat split; try done.
    right. left. eauto.
  - split; [done|]. eexists [_]. split; [done|].
    eexists [], [], [Emit "qr" _]. repeat split; try done. by left.
Qed.

Lemma handleSessionResponse_shape response item w :
  messageQueue (_handleSessionResponse response item w) = messageQueue w
  /\ exists l, trace (_handleSessionResponse response item w) = trace w ++ l
       /\ one_settle item l.
Proof.
  unfold _handleSessionResponse.
  destruct (prop (Some response) "status") as [status|]; [|apply call_reject_shape].
  destruct (is_200 status); [|apply call_reject_shape].
  unfold call_resolve. simpl.
  destruct (resolve item) as [p|] eqn:E; simpl.
  - split; [done|]. eexists [_; _]. split; [by rewrite <- app_assoc|].
    eexists [Emit "authenticated" NoArg], [Resolve p _], []. repeat split; try done.
    right. left. eauto.
  - split; [done|]. eexists [_]. split; [done|].
    exists [Emit "authenticated" NoArg], [], []. repeat split; try done. by left.
Qed.

(** A text message whose tag is pending: the entry is removed, and at
    most one callback is invoked, one of the entry. *)
Lemma handleTextMessage_pending message item w :
  messageQueue w !! tag_of message = Some item ->
  messageQueue (handleTextMessage message w)
    = delete (tag_of message) (messageQueue w)
  /\ exists l, trace (handleTextMessage message w) = trace w ++ l
       /\ one_settle item l.
Proof.
  intros Hitem. unfold _handleTextMessage. fold (tag_of message).
  rewrite Hitem. unfold _handleQueuedMessage. rewrite Hitem.
  set (w0 := set_messageQueue (delete (tag_of message) (messageQueue w)) w).
  change (delete (tag_of message) (messageQueue w)) with (messageQueue w0).
  change (trace w) with (trace w0).
  destruct (_ ≫= JSON_parse) as [response|]; [|apply call_reject_shape].
  destruct (String.eqb (desc item) "_login"); [apply handleLoginResponse_shape|].
  destruct (String.eqb (desc item) "_restoresession");
    [apply handleSessionResponse_shape|].
  split; [done|]. exists []. split; [by rewrite app_nil_r|].
  exists [], [], []. repeat split; try done. by left.
Qed.



Lemma handleMessage_holds frame w p :
  ~ holds p w ->
  ~ holds p (handleMessage frame w)
  /\ exists l, trace (handleMessage frame w) = trace w ++ l
       /\ count (settles_of p) l = 0%nat.
Proof.
  intros Hp.
  assert (Hquiet : forall w', quiet w w' ->
            ~ holds p w' /\ exists l, trace w' = trace w ++ l
                                   /\ count (settles_of p) l = 0%nat).
  { intros w' [Hq (l & Ht & Hc)]. split.
    - intros (t & item & Hl & Hh). apply Hp. exists t, item. by rewrite <- Hq.
    - exists l. split; [done|].
      pose proof (count_le (settles_of p) is_settle l (settles_of_is_settle p)). lia. }
  destruct frame as [message|d]; simpl.
  - destruct (messageQueue w !! tag_of message) as [item|] eqn:E.
    + destruct (handleTextMessage_pending message item w E) as [Hq (l & Ht & Hl)].
      split.
      * intros (t & item' & Hl' & Hh). apply Hp. exists t, item'. split; [|done].
        rewrite Hq in Hl'. by apply lookup_delete_Some in Hl' as [_ ?].
      * exists l. split; [done|]. apply (one_settle_other item); [done|..];
          intros Hh; apply Hp; exists (tag_of message), item; auto.
    + by apply Hquiet, quiet_handleTextMessage.
  - apply Hquiet, quiet_handleBinaryMessage.
Qed.

Lemma handleMessages_holds frames p : forall w,
  ~ holds p w ->
  let w' := foldl (fun w frame => handleMessage frame w) w frames in
  ~ holds p w'
  /\ exists l, trace w' = trace w ++ l /\ count (settles_of p) l = 0%nat.
Proof.
  induction frames as [|frame frames IH]; intros w Hp; simpl.
  - split; [done|]. exists []. by rewrite app_nil_r.
  - destruct (handleMessage_holds frame w p Hp) as [Hp1 (l1 & Ht1 & Hc1)].
    destruct (IH _ Hp1) as [Hp2 (l2 & Ht2 & Hc2)]. split; [done|].
    exists (l1 ++ l2). rewrite Ht2, Ht1, <- app_assoc. split; [done|].
    rewrite count_app. lia.
Qed.


End Inbound.



(** The scenario run: the first response resolves the request's promise
    (number 3) once; the same response again settles nothing. *)
Lemma second_response_is_not_dispatched :
  let handleText :=
    _handleTextMessage demo_parse demo_buffer demo_base64 demo_hmac
      demo_cipher demo_gcm in
  let w1 := handleText "1700000000,ok" two_pending in
  let w2 := handleText "1700000000,ok" w1 in
  count (settles_of 3) (added two_pending w1) = 1%nat
  /\ map fst (map_to_list (messageQueue w1)) = ["1700000001"]
  /\ added w1 w2 = [Emit "json_message" (JsonArg (JObj [("status", JNum 200)]))].
Proof. vm_compute. repeat split; reflexivity. Qed.

End CorrelatorFacts.

(** ** The codec: what does survive the round trip *)

Module CodecFacts.
Import Binary BinaryFacts.

(** *** The token table *)

Lemma indexOf_from_found l str : forall i j,
  indexOf_from l str i = j -> j <> -1 -> 0 <= i ->
  i <= j < i + Z.of_nat (length l)
  /\ l !! Z.to_nat (j - i) = Some (Some str).
Proof.
  induction l as [|x l IH]; intros i j H Hj Hi; simpl in H; [congruence|].
  assert (Hrest : indexOf_from l str (i + 1) = j ->
                  i <= j < i + Z.of_nat (length (x :: l))
                  /\ (x :: l) !! Z.to_nat (j - i) = Some (Some str)).
  { intros H'. destruct (IH (i + 1) j H' Hj) as [Hr Hl]; [lia|].
    split; [simpl; lia|].
    replace (Z.to_nat (j - i)) with (S (Z.to_nat (j - (i + 1)))) by lia. exact Hl. }
  destruct x as [s|]; [|by apply Hrest].
  destruct (String.eqb_spec s str) as [->|]; [|by apply Hrest].
  subst j. split; [simpl; lia|]. by rewrite Z.sub_diag.
Qed.

Lemma indexOf_token str i :
  indexOf TOKENS str = i -> 0 < i ->
  i < 30 /\ TOKENS !! Z.to_nat i = Some (Some str).
Proof.
  intros H Hi. destruct (indexOf_from_found TOKENS str 0 i H) as [Hr Hl]; [lia..|].
  rewrite Z.sub_0_r in Hl. split; [|done]. simpl in Hr. lia.
Qed.

(** X1.  [getToken] and [getString] are inverse to each other on the
    tokens: an index that [getToken] returns is in 1..29 and [getString]
    gives the string back, and for an index in 1..29 [getString] returns a
    token whose index [getToken] gives back; [getToken] never returns 0,
    and [getString] returns [null] outside 1..29. *)
Theorem token_table_round_trip :
  (forall str i, getToken str = Some i ->
     1 <= i <= 29 /\ getString i = Some str)
  /\ (forall i, 1 <= i <= 29 ->
        exists str, getString i = Some str /\ getToken str = Some i)
  /\ (forall i, i < 1 \/ 29 < i -> getString i = None).
Proof.
  split; [|split].
  - intros str i H. unfold getToken in H.
    destruct (Z.ltb_spec 0 (indexOf TOKENS str)) as [Hpos|]; [|done].
    injection H as <-.
    destruct (indexOf_token str _ eq_refl Hpos) as [Hlt Hl].
    split; [lia|]. unfold getString.
    destruct (Z.ltb_spec (indexOf TOKENS str) 0); [lia|]. rewrite Hl.
    destruct (String.eqb_spec str EmptyString) as [->|]; [|done].
    exfalso. revert Hpos. vm_compute. done.
  - intros i Hi.
    assert (Hcases : In i [1;2;3;4;5;6;7;8;9;10;11;12;13;14;15;16;17;18;19;20;
                           21;22;23;24;25;26;27;28;29]).
    { simpl. lia. }
    simpl in Hcases.
    repeat (destruct Hcases as [<-|Hcases];
            [eexists; split; vm_compute; reflexivity|]).
    done.
  - intros i Hi. unfold getString.
    destruct (Z.ltb_spec i 0); [done|].
    destruct (Z.eq_dec i 0) as [->|]; [done|].
    rewrite (lookup_ge_None_2 TOKENS); [done|]. simpl. lia.
Qed.

Lemma token_table_round_trip_witness : getString 3 = Some "iq".
Proof.
  apply (proj1 token_table_round_trip "iq" 3). reflexivity.
Defined.

(** *** The writer *)

Lemma byte_of_Z_land z : byte_of_Z (Z.land z 255) = byte_of_Z z.
Proof.
  unfold byte_of_Z. by rewrite <- Z.land_assoc, Z.land_diag.
Qed.

Lemma consistent_new : consistent newWriter.
Proof. reflexivity. Qed.

Lemma writeBytes_spec bs w :
  concat (buffers (writeBytes bs w)) = concat (buffers w) ++ bs
  /\ wlength (writeBytes bs w) = wlength w + Z.of_nat (length bs).
Proof. simpl. rewrite concat_app. simpl. by rewrite app_nil_r. Qed.

Lemma writeByte_spec b w :
  concat (buffers (writeByte b w)) = concat (buffers w) ++ [byte_of_Z b]
  /\ wlength (writeByte b w) = wlength w + 1.
Proof. simpl. rewrite concat_app. simpl. by rewrite byte_of_Z_land. Qed.

Lemma toBuffer_consistent w : consistent w -> toBuffer w = concat (buffers w).
Proof.
  unfold consistent, toBuffer, Buffer_concat. intros ->.
  rewrite Nat2Z.id, take_ge by lia.
  by rewrite Nat.sub_diag, app_nil_r.
Qed.

Lemma extends_consistent w bs w' :
  consistent w ->
  concat (buffers w') = concat (buffers w) ++ bs ->
  wlength w' = wlength w + Z.of_nat (length bs) ->
  consistent w'.
Proof.
  unfold consistent. intros Hw Hb Hl. rewrite Hl, Hb, Hw, length_app. lia.
Qed.

(** *** The reader, on bytes in the middle of a buffer *)

Lemma reader_at_app pre bs rest :
  reader_at (pre ++ bs) rest = mkReader (pre ++ bs ++ rest)
                                 (Z.of_nat (length pre) + Z.of_nat (length bs)).
Proof.
  unfold reader_at. rewrite <- app_assoc, length_app. f_equal. lia.
Qed.

Lemma readByte_at pre b rest :
  readByte (reader_at pre (b :: rest))
  = Ok (byte_to_Z b, reader_at (pre ++ [b]) rest).
Proof.
  unfold readByte, data_length. simpl.
  destruct (Z.geb_spec (Z.of_nat (length pre)) (Z.of_nat (length (pre ++ b :: rest))))
    as [H|_]; [rewrite length_app in H; simpl in H; lia|].
  rewrite Nat2Z.id, app_nth2, Nat.sub_diag by lia. simpl.
  by rewrite (reader_at_app pre [b] rest).
Qed.

Lemma readBytes_at pre bs rest :
  readBytes (Z.of_nat (length bs)) (reader_at pre (bs ++ rest))
  = Ok (bs, reader_at (pre ++ bs) rest).
Proof.
  unfold readBytes, data_length, slice. simpl.
  destruct (Z.gtb_spec (Z.of_nat (length pre) + Z.of_nat (length bs))
              (Z.of_nat (length (pre ++ bs ++ rest)))) as [H|_];
    [rewrite !length_app in H; lia|].
  rewrite Nat2Z.id, drop_app_length.
  replace (Z.to_nat (Z.of_nat (length pre) + Z.of_nat (length bs) - Z.of_nat (length pre)))
    with (length bs) by lia.
  by rewrite take_app_length, reader_at_app.
Qed.

Lemma byte_to_Z_of_low z :
  byte_to_Z (byte_of_Z z) = Z.land z 255.
Proof.
  rewrite <- byte_of_Z_land. apply byte_to_of_Z.
  change 255 with (Z.ones 8). rewrite Z.land_ones by lia.
  change (2 ^ 8) with 256. apply Z.mod_pos_bound. lia.
Qed.

Lemma ones_test k n : 0 <= k -> Z.testbit (Z.ones k) n = (0 <=? n) && (n <? k).
Proof.
  intros Hk. destruct (Z.leb_spec 0 n); simpl.
  - destruct (Z.ltb_spec n k).
    + apply Z.ones_spec_low. lia.
    + apply Z.ones_spec_high. lia.
  - apply Z.testbit_neg_r. lia.
Qed.
(** The three bytes of [writeInt20] read back as the low 24 bits. *)
Lemma int20_bits v :
  Z.lor (Z.lor (Z.shiftl (Z.land (Z.shiftr v 16) 255) 16)
               (Z.shiftl (Z.land (Z.shiftr v 8) 255) 8))
        (Z.land v 255)
  = v mod 16777216.
Proof.
  change 16777216 with (2 ^ 24). rewrite <- Z.land_ones by lia.
  change 255 with (Z.ones 8).
  apply Z.bits_inj'. intros n Hn.
  rewrite !Z.lor_spec, !Z.land_spec, !Z.shiftl_spec by lia.
  rewrite !Z.land_spec, !ones_test by lia.
  destruct (Z.lt_ge_cases n 8) as [H8|H8].
  - rewrite !(Z.testbit_neg_r (Z.shiftr _ _)) by lia.
    destruct (Z.leb_spec 0 n), (Z.ltb_spec n 8), (Z.ltb_spec n 24); try lia.
    simpl. by rewrite andb_true_r.
  - destruct (Z.lt_ge_cases n 16) as [H16|H16].
    + rewrite (Z.testbit_neg_r _ (n - 16)) by lia.
      rewrite Z.shiftr_spec by lia.
      destruct (Z.leb_spec 0 n), (Z.leb_spec 0 (n - 8)), (Z.ltb_spec (n - 8) 8),
        (Z.ltb_spec n 8), (Z.ltb_spec n 24); try lia.
      simpl. rewrite !andb_true_r, andb_false_r, orb_false_r.
      f_equal. lia.
    + rewrite !Z.shiftr_spec by lia.
      destruct (Z.leb_spec 0 n), (Z.leb_spec 0 (n - 8)), (Z.leb_spec 0 (n - 16)),
        (Z.ltb_spec (n - 8) 8), (Z.ltb_spec n 8), (Z.ltb_spec (n - 16) 8),
        (Z.ltb_spec n 24); try lia;
        simpl; rewrite ?andb_true_r, ?andb_false_r, ?orb_false_r; try done.
      f_equal. lia.
Qed.

Lemma readInt20_at pre v rest :
  readInt20 (reader_at pre
    (byte_of_Z (Z.land (Z.shiftr v 16) 255) :: byte_of_Z (Z.land (Z.shiftr v 8) 255)
       :: byte_of_Z (Z.land v 255) :: rest))
  = Ok (v mod 16777216,
        reader_at (pre ++ [ byte_of_Z (Z.land (Z.shiftr v 16) 255);
                            byte_of_Z (Z.land (Z.shiftr v 8) 255);
                            byte_of_Z (Z.land v 255) ]) rest).
Proof.
  unfold readInt20.
  pose proof (readBytes_at pre
    [ byte_of_Z (Z.land (Z.shiftr v 16) 255); byte_of_Z (Z.land (Z.shiftr v 8) 255);
      byte_of_Z (Z.land v 255) ] rest) as H.
  simpl in H. change (Z.of_nat 3) with 3 in H. rewrite H. simpl.
  rewrite !byte_of_Z_land, !byte_to_Z_of_low. by rewrite int20_bits.
Qed.

(** *** Plain values, one kind at a time *)

Lemma readNode_step k fuel r :
  _readNode k (S fuel) r = readNode_body k (_readNode k fuel) r.
Proof. reflexivity. Qed.

(** Conditions on constants, evaluated. *)
Ltac eval_ifs :=
  repeat match goal with
  | |- context [if ?c then _ else _] =>
      let v := eval vm_compute in c in
      match v with
      | true => change c with true
      | false => change c with false
      end; cbv iota
  end.

Ltac first_byte :=
  rewrite readNode_step; unfold readNode_body;
  rewrite readByte_at; unfold obind at 1; cbv beta iota.

Lemma null_round_trip k :
  encodes VNull [x00] /\ forall fuel, (1 <= fuel)%nat -> reads k fuel VNull [x00].
Proof.
  split.
  - intros w. eexists. split; [reflexivity|]. apply (writeByte_spec 0 w).
  - intros [|fuel] Hf pre post; [lia|]. simpl app. first_byte. reflexivity.
Qed.

Lemma number_round_trip k n :
  0 <= n < 256 ->
  encodes (VNum n) [xfa; byte_of_Z n]
  /\ forall fuel, (1 <= fuel)%nat -> reads k fuel (VNum n) [xfa; byte_of_Z n].
Proof.
  intros Hn. split.
  - intros w. eexists. split; [reflexivity|]. simpl _writeNode. unfold _writeNumber.
    destruct (Z.leb_spec 0 n), (Z.ltb_spec n 256); try lia. simpl andb. cbv iota.
    destruct (writeByte_spec n (writeByte 250 w)) as [-> ->].
    destruct (writeByte_spec 250 w) as [-> ->].
    rewrite <- app_assoc. split; [reflexivity|simpl; lia].
  - intros [|fuel] Hf pre post; [lia|]. simpl app. first_byte.
    change (byte_to_Z xfa) with 250. eval_ifs.
    rewrite readByte_at. unfold obind, done. simpl.
    rewrite byte_to_of_Z by lia.
    by rewrite <- app_assoc.
Qed.

Lemma buffer_round_trip k b :
  Z.of_nat (length b) < 16777216 ->
  exists bs, encodes (VBuf b) bs
    /\ forall fuel, (1 <= fuel)%nat -> reads k fuel (VBuf b) bs.
Proof.
  intros Hb. remember (Z.of_nat (length b)) as len eqn:Hlen.
  exists ([xfe] ++ [ byte_of_Z (Z.land (Z.shiftr len 16) 255);
                     byte_of_Z (Z.land (Z.shiftr len 8) 255);
                     byte_of_Z (Z.land len 255) ] ++ b).
  split.
  - intros w. eexists. split; [reflexivity|]. simpl _writeNode. unfold _writeBytes.
    rewrite <- Hlen.
    destruct (writeBytes_spec b (writeInt20 len (writeByte 254 w))) as [-> ->].
    unfold writeInt20.
    destruct (writeBytes_spec [ byte_of_Z (Z.land (Z.shiftr len 16) 255);
                                byte_of_Z (Z.land (Z.shiftr len 8) 255);
                                byte_of_Z (Z.land len 255) ] (writeByte 254 w)) as [-> ->].
    destruct (writeByte_spec 254 w) as [-> ->].
    rewrite <- !app_assoc. split; [reflexivity|].
    simpl. rewrite ?length_app. simpl. lia.
  - intros [|fuel] Hf pre post; [lia|].
    simpl app. first_byte.
    change (byte_to_Z xfe) with 254. eval_ifs.
    rewrite readInt20_at. unfold obind at 1. cbv beta iota.
    rewrite Z.mod_small by lia. rewrite Hlen.
    rewrite readBytes_at. unfold obind, done.
    by rewrite <- !app_assoc.
Qed.

Lemma string_round_trip k str :
  Z.of_nat (length (list_byte_of_string str)) < 16777216 ->
  exists bs, encodes (VStr str) bs
    /\ forall fuel, (1 <= fuel)%nat -> reads k fuel (VStr str) bs.
Proof.
  intros Hs. remember (Z.of_nat (length (list_byte_of_string str))) as len eqn:Hlen.
  remember (indexOf TOKENS str) as index eqn:Hindex.
  destruct ((0 <? index) && (index <? 256)) eqn:Htoken.
  - (* a token *)
    apply andb_true_iff in Htoken as [Hpos _]. apply Z.ltb_lt in Hpos.
    destruct (indexOf_token str index (eq_sym Hindex) Hpos) as [Hlt Htok].
    exists [byte_of_Z index]. split.
    + intros w. eexists. split; [reflexivity|]. simpl _writeNode. unfold _writeString.
      rewrite <- Hindex.
      destruct (Z.ltb_spec 0 index), (Z.ltb_spec index 256); try lia. simpl andb.
      cbv iota. apply writeByte_spec.
    + intros [|fuel] Hf pre post; [lia|]. simpl app. first_byte.
      rewrite byte_to_of_Z by lia.
      destruct (Z.eqb_spec index 0); [lia|].
      destruct (Z.leb_spec 1 index); [|lia].
      destruct (Z.ltb_spec index (Z.of_nat (length TOKENS))); [|simpl in *; lia].
      simpl andb. cbv iota. unfold token_at. by rewrite Htok.
  - destruct (Z.ltb_spec len 256) as [Hshort|Hlong].
    + (* a literal shorter than 256 bytes *)
      exists (xfc :: byte_of_Z len :: list_byte_of_string str). split.
      * intros w. eexists. split; [reflexivity|]. simpl _writeNode. unfold _writeString.
        rewrite <- Hindex, Htoken, <- Hlen.
        destruct (Z.ltb_spec len 256); [|lia].
        destruct (writeBytes_spec (list_byte_of_string str)
                    (writeByte len (writeByte 252 w))) as [-> ->].
        destruct (writeByte_spec len (writeByte 252 w)) as [-> ->].
        destruct (writeByte_spec 252 w) as [-> ->].
        rewrite <- !app_assoc. split; [reflexivity|simpl; lia].
      * intros [|fuel] Hf pre post; [lia|]. simpl app. first_byte.
        change (byte_to_Z xfc) with 252. eval_ifs.
        rewrite readByte_at. unfold obind at 1. cbv beta iota.
        rewrite byte_to_of_Z by lia. rewrite Hlen.
        rewrite readBytes_at. unfold obind, done.
        rewrite string_of_list_byte_of_string.
        by rewrite <- !app_assoc.
    + (* a longer literal *)
      exists (xfd :: byte_of_Z (Z.land (Z.shiftr len 16) 255)
                :: byte_of_Z (Z.land (Z.shiftr len 8) 255)
                :: byte_of_Z (Z.land len 255) :: list_byte_of_string str). split.
      * intros w. eexists. split; [reflexivity|]. simpl _writeNode. unfold _writeString.
        rewrite <- Hindex, Htoken, <- Hlen.
        destruct (Z.ltb_spec len 256); [lia|].
        destruct (writeBytes_spec (list_byte_of_string str)
                    (writeInt20 len (writeByte 253 w))) as [-> ->].
        unfold writeInt20.
        destruct (writeBytes_spec [ byte_of_Z (Z.land (Z.shiftr len 16) 255);
                                    byte_of_Z (Z.land (Z.shiftr len 8) 255);
                                    byte_of_Z (Z.land len 255) ] (writeByte 253 w))
          as [-> ->].
        destruct (writeByte_spec 253 w) as [-> ->].
        rewrite <- !app_assoc. split; [reflexivity|simpl; lia].
      * intros [|fuel] Hf pre post; [lia|]. simpl app. first_byte.
        change (byte_to_Z xfd) with 253. eval_ifs.
        rewrite readInt20_at. unfold obind at 1. cbv beta iota.
        rewrite Z.mod_small by lia. rewrite Hlen.
        rewrite readBytes_at. unfold obind, done.
        rewrite string_of_list_byte_of_string.
        by rewrite <- !app_assoc.
Qed.

(** *** Arrays *)

Lemma write_items_encodes items bss :
  Forall2 encodes items bss ->
  forall w, exists w',
    write_items _writeNode items w = Ok w'
    /\ concat (buffers w') = concat (buffers w) ++ concat bss
    /\ wlength w' = wlength w + Z.of_nat (length (concat bss)).
Proof.
  induction 1 as [|v bs items bss Hv _ IH]; intros w.
  - exists w. simpl. rewrite app_nil_r. split; [done|]. split; [done|lia].
  - destruct (Hv w) as (w1 & E1 & Hb1 & Hl1).
    destruct (IH w1) as (w2 & E2 & Hb2 & Hl2).
    exists w2. simpl. rewrite E1. simpl. split; [done|].
    rewrite Hb2, Hb1, Hl2, Hl1, length_app, <- app_assoc. split; [done|lia].
Qed.

Lemma readArrayItems_reads k fuel items bss :
  Forall2 (reads k fuel) items bss ->
  forall array pre post,
    readArrayItems (_readNode k fuel) (length items) array
      (reader_at pre (concat bss ++ post))
    = done (array ++ items, reader_at (pre ++ concat bss) post).
Proof.
  induction 1 as [|v bs items bss Hv _ IH]; intros array pre post.
  - simpl. by rewrite !app_nil_r.
  - simpl. rewrite <- app_assoc, Hv. unfold obind. cbv beta iota.
    rewrite IH. by rewrite <- !app_assoc.
Qed.

Lemma common_fuel k items bss :
  Forall2 (fun v bs => encodes v bs /\ decodes k v bs) items bss ->
  Forall2 encodes items bss
  /\ exists fuel0, forall fuel, (fuel0 <= fuel)%nat -> Forall2 (reads k fuel) items bss.
Proof.
  induction 1 as [|v bs items bss [He [f1 Hd]] _ [IHe [f2 IHd]]].
  - split; [constructor|]. exists 0%nat. constructor.
  - split; [by constructor|]. exists (f1 `max` f2)%nat. intros fuel Hf.
    constructor; [apply Hd|apply IHd]; lia.
Qed.

Lemma array_round_trip k items bss :
  Z.of_nat (length items) < 256 ->
  Forall2 (fun v bs => encodes v bs /\ decodes k v bs) items bss ->
  exists bs, encodes (VArr items) bs /\ decodes k (VArr items) bs.
Proof.
  intros Hlen H. apply common_fuel in H as [He [f0 Hd]].
  exists (xfb :: byte_of_Z (Z.of_nat (length items)) :: concat bss). split.
  - intros w.
    destruct (write_items_encodes _ _ He
                (writeByte (Z.of_nat (length items)) (writeByte 251 w)))
      as (w' & E & Hb & Hl).
    exists w'. split; [exact E|].
    destruct (writeByte_spec (Z.of_nat (length items)) (writeByte 251 w)) as [Hb1 Hl1].
    destruct (writeByte_spec 251 w) as [Hb2 Hl2].
    rewrite Hb, Hb1, Hb2, Hl, Hl1, Hl2, <- !app_assoc.
    split; [reflexivity|simpl; lia].
  - exists (S f0). intros [|fuel] Hf pre post; [lia|]. simpl app. first_byte.
    change (byte_to_Z xfb) with 251. eval_ifs.
    unfold _readArray. rewrite readByte_at. unfold obind at 1. cbv beta iota.
    rewrite byte_to_of_Z, Nat2Z.id by lia.
    rewrite (readArrayItems_reads k fuel items bss) by (apply Hd; lia).
    unfold obind, done. simpl app.
    by rewrite <- !app_assoc.
Qed.

(** *** Every plain value *)

Lemma plain_encodes_decodes k v :
  plain v = true -> exists bs, encodes v bs /\ decodes k v bs.
Proof.
  induction v as [ | str | n | b | items IH | props IH] using Value_nested_ind;
    intros Hp; simpl in Hp.
  - exists [x00]. destruct (null_round_trip k) as [He Hd].
    split; [done|]. by exists 1%nat.
  - apply Z.ltb_lt in Hp. destruct (string_round_trip k str Hp) as (bs & He & Hd).
    exists bs. split; [done|]. by exists 1%nat.
  - apply andb_true_iff in Hp as [H0 H1]. apply Z.leb_le in H0. apply Z.ltb_lt in H1.
    destruct (number_round_trip k n) as [He Hd]; [lia|].
    eexists. split; [exact He|]. by exists 1%nat.
  - apply Z.ltb_lt in Hp. destruct (buffer_round_trip k b Hp) as (bs & He & Hd).
    exists bs. split; [done|]. by exists 1%nat.
  - apply andb_true_iff in Hp as [Hlen Hall]. apply Z.ltb_lt in Hlen.
    assert (Hbss : exists bss,
               Forall2 (fun v bs => encodes v bs /\ decodes k v bs) items bss).
    { clear Hlen. induction IH as [|v items Hv _ IHitems].
      - exists []. constructor.
      - simpl in Hall. apply andb_true_iff in Hall as [Hpv Hall].
        destruct (Hv Hpv) as (bs & Hbs). destruct (IHitems Hall) as (bss & Hbss).
        exists (bs :: bss). by constructor. }
    destruct Hbss as (bss & Hbss). by eapply array_round_trip.
  - done.
Qed.




(** *** Numbers outside 0..255 *)










(** *** Long arrays *)

(** X4.  The item count of an array is written in one byte: an array of
    plain values of any length is encoded, and [decode] returns its first
    [length mod 256] items; the others are lost without an error. *)
Theorem array_length_wraps (toPropertyKey : Value -> option string)
    (items : list Value) :
  forallb plain items = true ->
  exists bytes, encode (VArr items) = Ok bytes
    /\ decode toPropertyKey bytes
       = Ok (VArr (take (length items mod 256) items)).
Proof.
  intros Hall.
  assert (Hbss : exists bss,
             Forall2 (fun v bs => encodes v bs /\ decodes toPropertyKey v bs) items bss).
  { induction items as [|v items IH]; [exists []; constructor|].
    simpl in Hall. apply andb_true_iff in Hall as [Hpv Hall].
    destruct (plain_encodes_decodes toPropertyKey v Hpv) as (bs & Hbs).
    destruct (IH Hall) as (bss & Hbss). exists (bs :: bss). by constructor. }
  destruct Hbss as (bss & Hbss).
  destruct (common_fuel _ _ _ Hbss) as [He [f0 Hd]].
  set (n := (length items mod 256)%nat).
  assert (Hn : (n < 256)%nat) by (apply Nat.mod_upper_bound; lia).
  assert (Hnle : (n <= length items)%nat) by (apply Nat.Div0.mod_le).
  set (count := Z.of_nat (length items)).
  set (bytes := xfb :: byte_of_Z count :: concat bss).
  destruct (write_items_encodes _ _ He (writeByte count (writeByte 251 newWriter)))
    as (w' & E & Hb & Hl).
  destruct (writeByte_spec count (writeByte 251 newWriter)) as [Hb1 Hl1].
  destruct (writeByte_spec 251 newWriter) as [Hb2 Hl2].
  rewrite Hb1, Hb2 in Hb. rewrite Hl1, Hl2 in Hl. simpl in Hb, Hl.
  exists bytes. split.
  - unfold encode. simpl _writeNode. unfold _writeArray. fold count. rewrite E. simpl.
    rewrite toBuffer_consistent by (unfold consistent; rewrite Hb, Hl; simpl; lia).
    by rewrite Hb.
  - unfold decode.
    destruct (decode_returns toPropertyKey bytes) as [res Hres]. rewrite Hres.
    set (F := (S f0 `max` decode_fuel bytes)%nat).
    pose proof (readNode_fuel_mono toPropertyKey (decode_fuel bytes) F
                  ltac:(lia) _ _ Hres) as Hm.
    assert (HF : exists fuel, F = S fuel /\ (f0 <= fuel)%nat).
    { exists (pred F). lia. }
    destruct HF as (fuel & HF & Hfuel). rewrite HF in Hm.
    change (newReader bytes) with (reader_at [] bytes) in Hm.
    unfold bytes in Hm at 1. revert Hm. first_byte.
    change (byte_to_Z xfb) with 251. eval_ifs.
    unfold _readArray. rewrite readByte_at. unfold obind at 1. cbv beta iota.
    rewrite byte_to_Z_of_low.
    change 255 with (Z.ones 8). rewrite Z.land_ones by lia.
    change (2 ^ 8) with 256.
    replace (Z.to_nat (count mod 256)) with n
      by (unfold n, count; rewrite <- (Nat2Z.inj_mod _ 256), Nat2Z.id; reflexivity).
    assert (Hlen : length (take n items) = n) by (rewrite length_take; lia).
    rewrite <- (take_drop n bss), concat_app.
    rewrite <- Hlen at 1.
    pose proof (readArrayItems_reads toPropertyKey fuel (take n items) (take n bss)
                  (Forall2_take _ _ _ n (Hd fuel Hfuel)) [] ([] ++ [xfb] ++ [byte_of_Z count])
                  (concat (drop n bss) ++ [])) as Hread.
    rewrite app_nil_r in Hread. simpl app in Hread. simpl app.
    rewrite Hread. unfold obind, done. by intros [= <-].
Qed.

Lemma array_length_wraps_witness :
  exists bytes, encode (VArr (replicate 257 VNull)) = Ok bytes
    /\ decode string_keys bytes
       = Ok (VArr (take (length (replicate 257 VNull) mod 256) (replicate 257 VNull))).
Proof.
  apply (array_length_wraps string_keys (replicate 257 VNull)). reflexivity.
Defined.

(** *** Input that is no node *)

(** X5.  [decode] throws the end-of-data error on the empty buffer, and
    the unknown-marker error, with the marker in it, on a buffer whose
    first byte is none of 0..29 and 250..255. *)
Theorem decode_rejects_what_is_no_node (toPropertyKey : Value -> option string) :
  decode toPropertyKey [] = Err UnexpectedEnd
  /\ forall b rest, 30 <= byte_to_Z b <= 249 ->
       decode toPropertyKey (b :: rest) = Err (UnknownMarker (byte_to_Z b)).
Proof.
  split; [reflexivity|]. intros b rest Hb. unfold decode, decode_fuel.
  change (newReader (b :: rest)) with (reader_at [] (b :: rest)).
  first_byte. generalize dependent (byte_to_Z b). intros m Hm.
  destruct (Z.eqb_spec m 0); [lia|].
  destruct (Z.ltb_spec m (Z.of_nat (length TOKENS))); [simpl in *; lia|].
  rewrite andb_false_r.
  repeat (match goal with
          | |- context [?x =? ?y] => destruct (Z.eqb_spec x y); [lia|]
          end).
  reflexivity.
Qed.

Lemma decode_rejects_what_is_no_node_witness :
  decode string_keys [x40; x00] = Err (UnknownMarker 64).
Proof.
  apply (proj2 (decode_rejects_what_is_no_node string_keys) x40 [x00]).
  vm_compute. split; discriminate.
Defined.

(** *** The writer's count of bytes *)

Lemma appends_refl w : appends w w.
Proof. exists []. rewrite app_nil_r. split; [done|simpl; lia]. Qed.

Lemma appends_trans w1 w2 w3 : appends w1 w2 -> appends w2 w3 -> appends w1 w3.
Proof.
  intros (b1 & H1 & L1) (b2 & H2 & L2). exists (b1 ++ b2).
  rewrite H2, H1, L2, L1, length_app, app_assoc. split; [done|lia].
Qed.

Lemma writeByte_appends b w : appends w (writeByte b w).
Proof. exists [byte_of_Z b]. destruct (writeByte_spec b w) as [-> ->]. done. Qed.

Lemma writeBytes_appends bs w : appends w (writeBytes bs w).
Proof. exists bs. apply writeBytes_spec. Qed.

Lemma writeInt20_appends n w : appends w (writeInt20 n w).
Proof. apply writeBytes_appends. Qed.

Lemma writeString_appends str w : appends w (_writeString str w).
Proof.
  unfold _writeString. repeat case_match;
    eauto using appends_trans, writeByte_appends, writeBytes_appends, writeInt20_appends.
Qed.

Lemma writeNumber_appends n w : appends w (_writeNumber n w).
Proof.
  unfold _writeNumber. case_match;
    eauto using appends_trans, writeByte_appends, writeString_appends.
Qed.

Lemma writeBuffer_appends b w : appends w (_writeBytes b w).
Proof.
  unfold _writeBytes.
  eauto using appends_trans, writeByte_appends, writeBytes_appends, writeInt20_appends.
Qed.

Lemma write_items_appends l :
  Forall node_appends l ->
  forall w w', write_items _writeNode l w = Ok w' -> appends w w'.
Proof.
  induction 1 as [|v l Hv _ IH]; intros w w' H; simpl in H.
  - injection H as <-. apply appends_refl.
  - destruct (_writeNode v w) as [w1|] eqn:E; [|done]. simpl in H.
    eauto using appends_trans.
Qed.

Lemma write_tag_appends l : forall w w', write_tag l w = Ok w' -> appends w w'.
Proof.
  induction l as [|[key v] l IH]; intros w w' H; simpl in H.
  - injection H as <-. apply writeByte_appends.
  - repeat case_match; try done; try (by apply IH);
      injection H as <-; auto using writeByte_appends, writeString_appends.
Qed.

Lemma write_attributes_appends l :
  Forall (fun kv => node_appends kv.2) l ->
  forall w w', write_attributes _writeNode l w = Ok w' -> appends w w'.
Proof.
  induction 1 as [|[key v] l Hv _ IH]; intros w w' H; simpl in H.
  - injection H as <-. apply appends_refl.
  - destruct (is_attribute key); [|by apply IH].
    destruct (_writeNode v (_writeString key w)) as [w1|] eqn:E; [|done]. simpl in H.
    apply Hv in E. eauto using appends_trans, writeString_appends.
Qed.

Lemma write_children_appends l :
  Forall (fun kv => node_appends kv.2) l ->
  forall w w', write_children _writeNode l w = Ok w' -> appends w w'.
Proof.
  induction 1 as [|[key v] l Hv _ IH]; intros w w' H; simpl in H.
  - injection H as <-. apply writeByte_appends.
  - destruct (String.eqb key "children"); [|by apply IH].
    destruct v; try (injection H as <-; apply writeByte_appends).
    by apply Hv.
Qed.

Lemma write_content_appends obj l :
  Forall (fun kv => node_appends kv.2) obj ->
  Forall (fun kv => node_appends kv.2) l ->
  forall w w', write_content _writeNode obj l w = Ok w' -> appends w w'.
Proof.
  intros Hobj. induction 1 as [|[key v] l Hv _ IH]; intros w w' H; simpl in H.
  - by eapply write_children_appends.
  - destruct (String.eqb key "content"); [by apply Hv|by apply IH].
Qed.

Lemma writeNode_appends v : node_appends v.
Proof.
  induction v as [ | str | n | b | items IH | props IH] using Value_nested_ind;
    intros w w' H; simpl in H.
  - injection H as <-. apply writeByte_appends.
  - injection H as <-. apply writeString_appends.
  - injection H as <-. apply writeNumber_appends.
  - injection H as <-. apply writeBuffer_appends.
  - unfold _writeArray in H. apply write_items_appends in H; [|done].
    eauto using appends_trans, writeByte_appends.
  - unfold _writeObject in H.
    destruct (write_tag props w) as [w1|] eqn:E1; [|done]. simpl in H.
    destruct (write_attributes _writeNode props _) as [w3|] eqn:E3; [|done].
    simpl in H.
    apply write_tag_appends in E1. apply write_attributes_appends in E3; [|done].
    apply write_content_appends in H; [|done..].
    eauto using appends_trans, writeByte_appends.
Qed.

Lemma appends_consistent w w' :
  appends w w' -> consistent w ->
  consistent w' /\ exists bs, toBuffer w' = toBuffer w ++ bs.
Proof.
  intros (bs & Hb & Hl) Hw.
  assert (consistent w') by by eapply extends_consistent.
  split; [done|]. exists bs. by rewrite !toBuffer_consistent.
Qed.

Lemma writeBytes_consistent bs w : consistent w -> consistent (writeBytes bs w).
Proof. intros Hw. by apply (appends_consistent w _ (writeBytes_appends bs w)). Qed.

(** X6.  The writer's count is the number of bytes it holds: the writes
    keep it so, and so does [_writeNode] for every value it accepts, objects
    included; hence what [encode] returns is the chunks one after the other,
    none cut and none padded, and nothing written earlier is changed. *)
Theorem writer_counts_its_bytes :
  consistent newWriter
  /\ (forall w, consistent w -> toBuffer w = concat (buffers w))
  /\ (forall w b, consistent w -> consistent (writeByte b w))
  /\ (forall w bs, consistent w -> consistent (writeBytes bs w))
  /\ (forall w n, consistent w -> consistent (writeInt20 n w))
  /\ (forall v w w', _writeNode v w = Ok w' -> consistent w ->
        consistent w' /\ exists bs, toBuffer w' = toBuffer w ++ bs)
  /\ (forall v bytes, encode v = Ok bytes ->
        exists w, _writeNode v newWriter = Ok w
          /\ bytes = concat (buffers w)
          /\ wlength w = Z.of_nat (length bytes)).
Proof.
  pose proof appends_consistent as Hpres.
  split_and!.
  - reflexivity.
  - apply toBuffer_consistent.
  - intros w b Hw. by apply (Hpres w _ (writeByte_appends b w)).
  - intros w bs Hw. by apply writeBytes_consistent.
  - intros w n Hw. by apply (Hpres w _ (writeInt20_appends n w)).
  - intros v w w' H. apply Hpres. by eapply writeNode_appends.
  - intros v bytes H. unfold encode in H.
    destruct (_writeNode v newWriter) as [w|] eqn:E; [|done]. simpl in H.
    injection H as <-. exists w. split; [done|].
    destruct (Hpres newWriter w) as [Hc _];
      [by eapply writeNode_appends|reflexivity|].
    rewrite toBuffer_consistent by done. split; [done|exact Hc].
Qed.

Lemma writer_counts_its_bytes_witness :
  exists w, _writeNode iq_node newWriter = Ok w
    /\ [x03; x02; x0d; xfc; x03; x67; x65; x74; x0e; xfc; x01; x31;
        xfc; x05; x68; x65; x6c; x6c; x6f] = concat (buffers w)
    /\ wlength w = 19.
Proof.
  apply (proj2 (proj2 (proj2 (proj2 (proj2 (proj2 writer_counts_its_bytes)))))
           iq_node).
  vm_compute. reflexivity.
Defined.

(** *** The integer helpers *)

Lemma int32_bytes v :
  0 <= v < 4294967296 ->
  Z.land (Z.shiftr v 24) 255 * 16777216 + Z.land (Z.shiftr v 16) 255 * 65536
  + Z.land (Z.shiftr v 8) 255 * 256 + Z.land v 255 = v.
Proof.
  intros Hv. change 255 with (Z.ones 8).
  rewrite !Z.land_ones, !Z.shiftr_div_pow2 by lia.
  change (2 ^ 8) with 256. change (2 ^ 16) with 65536. change (2 ^ 24) with 16777216.
  Z.to_euclidean_division_equations. lia.
Qed.

(** X7.  The integer helpers of the writer and the reader.  What
    [writeInt20] writes, [readInt20] reads back as the value modulo 2^24,
    so as the value itself exactly when it is in [0, 2^24); [writeInt32]
    accepts the integers in [0, 2^32), which [readInt32] reads back, and
    throws for the others. *)
Theorem integer_helpers_round_trip (w : BinaryWriter) (v : Z) :
  consistent w ->
  readInt20 (mkReader (toBuffer (writeInt20 v w)) (wlength w))
    = Ok (v mod 16777216, mkReader (toBuffer (writeInt20 v w)) (wlength w + 3))
  /\ (0 <= v < 4294967296 ->
        exists w', writeInt32 v w = Ok w'
          /\ readInt32 (mkReader (toBuffer w') (wlength w))
             = Ok (v, mkReader (toBuffer w') (wlength w + 4)))
  /\ (v < 0 \/ 4294967296 <= v -> writeInt32 v w = Err ERR_OUT_OF_RANGE).
Proof.
  intros Hw. pose proof Hw as Hlen. unfold consistent in Hlen. split_and!.
  - rewrite toBuffer_consistent
      by (unfold writeInt20; by apply writeBytes_consistent).
    unfold writeInt20. destruct (writeBytes_spec
      [ byte_of_Z (Z.land (Z.shiftr v 16) 255); byte_of_Z (Z.land (Z.shiftr v 8) 255);
        byte_of_Z (Z.land v 255) ] w) as [-> _].
    rewrite Hlen.
    pose proof (readInt20_at (concat (buffers w)) v []) as H.
    unfold reader_at in H. simpl app in H. rewrite H. f_equal. f_equal.
    rewrite <- app_assoc, length_app. simpl. f_equal. lia.
  - intros Hv. unfold writeInt32.
    destruct (Z.leb_spec 0 v), (Z.ltb_spec v 4294967296); try lia. simpl andb. cbv iota.
    eexists. split; [reflexivity|].
    rewrite toBuffer_consistent
      by (by apply writeBytes_consistent).
    destruct (writeBytes_spec
      [ byte_of_Z (Z.shiftr v 24); byte_of_Z (Z.shiftr v 16);
        byte_of_Z (Z.shiftr v 8); byte_of_Z v ] w) as [-> _].
    rewrite Hlen. unfold readInt32.
    pose proof (readBytes_at (concat (buffers w))
      [ byte_of_Z (Z.shiftr v 24); byte_of_Z (Z.shiftr v 16);
        byte_of_Z (Z.shiftr v 8); byte_of_Z v ] []) as Hread.
    unfold reader_at in Hread. rewrite app_nil_r in Hread. simpl length in Hread.
    change (Z.of_nat 4) with 4 in Hread. rewrite Hread. simpl.
    rewrite !byte_to_Z_of_low, int32_bytes by lia. f_equal. f_equal.
    rewrite app_nil_r, length_app. simpl. f_equal. lia.
  - intros Hv. unfold writeInt32.
    destruct (Z.leb_spec 0 v), (Z.ltb_spec v 4294967296); try lia; reflexivity.
Qed.

Lemma integer_helpers_round_trip_witness :
  readInt20 (mkReader (toBuffer (writeInt20 16777217 newWriter)) 0)
  = Ok (1, mkReader (toBuffer (writeInt20 16777217 newWriter)) 3).
Proof.
  apply (integer_helpers_round_trip newWriter 16777217). reflexivity.
Defined.

End CodecFacts.

(** ** The helpers of [utils.js] *)

Module UtilsMoreFacts.
Import Utils.

(** *** Encrypt-then-MAC: what was encrypted comes back *)

Section RoundTrip.
Variable hmac_sha256 : list byte -> list byte -> list byte.
Variable aes_cbc_encrypt : list byte -> list byte -> list byte -> Result CryptoError (list byte).
Variable aes_cbc_decrypt : list byte -> list byte -> list byte -> Result CryptoError (list byte).

(** The cipher objects undo each other. *)
Hypothesis cipher_inverse : forall key iv plain encrypted,
  aes_cbc_encrypt key iv plain = Ok encrypted ->
  aes_cbc_decrypt key iv encrypted = Ok plain.

(** HMAC-SHA256 returns 32 bytes. *)
Hypothesis hmac_length : forall key d, length (hmac_sha256 key d) = 32%nat.

Lemma aes_round_trip iv key plaintext encrypted :
  length iv = 16%nat ->
  aesEncrypt aes_cbc_encrypt iv key plaintext = Ok encrypted ->
  aesDecrypt aes_cbc_decrypt key encrypted = Ok plaintext.
Proof.
  intros Hiv. unfold aesEncrypt, aesDecrypt. cbv zeta.
  set (padding := 16 - Z.of_nat (length plaintext) mod 16).
  assert (Hpad : 1 <= padding <= 16).
  { pose proof (Z.mod_pos_bound (Z.of_nat (length plaintext)) 16 ltac:(lia)).
    unfold padding. lia. }
  destruct (aes_cbc_encrypt key iv _) as [enc|] eqn:E; [|done]. simpl.
  intros [= <-].
  rewrite take_app_length' by done. rewrite drop_app_length' by done.
  rewrite (cipher_inverse _ _ _ _ E). simpl.
  destruct (Z.to_nat padding) as [|n] eqn:En; [lia|].
  rewrite replicate_S_end, app_assoc, last_snoc.
  rewrite BinaryFacts.byte_to_of_Z by lia.
  unfold slice_to. rewrite <- app_assoc, <- replicate_S_end.
  rewrite length_app, length_replicate.
  destruct (Z.ltb_spec (Z.of_nat (length plaintext + S n) - padding) 0); [lia|].
  rewrite Z.min_l by lia.
  replace (Z.to_nat (Z.of_nat (length plaintext + S n) - padding))
    with (length plaintext) by lia.
  by rewrite take_app_length.
Qed.

End RoundTrip.

(** X8.  What [whatsappEncrypt] returns, [whatsappDecrypt] opens: for a
    16-byte IV, cipher objects that undo each other and a 32-byte HMAC,
    decrypting an encrypted plaintext under the same two keys returns the
    plaintext, of any length; and so does [aesDecrypt] on what [aesEncrypt]
    returns (the padding added is the padding removed). *)
Theorem whatsapp_encrypt_decrypt_round_trip
    (hmac_sha256 : list byte -> list byte -> list byte)
    (aes_cbc_encrypt aes_cbc_decrypt :
       list byte -> list byte -> list byte -> Result CryptoError (list byte))
    (iv encKey macKey plaintext : list byte) :
  (forall key iv plain encrypted,
     aes_cbc_encrypt key iv plain = Ok encrypted ->
     aes_cbc_decrypt key iv encrypted = Ok plain) ->
  (forall key d, length (hmac_sha256 key d) = 32%nat) ->
  length iv = 16%nat ->
  (forall encrypted,
     aesEncrypt aes_cbc_encrypt iv encKey plaintext = Ok encrypted ->
     aesDecrypt aes_cbc_decrypt encKey encrypted = Ok plaintext)
  /\ (forall blob,
        whatsappEncrypt hmac_sha256 aes_cbc_encrypt iv encKey macKey plaintext = Ok blob ->
        whatsappDecrypt hmac_sha256 aes_cbc_decrypt encKey macKey blob = Ok plaintext).
Proof.
  intros Hinv Hmac Hiv. split.
  - intros encrypted. by apply aes_round_trip.
  - intros blob. unfold whatsappEncrypt.
    destruct (aesEncrypt aes_cbc_encrypt iv encKey plaintext) as [encrypted|] eqn:E;
      [|done].
    simpl. intros [= <-].
    rewrite UtilsFacts.whatsappDecrypt_cases. unfold hmacSha256.
    rewrite take_app_length', drop_app_length' by (symmetry; apply Hmac).
    rewrite decide_True by done.
    by eapply aes_round_trip.
Qed.

Lemma whatsapp_encrypt_decrypt_round_trip_witness :
  whatsappDecrypt toy_hmac toy_cipher [x01] [x02]
    (replicate 32 x00 ++ replicate 16 x09 ++ [x68; x69] ++ replicate 14 x0e)
  = Ok [x68; x69].
Proof.
  apply (whatsapp_encrypt_decrypt_round_trip toy_hmac toy_cipher toy_cipher
           (replicate 16 x09) [x01] [x02] [x68; x69]).
  - intros key iv plain encrypted H. injection H as ->. reflexivity.
  - reflexivity.
  - reflexivity.
  - reflexivity.
Defined.

(** *** Key derivation *)

Section Hkdf.
Variable hmac_sha256 : list byte -> list byte -> list byte.
Hypothesis hmac_length : forall key d, length (hmac_sha256 key d) = 32%nat.

Lemma hkdf_blocks_length prk info n : forall i previous okm,
  length (hkdf_blocks hmac_sha256 prk info n i previous okm)
  = (length okm + 32 * n)%nat.
Proof.
  induction n as [|n IH]; intros i previous okm; simpl; [lia|].
  rewrite IH, length_app, hmac_length. lia.
Qed.

Lemma hkdf_blocks_acc prk info n : forall i previous okm,
  hkdf_blocks hmac_sha256 prk info n i previous okm
  = okm ++ hkdf_blocks hmac_sha256 prk info n i previous [].
Proof.
  induction n as [|n IH]; intros i previous okm; simpl;
    [symmetry; apply app_nil_r|].
  rewrite IH, (IH _ _ (hmac_sha256 _ _)). symmetry. apply app_assoc.
Qed.

(** More blocks only add to the end. *)
Lemma hkdf_blocks_prefix prk info n m : forall i previous,
  (n <= m)%nat ->
  exists more,
    hkdf_blocks hmac_sha256 prk info m i previous []
    = hkdf_blocks hmac_sha256 prk info n i previous [] ++ more.
Proof.
  revert m. induction n as [|n IH]; intros m i previous Hnm; simpl; [by eexists|].
  destruct m as [|m]; [lia|]. simpl.
  destruct (IH m (i + 1) (hmac_sha256 prk (previous ++ info ++ [byte_of_Z i])))
    as [more Hmore]; [lia|].
  exists more.
  rewrite (hkdf_blocks_acc _ _ m), (hkdf_blocks_acc _ _ n), Hmore.
  apply app_assoc.
Qed.

Lemma hkdf_length ikm salt info len :
  0 <= len -> length (hkdf hmac_sha256 ikm salt info len) = Z.to_nat len.
Proof.
  intros Hlen. unfold hkdf. rewrite length_take, hkdf_blocks_length. simpl.
  assert (len <= 32 * ((len + 31) / 32)).
  { Z.to_euclidean_division_equations. lia. }
  lia.
Qed.

Lemma hkdf_prefix ikm salt info len len' :
  0 <= len <= len' ->
  hkdf hmac_sha256 ikm salt info len
  = take (Z.to_nat len) (hkdf hmac_sha256 ikm salt info len').
Proof.
  intros Hlen. unfold hkdf. cbv zeta.
  set (prk := hmacSha256 hmac_sha256 _ ikm).
  destruct (hkdf_blocks_prefix prk info (Z.to_nat ((len + 31) / 32))
              (Z.to_nat ((len' + 31) / 32)) 1 []) as [more Hmore].
  { apply Z2Nat.inj_le; [Z.to_euclidean_division_equations; lia..|].
    apply Z.div_le_mono; lia. }
  rewrite Hmore, take_take.
  rewrite Nat.min_l by lia.
  rewrite take_app_le; [done|].
  rewrite hkdf_blocks_length. simpl.
  assert (len <= 32 * ((len + 31) / 32)).
  { Z.to_euclidean_division_equations. lia. }
  lia.
Qed.

End Hkdf.

(** X9.  [hkdf] with a 32-byte HMAC returns exactly [length] bytes for
    every [length >= 0] (none for a negative one), a shorter output is the
    beginning of a longer one for the same inputs, and a missing or empty
    salt stands for 32 zero bytes. *)
Theorem hkdf_output (hmac_sha256 : list byte -> list byte -> list byte)
    (ikm salt info : list byte) (len len' : Z) :
  (forall key d, length (hmac_sha256 key d) = 32%nat) ->
  (0 <= len -> Z.of_nat (length (hkdf hmac_sha256 ikm salt info len)) = len)
  /\ (len < 0 -> hkdf hmac_sha256 ikm salt info len = [])
  /\ (0 <= len <= len' ->
        hkdf hmac_sha256 ikm salt info len
        = take (Z.to_nat len) (hkdf hmac_sha256 ikm salt info len'))
  /\ hkdf hmac_sha256 ikm [] info len
     = hkdf hmac_sha256 ikm (replicate 32 x00) info len.
Proof.
  intros Hmac. split_and!.
  - intros Hlen. rewrite hkdf_length by done. lia.
  - intros Hlen. unfold hkdf. by replace (Z.to_nat len) with 0%nat by lia.
  - by apply hkdf_prefix.
  - reflexivity.
Qed.

Lemma hkdf_output_witness :
  Z.of_nat (length (hkdf toy_hmac [x01] [] [x02] 80)) = 80.
Proof.
  apply (hkdf_output toy_hmac [x01] [] [x02] 80 80); [reflexivity|lia].
Defined.

(** *** Chat identifiers *)

Lemma remove_non_digits_all s : all_digits (remove_non_digits s) = true.
Proof.
  induction s as [|c s IH]; [done|]. simpl.
  destruct (is_digit c) eqn:E; [|done]. simpl. by rewrite E.
Qed.

Lemma remove_non_digits_id s : all_digits s = true -> remove_non_digits s = s.
Proof.
  induction s as [|c s IH]; [done|]. simpl. intros H.
  apply andb_true_iff in H as [-> H]. by rewrite IH.
Qed.

Lemma remove_non_digits_empty s :
  remove_non_digits s = EmptyString <-> has_digit s = false.
Proof.
  induction s as [|c s IH]; [done|]. simpl.
  destruct (is_digit c); simpl; [split; discriminate|exact IH].
Qed.

Lemma all_digits_app s t :
  all_digits (s +:+ t) = all_digits s && all_digits t.
Proof. induction s as [|c s IH]; [done|]. simpl. by rewrite IH, andb_assoc. Qed.

Lemma formatPhoneNumber_digits s : all_digits (formatPhoneNumber s) = true.
Proof.
  unfold formatPhoneNumber. cbv zeta. case_match.
  - change ("1" +:+ remove_non_digits s) with (String "1" (remove_non_digits s)).
    simpl. apply remove_non_digits_all.
  - apply remove_non_digits_all.
Qed.

Lemma formatPhoneNumber_empty s :
  formatPhoneNumber s = EmptyString <-> has_digit s = false.
Proof.
  unfold formatPhoneNumber. cbv zeta. rewrite <- remove_non_digits_empty.
  destruct (remove_non_digits s) as [|c r] eqn:E; [done|].
  case_match; [|done]. split; discriminate.
Qed.

Lemma after_digits_suffix s t :
  all_digits s = true ->
  after_digits (s +:+ String "@" t) = String "@" t.
Proof.
  induction s as [|c s IH]; [done|]. simpl. intros H.
  apply andb_true_iff in H as [-> H]. by apply IH.
Qed.

Lemma validateChatId_made c r t :
  all_digits (String c r) = true ->
  validateChatId (String c r +:+ String "@" t)
  = String.eqb (String "@" t) "@c.us" || String.eqb (String "@" t) "@g.us"
    || String.eqb (String "@" t) "@s.whatsapp.net".
Proof.
  intros H. simpl in H. apply andb_true_iff in H as [Hc Hr].
  change (String c r +:+ String "@" t) with (String c (r +:+ String "@" t)).
  unfold validateChatId.
  change (after_digits (String c (r +:+ String "@" t)))
    with (if is_digit c then after_digits (r +:+ String "@" t)
          else String c (r +:+ String "@" t)).
  rewrite Hc. by rewrite (after_digits_suffix r t Hr).
Qed.

(** X10.  [formatPhoneNumber] returns digits only and formatting twice
    changes nothing more; the chat id [createChatId] makes is accepted by
    [validateChatId] exactly when the phone number has a digit in it
    (without one the id is ['@c.us'] or ['@g.us'], which is rejected); so
    the chat id [sendMessage] uses is valid exactly when the one given is
    valid or has a digit. *)
Theorem chat_id_of_phone_number (phoneNumber : string) (isGroup : bool) :
  all_digits (formatPhoneNumber phoneNumber) = true
  /\ formatPhoneNumber (formatPhoneNumber phoneNumber) = formatPhoneNumber phoneNumber
  /\ validateChatId (createChatId phoneNumber isGroup) = has_digit phoneNumber
  /\ validateChatId (sendMessage_chatId phoneNumber isGroup)
     = validateChatId phoneNumber || has_digit phoneNumber.
Proof.
  assert (Hvalid : validateChatId (createChatId phoneNumber isGroup)
                   = has_digit phoneNumber).
  { unfold createChatId. cbv zeta.
    pose proof (formatPhoneNumber_digits phoneNumber) as Hd.
    pose proof (formatPhoneNumber_empty phoneNumber) as He.
    destruct (formatPhoneNumber phoneNumber) as [|c r] eqn:E.
    - rewrite (proj1 He eq_refl). destruct isGroup; reflexivity.
    - destruct (has_digit phoneNumber) eqn:Hh;
        [|discriminate (proj2 He eq_refl)].
      destruct isGroup; by rewrite validateChatId_made. }
  split_and!.
  - apply formatPhoneNumber_digits.
  - unfold formatPhoneNumber at 1. cbv zeta.
    rewrite (remove_non_digits_id (formatPhoneNumber phoneNumber))
      by apply formatPhoneNumber_digits.
    unfold formatPhoneNumber. cbv zeta.
    destruct (negb (String.prefix "1" (remove_non_digits phoneNumber))
              && (String.length (remove_non_digits phoneNumber) =? 10)%nat) eqn:E.
    + apply andb_true_iff in E as [_ E]. apply Nat.eqb_eq in E.
      change ("1" +:+ remove_non_digits phoneNumber)
        with (String "1" (remove_non_digits phoneNumber)).
      simpl String.length. rewrite E. simpl.
      by destruct (remove_non_digits phoneNumber).
    + by rewrite E.
  - exact Hvalid.
  - unfold sendMessage_chatId.
    destruct (validateChatId phoneNumber) eqn:E; simpl; [done|exact Hvalid].
Qed.

(** *** Retrying *)

Section RetryFacts.
Context {E A : Type}.
Variable fn : nat -> Result E A.
Variable baseDelay : Z.



End RetryFacts.



End UtilsMoreFacts.

(** ** The cryptography manager *)

Module CryptoFacts.
Import Crypto.

(** X12.  [verify] answers [true] exactly for the signature that [sign]
    returns for the same data and algorithm: a signature of another length,
    a missing MAC key and an algorithm that [createHmac] refuses all give
    [false], none of them an exception. *)
Theorem verify_accepts_what_sign_returns
    (createHmac : string -> list byte -> list byte -> option (list byte))
    (m : CryptoManager) (data signature : list byte) (algorithm : option string) :
  verify createHmac m data signature algorithm = true
  <-> sign createHmac m data algorithm = Ok signature.
Proof.
  unfold verify, sign.
  destruct (macKey m) as [key|]; [|split; discriminate].
  destruct (createHmac _ key data) as [digest|]; [|split; discriminate].
  rewrite UtilsFacts.timingSafeEqual_spec.
  destruct (decide (length signature = length digest)) as [Hlen|Hlen].
  - rewrite bool_decide_eq_true. split; [by intros ->|by intros [= ->]].
  - split; [discriminate|]. intros [= ->]. done.
Qed.

(** X13.  [decryptMedia] checks the MAC of the IV and the ciphertext under
    the media key before it decrypts: with another MAC it throws whatever
    the cipher would have returned, and what [encryptMedia] returns it
    opens, giving the media data back, when the cipher objects undo each
    other. *)
Theorem media_round_trip
    (createHmac : string -> list byte -> list byte -> option (list byte))
    (aes_cbc_encrypt aes_cbc_decrypt :
       list byte -> list byte -> list byte -> Result Utils.CryptoError (list byte))
    (freshKey iv mediaData : list byte) (key : option (list byte)) :
  (forall out,
     (forall k v plain encrypted,
        aes_cbc_encrypt k v plain = Ok encrypted ->
        aes_cbc_decrypt k v encrypted = Ok plain) ->
     encryptMedia createHmac aes_cbc_encrypt freshKey iv mediaData key = Ok out ->
     mediaKey out = default freshKey key /\ Crypto.iv out = iv
     /\ decryptMedia createHmac aes_cbc_decrypt
          (encryptedData out) (mediaKey out) (Crypto.iv out) (mac out)
        = Ok mediaData)
  /\ (forall encrypted k v expectedMac computedMac,
        createHmac "sha256" k (v ++ encrypted) = Some computedMac ->
        expectedMac <> computedMac ->
        exists e, (e = MediaMacVerificationFailed \/ e = Thrown Utils.RangeError)
          /\ forall cipher, decryptMedia createHmac cipher encrypted k v expectedMac = Err e).
Proof.
  split.
  - intros out Hinv. unfold encryptMedia. cbv zeta.
    destruct (aes_cbc_encrypt (default freshKey key) iv mediaData) as [enc|] eqn:E;
      [|done].
    simpl. destruct (createHmac "sha256" _ (iv ++ enc)) as [digest|] eqn:Hmac; [|done].
    intros [= <-]. simpl. split; [done|]. split; [done|].
    unfold decryptMedia. rewrite Hmac, UtilsFacts.timingSafeEqual_spec.
    rewrite decide_True by done. simpl. rewrite bool_decide_true by done. simpl.
    by rewrite (Hinv _ _ _ _ E).
  - intros encrypted k v expectedMac computedMac Hmac Hne.
    destruct (decide (length expectedMac = length computedMac)) as [Hlen|Hlen].
    + exists MediaMacVerificationFailed. split; [by left|]. intros cipher.
      unfold decryptMedia. rewrite Hmac, UtilsFacts.timingSafeEqual_spec.
      rewrite decide_True by done. simpl. by rewrite bool_decide_false.
    + exists (Thrown Utils.RangeError). split; [by right|]. intros cipher.
      unfold decryptMedia. rewrite Hmac, UtilsFacts.timingSafeEqual_spec.
      by rewrite decide_False.
Qed.

Lemma media_round_trip_witness :
  decryptMedia (fun _ _ _ => Some (replicate 32 x00)) Utils.toy_cipher
    [x05; x06] [x01] [x02] (replicate 32 x00)
  = Ok [x05; x06].
Proof.
  destruct (media_round_trip (fun _ _ _ => Some (replicate 32 x00))
              Utils.toy_cipher Utils.toy_cipher [x09] [x02] [x05; x06] (Some [x01]))
    as [H _].
  destruct (H (mkEncryptedMedia [x05; x06] [x01] [x02] (replicate 32 x00)))
    as (_ & _ & Hd).
  - intros k v plain encrypted E. injection E as ->. reflexivity.
  - reflexivity.
  - exact Hd.
Defined.

(** X14.  The HKDF of the manager is the one of [utils.js], and
    [_deriveKeys] splits 64 bytes of it: with a 32-byte HMAC the encryption
    key is the first output block and the MAC key the second, 32 bytes
    each; without a shared secret it throws and sets nothing. *)
Theorem derived_keys_are_the_first_two_blocks
    (hmac_sha256 : list byte -> list byte -> list byte) (m : CryptoManager) :
  (forall key d, length (hmac_sha256 key d) = 32%nat) ->
  (forall ikm salt info len,
     _hkdf hmac_sha256 ikm salt info len = Utils.hkdf hmac_sha256 ikm salt info len)
  /\ (sharedSecret m = None -> _deriveKeys hmac_sha256 m = Err SharedSecretNotAvailable)
  /\ (forall secret, sharedSecret m = Some secret ->
        let info := list_byte_of_string "WhatsApp Web Keys" in
        let prk := hmac_sha256 (replicate 32 x00) secret in
        let t1 := hmac_sha256 prk (info ++ [x01]) in
        let t2 := hmac_sha256 prk (t1 ++ info ++ [x02]) in
        _deriveKeys hmac_sha256 m
        = Ok (mkCryptoManager (privateKey m) (publicKey m) (Some secret)
                (Some t2) (Some t1) (keyPair m))
        /\ length t1 = 32%nat /\ length t2 = 32%nat).
Proof.
  intros Hmac. split_and!.
  - intros ikm salt info len. unfold _hkdf, Utils.hkdf, Utils.hmacSha256.
    destruct salt; [reflexivity|].
    replace (0 <? Z.of_nat (length (b :: salt))) with true; [reflexivity|].
    symmetry. apply Z.ltb_lt. simpl. lia.
  - intros H. unfold _deriveKeys. by rewrite H.
  - intros secret H info prk t1 t2. split; [|split; apply Hmac].
    unfold _deriveKeys. rewrite H. cbv zeta. f_equal.
    unfold _hkdf. cbv zeta.
    change (0 <? Z.of_nat (length (replicate 32 x00))) with true. cbv iota.
    change (Z.to_nat ((64 + 31) / 32)) with 2%nat. simpl Utils.hkdf_blocks.
    fold info. fold prk.
    change (byte_of_Z 1) with x01. change (byte_of_Z (1 + 1)) with x02.
    fold t1. fold t2.
    unfold Binary.slice.
    change (Z.to_nat 64) with 64%nat. change (Z.to_nat (64 - 32)) with 32%nat.
    change (Z.to_nat 32) with 32%nat. change (Z.to_nat 0) with 0%nat.
    change (Z.to_nat (32 - 0)) with 32%nat.
    assert (Ht1 : length t1 = 32%nat) by apply Hmac.
    assert (Ht2 : length t2 = 32%nat) by apply Hmac.
    rewrite (take_ge (t1 ++ t2)) by (rewrite length_app; lia).
    rewrite drop_app_length' by done. rewrite drop_0.
    rewrite take_app_length' by done. by rewrite take_ge by lia.
Qed.

Lemma derived_keys_are_the_first_two_blocks_witness :
  _deriveKeys Utils.toy_hmac (mkCryptoManager None None None None None false)
  = Err SharedSecretNotAvailable.
Proof.
  apply (derived_keys_are_the_first_two_blocks Utils.toy_hmac
           (mkCryptoManager None None None None None false)); reflexivity.
Defined.

End CryptoFacts.

(** ** The connection manager: requests, frames and attempts *)

Module ManagerMoreFacts.
Import Manager ManagerFacts CorrelatorFacts.

#[local] Hint Unfold
  set_ws set_isConnected set_isAuthenticated set_messageQueue
  set_keepAliveTimer set_reconnectTimer set_connectionAttempts set_autoReconnect
  set_lastActivity set_pingInterval set_pongTimeout set_connectionMonitor
  set_clientId set_serverRef set_privateKey set_publicKey
  set_encKey set_macKey set_connectionInfo set_messageSentCount
  set_serverIndex set_connectionState set_armed set_next_id
  set_trace set_now set_entropy_pos set_random_pos
  set_waiters log emit : world.

(** *** Splitting a text frame *)

Lemma append_cons d s t : String d s +:+ t = String d (s +:+ t).
Proof. reflexivity. Qed.

Lemma append_snoc s c t : (s +:+ String c EmptyString) +:+ t = s +:+ String c t.
Proof.
  induction s as [|d s IH]; [done|]. rewrite !append_cons. f_equal. exact IH.
Qed.

Lemma append_empty s : s +:+ EmptyString = s.
Proof.
  induction s as [|d s IH]; [done|]. rewrite append_cons. f_equal. exact IH.
Qed.

Lemma split_comma_piece a rest : forall current,
  no_comma a = true ->
  split_comma (a +:+ String ","%char rest) current
  = (current +:+ a) :: split_comma rest EmptyString.
Proof.
  induction a as [|c a IH]; intros current H.
  - change (EmptyString +:+ String ","%char rest) with (String ","%char rest).
    simpl. by rewrite append_empty.
  - simpl in H. apply andb_true_iff in H as [Hc Ha].
    apply negb_true_iff in Hc. rewrite append_cons. simpl.
    rewrite Hc, IH by done. by rewrite append_snoc.
Qed.

Lemma split_comma_last a : forall current,
  no_comma a = true -> split_comma a current = [current +:+ a].
Proof.
  induction a as [|c a IH]; intros current H; simpl.
  - by rewrite append_empty.
  - simpl in H. apply andb_true_iff in H as [Hc Ha].
    apply negb_true_iff in Hc. rewrite Hc, IH by done. by rewrite append_snoc.
Qed.

Lemma split_limit2_two tag a :
  no_comma tag = true -> no_comma a = true ->
  split_limit2 (tag +:+ String ","%char a) = [tag; a].
Proof.
  intros Ht Ha. unfold split_limit2.
  by rewrite split_comma_piece, split_comma_last.
Qed.

Lemma split_limit2_more tag a b :
  no_comma tag = true -> no_comma a = true ->
  split_limit2 (tag +:+ String ","%char (a +:+ String ","%char b)) = [tag; a].
Proof.
  intros Ht Ha. unfold split_limit2.
  by rewrite !split_comma_piece.
Qed.

(** X15.  Of a text frame [tag,a,b] only the tag and the piece [a] up to
    the second comma are used: the frame is handled as the frame [tag,a] is,
    whatever [b] is, so a response whose JSON text has a comma in it reaches
    [JSON.parse] cut at that comma; and a frame without any comma is dropped
    unless its whole text is a pending tag. *)
Theorem text_after_the_second_comma_is_ignored
    (JSON_parse : string -> option Json)
    (Buffer_from_base64 : option Json -> Result JsError (list byte))
    (base64 : list byte -> string)
    (hmac_sha256 : list byte -> list byte -> list byte)
    (aes_cbc_encrypt :
       list byte -> list byte -> list byte -> Result Utils.CryptoError (list byte))
    (createDecipherGCM : list byte -> list byte -> list byte -> Result JsError (list byte))
    (tag a b : string) (w : World) :
  let handleText :=
    _handleTextMessage JSON_parse Buffer_from_base64 base64 hmac_sha256
      aes_cbc_encrypt createDecipherGCM in
  no_comma tag = true -> no_comma a = true ->
  handleText (tag +:+ String ","%char (a +:+ String ","%char b)) w
    = handleText (tag +:+ String ","%char a) w
  /\ tag_of (tag +:+ String ","%char (a +:+ String ","%char b)) = tag
  /\ content_of (tag +:+ String ","%char (a +:+ String ","%char b)) = Some a
  /\ (messageQueue w !! tag = None -> handleText tag w = w).
Proof.
  intros handleText Ht Ha. subst handleText. unfold _handleTextMessage, tag_of, content_of.
  rewrite split_limit2_more, split_limit2_two by done. split_and!; try done.
  intros Hq. unfold split_limit2. rewrite split_comma_last by done.
  change (EmptyString +:+ tag) with tag. simpl. by rewrite Hq.
Qed.

Lemma text_after_the_second_comma_is_ignored_witness :
  content_of "1700000000,[200,7]" = Some "[200".
Proof.
  apply (text_after_the_second_comma_is_ignored demo_parse demo_buffer demo_base64
           demo_hmac demo_cipher demo_gcm "1700000000" "[200" "7]" fresh); reflexivity.
Defined.

(** *** The rotation of the servers *)

(** X16.  [_getNextServer] goes round the four servers: it returns the
    one the index stands at, moves the index to the next one, back to the
    first after the last, and four calls in a row return every server once
    and leave the manager as it was; a [connect()] that starts an attempt
    opens the socket to the server so returned. *)
Theorem servers_are_used_in_turn (w : World) :
  0 <= serverIndex w < 4 ->
  WA_WEB_SERVERS !! Z.to_nat (serverIndex w) = Some (_getNextServer w).1
  /\ serverIndex (_getNextServer w).2 = (serverIndex w + 1) mod 4
  /\ 0 <= serverIndex (_getNextServer w).2 < 4
  /\ (next_servers 4 w).1 ≡ₚ WA_WEB_SERVERS
  /\ (next_servers 4 w).2 = w
  /\ (connectionState w = disconnected ->
        WsNew (_getNextServer w).1 ∈ added w (connect false w)).
Proof.
  intros Hi.
  assert (Hcases : serverIndex w = 0 \/ serverIndex w = 1 \/ serverIndex w = 2
                   \/ serverIndex w = 3) by lia.
  destruct w. simpl in *.
  destruct Hcases as [-> | [-> | [-> | ->]]]; split_and!; try done; try lia.
  all: try (cbn; match goal with
            | |- [?a; ?b; ?c; ?d] ≡ₚ _ =>
                first [ reflexivity
                      | by rewrite (Permutation_app_comm [a] [b; c; d])
                      | by rewrite (Permutation_app_comm [a; b] [c; d])
                      | by rewrite (Permutation_app_comm [a; b; c] [d]) ]
            end).
  all: intros ->; unfold added, connect, _getNextServer, setTimeout, setTimer;
    autounfold with world; destruct ws0; simpl; rewrite <- ?app_assoc;
    rewrite drop_app_length; simpl; rewrite ?elem_of_cons; tauto.
Qed.

Lemma servers_are_used_in_turn_witness :
  (next_servers 4 fresh).2 = fresh.
Proof.
  apply (servers_are_used_in_turn fresh). simpl. lia.
Defined.

(** *** The private key *)

Lemma clamp_low b :
  Z.land (byte_to_Z (byte_of_Z (Z.land (byte_to_Z b) 248))) 7 = 0
  /\ byte_of_Z (Z.land (byte_to_Z (byte_of_Z (Z.land (byte_to_Z b) 248))) 248)
     = byte_of_Z (Z.land (byte_to_Z b) 248).
Proof. destruct b; split; reflexivity. Qed.

Lemma clamp_high b :
  let b' := byte_of_Z (Z.lor (byte_to_Z (byte_of_Z (Z.land (byte_to_Z b) 127))) 64) in
  64 <= byte_to_Z b' < 128
  /\ byte_of_Z (Z.lor (byte_to_Z (byte_of_Z (Z.land (byte_to_Z b') 127))) 64) = b'.
Proof.
  destruct b; (split; [vm_compute; split; [discriminate|reflexivity]|reflexivity]).
Qed.

Lemma clamp_lookup key i :
  clamp key !! i =
    if decide (i = 0%nat) then
      (fun b => byte_of_Z (Z.land (byte_to_Z b) 248)) <$> key !! i
    else if decide (i = 31%nat) then
      (fun b => byte_of_Z (Z.lor (byte_to_Z (byte_of_Z (Z.land (byte_to_Z b) 127))) 64))
        <$> key !! i
    else key !! i.
Proof.
  unfold clamp. destruct (decide (i = 0%nat)) as [->|H0].
  - rewrite !list_lookup_alter_ne by lia. by rewrite list_lookup_alter_eq.
  - destruct (decide (i = 31%nat)) as [->|H31].
    + rewrite list_lookup_alter_eq, list_lookup_alter_eq, list_lookup_alter_ne by lia.
      by destruct (key !! 31%nat).
    + by rewrite !list_lookup_alter_ne by lia.
Qed.

(** X17.  The private key of a generated key pair is clamped as Curve25519
    asks: [clamp] keeps the length, clears the three low bits of the first
    byte, clears the top bit and sets the next one of the 32nd, leaves the
    bytes between as they are, and clamping twice is clamping once;
    [_generateKeyPair] returns the clamp of 32 random bytes. *)
Theorem private_key_is_clamped (key : list byte) (w : World) :
  length key = 32%nat ->
  length (clamp key) = 32%nat
  /\ (exists b0 b31,
        clamp key !! 0%nat = Some b0 /\ clamp key !! 31%nat = Some b31
        /\ Z.land (byte_to_Z b0) 7 = 0 /\ 64 <= byte_to_Z b31 < 128)
  /\ (forall i, (0 < i < 31)%nat -> clamp key !! i = key !! i)
  /\ clamp (clamp key) = clamp key
  /\ (_generateKeyPair w).1.1 = clamp (map (entropy w) (seq (entropy_pos w) 32))
  /\ length (_generateKeyPair w).1.1 = 32%nat.
Proof.
  intros Hlen.
  assert (Hclamp_len : forall k, length (clamp k) = length k).
  { intros k. unfold clamp. by rewrite !length_alter. }
  split_and!.
  - by rewrite Hclamp_len.
  - destruct (lookup_lt_is_Some_2 key 0%nat ltac:(lia)) as [b0 Hb0].
    destruct (lookup_lt_is_Some_2 key 31%nat ltac:(lia)) as [b31 Hb31].
    eexists _, _. rewrite !clamp_lookup, Hb0, Hb31. simpl.
    split; [done|]. split; [done|].
    split; [apply clamp_low|apply (clamp_high b31)].
  - intros i Hi. rewrite clamp_lookup.
    destruct (decide (i = 0%nat)); [lia|]. destruct (decide (i = 31%nat)); [lia|done].
  - apply list_eq. intros i. rewrite !clamp_lookup.
    destruct (decide (i = 0%nat)) as [->|].
    + destruct (key !! 0%nat) as [b|]; [|done]. simpl. f_equal. apply clamp_low.
    + destruct (decide (i = 31%nat)) as [->|]; [|done].
      destruct (key !! 31%nat) as [b|]; [|done]. simpl. f_equal.
      apply (clamp_high b).
  - reflexivity.
  - change (length (clamp (map (entropy w) (seq (entropy_pos w) 32))) = 32%nat).
    by rewrite Hclamp_len, length_map, length_seq.
Qed.

Lemma private_key_is_clamped_witness :
  clamp (clamp (replicate 32 xff)) = clamp (replicate 32 xff).
Proof.
  apply (private_key_is_clamped (replicate 32 xff) fresh). reflexivity.
Defined.

(** *** The socket's close event *)

(** X18.  The close handler does not touch the connection state nor any
    timer and schedules no reconnect: after the socket has closed the state
    is what it was, so a [connect()] in state Connected still does nothing;
    it is the next keep-alive probe, finding the socket not open, that runs
    the dead-connection path. *)
Theorem close_event_leaves_recovery_to_the_probe (w : World) (code : Z) :
  keepAliveTimer w = None ->
  let w' := _handleClose code (set_ws (Some CLOSED) w) in
  w' = set_trace (trace w ++ [Emit "disconnected" (CloseArg code)])
         (set_isAuthenticated false (set_isConnected false (set_ws (Some CLOSED) w)))
  /\ connectionState w' = connectionState w
  /\ armed w' = armed w /\ handles w' = handles w
  /\ count is_reconnect_timer (added w w') = 0%nat
  /\ (connectionState w = connected \/ connectionState w = connecting ->
        forall reconnecting, connect reconnecting w' = w')
  /\ keepAlivePing w' = _handleConnectionDead w'.
Proof.
  intros Hk w'. subst w'. destruct w. simpl in Hk. subst.
  split_and!; try reflexivity.
  - unfold added. simpl. by rewrite drop_app_length.
  - simpl. intros Hs reconnecting. unfold connect. simpl.
    by destruct Hs as [-> | ->].
Qed.

Lemma close_event_leaves_recovery_to_the_probe_witness :
  connectionState (_handleClose 1006 (set_ws (Some CLOSED) opened)) = connected.
Proof.
  apply (close_event_leaves_recovery_to_the_probe opened 1006). reflexivity.
Defined.

(** *** Handles are fresh *)

Lemma fresh_timer_filter (l : list Timer) id :
  Forall (fun t => (timer_id t < id)%nat) l ->
  filter (fun t => timer_id t = id) l = [] /\ disarm id l = l.
Proof.
  induction 1 as [|t l Ht _ [IH1 IH2]]; [done|]. unfold disarm in *.
  rewrite filter_cons_False by lia. rewrite filter_cons_True by lia.
  by rewrite IH1, IH2.
Qed.

Lemma fresh_waiter_filter (l : list Waiter) id :
  Forall (fun x => (waiter_timeout x < id)%nat) l ->
  filter (fun x => waiter_timeout x = id) l = [].
Proof.
  induction 1 as [|x l Hx _ IH]; [done|]. by rewrite filter_cons_False by lia.
Qed.

Lemma fire_last (w : World) (l : list Timer) (t : Timer) :
  armed w = l ++ [t] -> repeats t = false ->
  Forall (fun t' => (timer_id t' < timer_id t)%nat) l ->
  fire (timer_id t) w = run_callback t (set_armed l w).
Proof.
  intros Ha Hr Hl. unfold fire. rewrite Ha, filter_app.
  destruct (fresh_timer_filter l (timer_id t) Hl) as [-> Hd].
  rewrite filter_cons_True by done. simpl. rewrite Hr.
  unfold disarm in *. rewrite filter_app, Hd.
  by rewrite filter_cons_False, filter_nil, app_nil_r by (intros H; by apply H).
Qed.

(** *** An attempt that times out *)

Lemma connect_eq reconnecting w :
  connectionState w <> connecting -> connectionState w <> connected ->
  connect reconnecting w =
    let closing :=
      match ws w with
      | Some _ => [WsRemoveAllListeners; WsTerminate]
      | None => []
      end in
    let timer :=
      mkTimer (next_id w) ConnectTimeout (inject_Z (connectionTimeout w)) false in
    set_waiters (waiters w ++ [mkWaiter (next_id w) reconnecting false true true])
      (set_trace (trace w ++ closing ++ [WsNew (_getNextServer w).1; SetTimer timer])
        (set_next_id (S (next_id w))
          (set_armed (armed w ++ [timer])
            (set_ws (Some CONNECTING)
              (set_serverIndex (serverIndex (_getNextServer w).2)
                (set_connectionAttempts (connectionAttempts w + 1)
                  (set_connectionState connecting w))))))).
Proof.
  intros H1 H2. destruct w. simpl in *.
  unfold connect, _getNextServer, setTimeout, setTimer. simpl.
  destruct connectionState0; try done; destruct ws0; world_eq.
Qed.

Lemma connect_catch_eq reconnecting error w :
  connect_catch reconnecting error w =
    let failure :=
      if reconnecting
      then Emit "reconnect_failed" (ErrorArg (ConnectionFailed error))
      else ConnectRejected (ConnectionFailed error) in
    let retry :=
      mkTimer (next_id w) Reconnect
        (backoffDelay (reconnectDelay w) (connectionAttempts w)
           (math_random w (random_pos w))) false in
    if autoReconnect w && (connectionAttempts w <? maxReconnectAttempts w) then
      set_trace (trace w ++ [SetTimer retry; failure])
        (set_reconnectTimer (Some (next_id w))
          (set_next_id (S (next_id w))
            (set_armed (armed w ++ [retry])
              (set_random_pos (S (random_pos w))
                (set_connectionState disconnected w)))))
    else
      set_trace (trace w ++ [Emit "connection_failed" (ErrorArg error); failure])
        (set_connectionState disconnected w).
Proof.
  destruct w. unfold connect_catch, _calculateBackoffDelay, Math_random, setTimeout,
    setTimer. simpl.
  destruct autoReconnect0, (connectionAttempts0 <? maxReconnectAttempts0), reconnecting;
    world_eq.
Qed.

(** X19.  A [connect()] that starts an attempt arms its timeout; when that
    fires the state is Disconnected again, the attempt counter keeps the one
    added, and the call fails with ['Connection failed: Connection
    timeout'] (as ['reconnect_failed'] when a reconnect timer had made the
    call); a reconnect is scheduled, with the back-off delay for the new
    count, when auto-reconnect is on and the count is below
    [maxReconnectAttempts], and otherwise ['connection_failed'] is emitted
    and nothing is scheduled. *)
Theorem attempt_that_times_out (w : World) (reconnecting : bool) :
  connectionState w <> connecting -> connectionState w <> connected ->
  fresh_ids w ->
  let t := next_id w in
  let w1 := connect reconnecting w in
  let w2 := fire t w1 in
  let failure :=
    if reconnecting
    then Emit "reconnect_failed" (ErrorArg (ConnectionFailed ConnectionTimeout))
    else ConnectRejected (ConnectionFailed ConnectionTimeout) in
  let retry :=
    mkTimer (S t) Reconnect
      (backoffDelay (reconnectDelay w) (connectionAttempts w + 1)
         (math_random w (random_pos w))) false in
  connectionState w1 = connecting
  /\ armed w1 = armed w ++ [mkTimer t ConnectTimeout (inject_Z (connectionTimeout w)) false]
  /\ connectionState w2 = disconnected
  /\ connectionAttempts w2 = connectionAttempts w + 1
  /\ (if autoReconnect w && (connectionAttempts w + 1 <? maxReconnectAttempts w)
      then armed w2 = armed w ++ [retry] /\ reconnectTimer w2 = Some (S t)
           /\ added w1 w2 = [SetTimer retry; failure]
      else armed w2 = armed w /\ reconnectTimer w2 = reconnectTimer w
           /\ added w1 w2
              = [Emit "connection_failed" (ErrorArg ConnectionTimeout); failure]).
Proof.
  intros H1 H2 (Ha & Hw & _) t w1 w2 failure retry.
  pose proof (connect_eq reconnecting w H1 H2) as Hw1. cbv zeta in Hw1. fold w1 t in Hw1.
  clearbody w1.
  assert (Harmed : armed w1
            = armed w ++ [mkTimer t ConnectTimeout (inject_Z (connectionTimeout w)) false])
    by (rewrite Hw1; reflexivity).
  assert (Hwaiters : waiters w1
            = waiters w ++ [mkWaiter t reconnecting false true true])
    by (rewrite Hw1; reflexivity).
  assert (Hfire : w2 = connectTimeout t (set_armed (armed w) w1)).
  { subst w2.
    exact (fire_last w1 (armed w)
             (mkTimer t ConnectTimeout (inject_Z (connectionTimeout w)) false)
             Harmed eq_refl Ha). }
  clearbody w2.
  assert (Hw2 : w2 = connect_catch reconnecting ConnectionTimeout
            (set_waiters (waiters w ++ [mkWaiter t reconnecting true true true])
               (set_connectionState disconnected (set_armed (armed w) w1)))).
  { rewrite Hfire. unfold connectTimeout.
    change (waiters (set_connectionState disconnected (set_armed (armed w) w1)))
      with (waiters w1).
    rewrite Hwaiters, filter_app, (fresh_waiter_filter (waiters w) t Hw).
    rewrite filter_cons_True by done. simpl. f_equal. f_equal.
    rewrite map_app. simpl. rewrite bool_decide_true by done. f_equal.
    rewrite <- (map_id (waiters w)) at 2. apply map_ext_in. intros x Hx.
    rewrite bool_decide_false; [done|].
    apply list_elem_of_In in Hx. rewrite Forall_forall in Hw.
    specialize (Hw x Hx). lia. }
  split; [by rewrite Hw1|]. split; [exact Harmed|].
  rewrite Hw2, connect_catch_eq. cbv zeta.
  change (autoReconnect (set_waiters _ _)) with (autoReconnect w1).
  change (connectionAttempts (set_waiters _ _)) with (connectionAttempts w1).
  change (maxReconnectAttempts (set_waiters _ _)) with (maxReconnectAttempts w1).
  assert (Hfields : autoReconnect w1 = autoReconnect w
            /\ connectionAttempts w1 = connectionAttempts w + 1
            /\ maxReconnectAttempts w1 = maxReconnectAttempts w
            /\ next_id w1 = S t /\ reconnectDelay w1 = reconnectDelay w
            /\ math_random w1 = math_random w /\ random_pos w1 = random_pos w
            /\ reconnectTimer w1 = reconnectTimer w)
    by (rewrite Hw1; done).
  destruct Hfields as (-> & Hattempts & -> & _).
  rewrite Hattempts. clear Hw2 Hfire Harmed Hwaiters Hattempts. subst w1.
  destruct (autoReconnect w && (connectionAttempts w + 1 <? maxReconnectAttempts w)).
  - split_and!; try reflexivity. by apply added_app.
  - split_and!; try reflexivity. by apply added_app.
Qed.

Lemma attempt_that_times_out_witness :
  connectionState (fire 0 (connect false fresh)) = disconnected.
Proof.
  apply (attempt_that_times_out fresh false); [discriminate|discriminate|].
  split_and!; [constructor|constructor|].
  intros p (tag & item & H & _). simpl in H. by rewrite lookup_empty in H.
Defined.

(** *** Requests and their timeouts *)

Section Requests.
Variable JSON_parse : string -> option Json.
Variable Buffer_from_base64 : option Json -> Result JsError (list byte).
Variable base64 : list byte -> string.
Variable toISOString : Z -> string.
Variable hmac_sha256 : list byte -> list byte -> list byte.
Variable aes_cbc_encrypt : list byte -> list byte -> list byte -> Result Utils.CryptoError (list byte).
Variable aes_cbc_decrypt : list byte -> list byte -> list byte -> Result Utils.CryptoError (list byte).
Variable createDecipherGCM : list byte -> list byte -> list byte -> Result JsError (list byte).
Variable toPropertyKey : Binary.Value -> option string.

Local Abbreviation handleText :=
  (_handleTextMessage JSON_parse Buffer_from_base64 base64 hmac_sha256
     aes_cbc_encrypt createDecipherGCM).
Local Abbreviation handle :=
  (_handleMessage JSON_parse Buffer_from_base64 base64 hmac_sha256
     aes_cbc_encrypt aes_cbc_decrypt createDecipherGCM toPropertyKey).
Local Abbreviation auth := (initializeAuth base64 toISOString).

Lemma initializeAuth_open w :
  socket_open w = true ->
  auth w =
    let tag := Binary.number_toString (getTimestamp w) in
    let p := next_id w in
    set_trace (trace w ++ [WsSendMessage tag (init_message base64 toISOString w);
                           SetTimer (auth_timeout (S p) tag p)])
      (set_next_id (S (S p))
        (set_armed (armed w ++ [auth_timeout (S p) tag p])
          (set_messageQueue
             (<[tag := mkItem "_login" (Some p) (Some p)]> (messageQueue w))
             (set_clientId (Some (base64 (map (entropy w) (seq (entropy_pos w) 16))))
                (set_entropy_pos (entropy_pos w + 16) w))))).
Proof.
  intros Hopen. destruct w. unfold socket_open in Hopen. simpl in Hopen.
  unfold initializeAuth, randomBytes, _sendMessage, socket_open, getTimestamp,
    newPromise, setTimeout, setTimer, init_message, auth_timeout. simpl.
  destruct ws0 as [[]|]; try done. simpl. rewrite insert_insert_eq. world_eq.
Qed.

Lemma initializeAuth_closed w :
  socket_open w = false ->
  auth w =
    let tag := Binary.number_toString (getTimestamp w) in
    set_trace (trace w ++ [Throws WebSocketNotConnected])
      (set_messageQueue (<[tag := mkItem "_login" None None]> (messageQueue w))
         (set_clientId (Some (base64 (map (entropy w) (seq (entropy_pos w) 16))))
            (set_entropy_pos (entropy_pos w + 16) w))).
Proof.
  intros Hopen. destruct w. unfold socket_open in Hopen. simpl in Hopen.
  unfold initializeAuth, randomBytes, _sendMessage, socket_open, getTimestamp. simpl.
  destruct ws0 as [[]|]; try done; world_eq.
Qed.

Lemma fire_one (w : World) (l r : list Timer) (t : Timer) :
  armed w = l ++ t :: r -> repeats t = false ->
  Forall (fun t' => timer_id t' <> timer_id t) l ->
  Forall (fun t' => timer_id t' <> timer_id t) r ->
  fire (timer_id t) w = run_callback t (set_armed (l ++ r) w).
Proof.
  intros Ha Hr Hl Hrest. unfold fire. rewrite Ha, filter_app.
  assert (Hnone : forall k, Forall (fun t' => timer_id t' <> timer_id t) k ->
            filter (fun t' => timer_id t' = timer_id t) k = []
            /\ disarm (timer_id t) k = k).
  { induction 1 as [|x k Hx _ [IH1 IH2]]; [done|]. unfold disarm in *.
    rewrite filter_cons_False by done. rewrite filter_cons_True by done.
    by rewrite IH1, IH2. }
  destruct (Hnone l Hl) as [-> Hdl]. destruct (Hnone r Hrest) as [Hfr Hdr].
  rewrite filter_cons_True by done. simpl. rewrite Hr.
  unfold disarm in *. rewrite filter_app, Hdl.
  by rewrite filter_cons_False, Hdr by (intros H; by apply H).
Qed.

Lemma fresh_below (l : list Timer) n id :
  Forall (fun t => (timer_id t < n)%nat) l -> (n <= id)%nat ->
  Forall (fun t => timer_id t <> id) l.
Proof. intros H Hn. eapply Forall_impl; [exact H|]. simpl. lia. Qed.

(** X20.  A request registered by [initializeAuth] on an open socket is
    settled by its timeout when no response comes: the timer removes the
    entry and rejects the promise with ['Authentication initialization
    timeout'], once, and disarms itself; when a response with the tag has
    been handled before, the entry is gone and the timer's callback does
    nothing. *)
Theorem request_without_response_times_out (w : World) :
  socket_open w = true -> fresh_ids w ->
  let tag := Binary.number_toString (getTimestamp w) in
  let p := next_id w in
  let t := S p in
  let w1 := auth w in
  messageQueue w1 = <[tag := mkItem "_login" (Some p) (Some p)]> (messageQueue w)
  /\ armed w1 = armed w ++ [auth_timeout t tag p]
  /\ added w w1 = [WsSendMessage tag (init_message base64 toISOString w);
                   SetTimer (auth_timeout t tag p)]
  /\ (let w2 := fire t w1 in
      messageQueue w2 = delete tag (messageQueue w)
      /\ armed w2 = armed w
      /\ added w1 w2 = [Reject p AuthInitTimeout])
  /\ (forall message, tag_of message = tag ->
        let w2 := handleText message w1 in
        messageQueue w2 !! tag = None
        /\ (count is_settle (added w1 w2) <= 1)%nat
        /\ requestTimeout tag p AuthInitTimeout w2 = w2).
Proof.
  intros Hopen (Ha & _ & _) tag p t w1.
  pose proof (initializeAuth_open w Hopen) as Hw1. cbv zeta in Hw1.
  fold tag p t w1 in Hw1. clearbody w1.
  assert (Hq : messageQueue w1
               = <[tag := mkItem "_login" (Some p) (Some p)]> (messageQueue w))
    by (subst w1; reflexivity).
  assert (Harmed : armed w1 = armed w ++ [auth_timeout t tag p])
    by (subst w1; reflexivity).
  split; [exact Hq|]. split; [exact Harmed|].
  split; [apply added_app; by subst w1|]. split.
  - assert (Hfire : fire t w1
              = requestTimeout tag p AuthInitTimeout (set_armed (armed w ++ []) w1)).
    { apply (fire_one w1 (armed w) [] (auth_timeout t tag p)); [done|done| |done].
      apply (fresh_below _ (next_id w)); [done|]. simpl. lia. }
    cbv zeta. rewrite Hfire, app_nil_r. unfold requestTimeout.
    change (messageQueue (set_armed (armed w) w1)) with (messageQueue w1).
    rewrite Hq, lookup_insert_eq. split_and!.
    + simpl. by rewrite delete_insert_eq.
    + reflexivity.
    + by apply added_app.
  - intros message Htag w2.
    destruct (handleTextMessage_pending JSON_parse Buffer_from_base64 base64
                hmac_sha256 aes_cbc_encrypt createDecipherGCM message
                (mkItem "_login" (Some p) (Some p)) w1) as [Hq2 (l & Ht & Hone)].
    { by rewrite Htag, Hq, lookup_insert_eq. }
    fold w2 in Hq2, Ht.
    assert (Hnone : messageQueue w2 !! tag = None).
    { by rewrite Hq2, Htag, lookup_delete_eq. }
    split; [exact Hnone|]. split.
    + rewrite (added_app _ _ _ Ht). by eapply one_settle_count.
    + unfold requestTimeout. by rewrite Hnone.
Qed.

(** X21.  Two [initializeAuth] calls within the same second share their
    tag.  The second takes the place of the first in the map of pending
    requests; the first timeout to fire removes that entry and rejects the
    first promise; the second timeout then finds nothing and does nothing.
    So when no response comes the second promise is never settled: after
    both timers nothing holds its callbacks, and no later frame invokes
    them. *)
Theorem requests_in_the_same_second_share_a_tag (w : World) (ms : Z)
    (frames : list Frame) :
  socket_open w = true -> fresh_ids w ->
  getTimestamp (advance ms w) = getTimestamp w ->
  let tag := Binary.number_toString (getTimestamp w) in
  let p1 := next_id w in
  let p2 := S (S p1) in
  let w2 := auth (advance ms (auth w)) in
  let w3 := fire (S p1) w2 in
  let w4 := fire (S p2) w3 in
  messageQueue w2 = <[tag := mkItem "_login" (Some p2) (Some p2)]> (messageQueue w)
  /\ armed w2 = armed w ++ [auth_timeout (S p1) tag p1; auth_timeout (S p2) tag p2]
  /\ added w2 w3 = [Reject p1 AuthInitTimeout]
  /\ messageQueue w3 = delete tag (messageQueue w)
  /\ added w3 w4 = []
  /\ armed w4 = armed w
  /\ ~ holds p2 w4
  /\ count (settles_of p2)
       (added w4 (foldl (fun w frame => handle frame w) w4 frames)) = 0%nat.
Proof.
  intros Hopen (Ha & _ & Hp) Hsame tag p1 p2 w2 w3 w4.
  pose proof (initializeAuth_open w Hopen) as Hw1. cbv zeta in Hw1. fold tag p1 in Hw1.
  set (w1 := auth w) in *.
  assert (Hopen1 : socket_open (advance ms w1) = true).
  { rewrite Hw1. exact Hopen. }
  pose proof (initializeAuth_open (advance ms w1) Hopen1) as Hw2. cbv zeta in Hw2.
  assert (Htag : Binary.number_toString (getTimestamp (advance ms w1)) = tag).
  { subst tag. rewrite <- Hsame. by rewrite Hw1. }
  rewrite Htag in Hw2. fold w2 in Hw2.
  assert (Hnext : next_id (advance ms w1) = p2) by (rewrite Hw1; reflexivity).
  rewrite Hnext in Hw2.
  clearbody w1 w2. subst w1.
  assert (Hq2 : messageQueue w2
                = <[tag := mkItem "_login" (Some p2) (Some p2)]> (messageQueue w)).
  { subst w2. simpl. by rewrite insert_insert_eq. }
  assert (Ha2 : armed w2
                = armed w ++ [auth_timeout (S p1) tag p1; auth_timeout (S p2) tag p2]).
  { subst w2. simpl. by rewrite <- app_assoc. }
  clear Hw2 Hopen1 Htag Hnext.
  assert (Hw3 : w3 = requestTimeout tag p1 AuthInitTimeout
                       (set_armed (armed w ++ [auth_timeout (S p2) tag p2]) w2)).
  { subst w3.
    apply (fire_one w2 (armed w) [auth_timeout (S p2) tag p2] (auth_timeout (S p1) tag p1));
      [done|done| |].
    - apply (fresh_below _ (next_id w)); [done|]. simpl. lia.
    - constructor; [simpl; lia|constructor]. }
  assert (Hw3' : w3 = set_trace (trace w2 ++ [Reject p1 AuthInitTimeout])
                        (set_messageQueue (delete tag (messageQueue w))
                           (set_armed (armed w ++ [auth_timeout (S p2) tag p2]) w2))).
  { rewrite Hw3. unfold requestTimeout.
    change (messageQueue (set_armed _ w2)) with (messageQueue w2).
    rewrite Hq2, lookup_insert_eq. simpl. by rewrite delete_insert_eq. }
  clear Hw3. clearbody w3.
  assert (Hw4 : w4 = requestTimeout tag p2 AuthInitTimeout (set_armed (armed w ++ []) w3)).
  { subst w4.
    apply (fire_one w3 (armed w) [] (auth_timeout (S p2) tag p2));
      [by subst w3|done| |done].
    apply (fresh_below _ (next_id w)); [done|]. simpl. lia. }
  assert (Hw4' : w4 = set_armed (armed w) w3).
  { rewrite Hw4, app_nil_r. unfold requestTimeout.
    change (messageQueue (set_armed (armed w) w3)) with (messageQueue w3).
    subst w3. simpl. by rewrite lookup_delete_eq. }
  clear Hw4. clearbody w4.
  assert (Hholds : ~ holds p2 w4).
  { intros (t & item & Hl & Hi). subst w4 w3. simpl in Hl.
    apply lookup_delete_Some in Hl as [_ Hl].
    specialize (Hp p2 ltac:(by exists t, item)). lia. }
  split; [exact Hq2|]. split; [exact Ha2|].
  split; [apply added_app; by subst w3|]. split; [by subst w3|].
  split; [apply added_app; subst w4; simpl; by rewrite app_nil_r|].
  split; [by subst w4|]. split; [exact Hholds|].
  destruct (handleMessages_holds JSON_parse Buffer_from_base64 base64 hmac_sha256
              aes_cbc_encrypt aes_cbc_decrypt createDecipherGCM toPropertyKey
              frames p2 w4 Hholds) as [_ (l & Ht & Hc)].
  by rewrite (added_app _ _ _ Ht).
Qed.

(** X22.  A request on a socket that is not open throws ['WebSocket not
    connected'], but only after it has changed the manager.
    [initializeAuth] has by then replaced the client id and put its entry,
    still without callbacks, in the map of pending requests: nothing removes
    it but a frame carrying its tag, which it then consumes without anything
    being resolved or rejected.  [loginWithSession] has by then replaced the
    client id, the tokens and the two keys. *)
Theorem request_on_a_socket_that_is_not_open (w : World) (session : Credentials) :
  socket_open w = false ->
  let tag := Binary.number_toString (getTimestamp w) in
  let w1 := auth w in
  let w1' := loginWithSession session w in
  added w w1 = [Throws WebSocketNotConnected]
  /\ armed w1 = armed w
  /\ messageQueue w1 = <[tag := mkItem "_login" None None]> (messageQueue w)
  /\ clientId w1 = Some (base64 (map (entropy w) (seq (entropy_pos w) 16)))
  /\ (forall message, tag_of message = tag ->
        let w2 := handleText message w1 in
        messageQueue w2 = delete tag (messageQueue w)
        /\ count is_settle (added w1 w2) = 0%nat)
  /\ added w w1' = [Throws WebSocketNotConnected]
  /\ messageQueue w1' = messageQueue w /\ armed w1' = armed w
  /\ clientId w1' = cred_clientId session
  /\ encKey w1' = Some (cred_encKey session)
  /\ macKey w1' = Some (cred_macKey session)
  /\ clientToken (connectionInfo w1') = cred_clientToken session
  /\ serverToken (connectionInfo w1') = cred_serverToken session.
Proof.
  intros Hclosed tag w1 w1'.
  pose proof (initializeAuth_closed w Hclosed) as Hw1. cbv zeta in Hw1.
  fold tag w1 in Hw1. clearbody w1.
  assert (Hw1' : w1' = set_trace (trace w ++ [Throws WebSocketNotConnected])
            (set_macKey (Some (cred_macKey session))
               (set_encKey (Some (cred_encKey session))
                  (set_connectionInfo
                     (mkConnectionInfo (cred_clientToken session)
                        (cred_serverToken session) (browserToken (connectionInfo w))
                        (secret (connectionInfo w)) (sharedSecret (connectionInfo w))
                        (me (connectionInfo w)) (pushname (connectionInfo w)))
                     (set_clientId (cred_clientId session) w))))).
  { subst w1'. destruct w. unfold socket_open in Hclosed. simpl in Hclosed.
    unfold loginWithSession, _sendMessage, socket_open. simpl.
    destruct ws0 as [[]|]; try done; world_eq. }
  clearbody w1'.
  assert (Hq : messageQueue w1 = <[tag := mkItem "_login" None None]> (messageQueue w))
    by (subst w1; reflexivity).
  split_and!; try (by subst w1); try (by subst w1').
  - apply added_app. by subst w1.
  - intros message Htag w2.
    destruct (handleTextMessage_pending JSON_parse Buffer_from_base64 base64
                hmac_sha256 aes_cbc_encrypt createDecipherGCM message
                (mkItem "_login" None None) w1) as [Hq2 (l & Ht & Hone)].
    { by rewrite Htag, Hq, lookup_insert_eq. }
    fold w2 in Hq2, Ht. split.
    + by rewrite Hq2, Htag, Hq, delete_insert_eq.
    + rewrite (added_app _ _ _ Ht).
      destruct Hone as (pre & mid & post & -> & Hpre & Hpost & Hmid).
      rewrite !count_app, Hpre, Hpost.
      by destruct Hmid as [->|[(q & v & Hr & _)|(q & e & Hr & _)]].
  - apply added_app. by subst w1'.
Qed.

End Requests.

Lemma fresh_ids_opened : fresh_ids opened.
Proof.
  split_and!.
  - repeat constructor.
  - repeat constructor.
  - intros p (tag & item & H & _). simpl in H. by rewrite lookup_empty in H.
Qed.

Lemma request_without_response_times_out_witness :
  added (initializeAuth demo_base64 demo_date opened)
    (fire 4 (initializeAuth demo_base64 demo_date opened))
  = [Reject 3%nat AuthInitTimeout].
Proof.
  apply (request_without_response_times_out demo_parse demo_buffer demo_base64
           demo_date demo_hmac demo_cipher demo_gcm opened);
    [reflexivity|apply fresh_ids_opened].
Defined.

Lemma requests_in_the_same_second_share_a_tag_witness :
  let w2 := initializeAuth demo_base64 demo_date
              (advance 1 (initializeAuth demo_base64 demo_date opened)) in
  added w2 (fire 4 w2) = [Reject 3%nat AuthInitTimeout]
  /\ added (fire 4 w2) (fire 6 (fire 4 w2)) = [].
Proof.
  pose proof (requests_in_the_same_second_share_a_tag demo_parse demo_buffer
                demo_base64 demo_date demo_hmac demo_cipher demo_cipher demo_gcm
                Binary.string_keys opened 1 [] eq_refl fresh_ids_opened eq_refl) as H.
  cbv zeta in H. destruct H as (_ & _ & H3 & _ & H5 & _). split; [exact H3|exact H5].
Defined.

Lemma request_on_a_socket_that_is_not_open_witness :
  added fresh (initializeAuth demo_base64 demo_date fresh)
  = [Throws WebSocketNotConnected].
Proof.
  apply (request_on_a_socket_that_is_not_open demo_parse demo_buffer demo_base64
           demo_date demo_hmac demo_cipher demo_gcm fresh
           (mkCredentials None None None [] [])).
  reflexivity.
Defined.

(** *** Binary frames *)

Lemma split_at_comma_spec d : forall before a b,
  split_at_comma d before = Some (a, b) ->
  exists tagBytes, a = before ++ tagBytes /\ d = tagBytes ++ x2c :: b
    /\ x2c ∉ tagBytes.
Proof.
  induction d as [|c d IH]; intros before a b H; simpl in H; [done|].
  destruct (Z.eqb_spec (byte_to_Z c) 44) as [Hc|Hc].
  - injection H as <- <-. exists []. rewrite app_nil_r. split; [done|].
    split; [|apply not_elem_of_nil]. f_equal.
    destruct c; try done; vm_compute in Hc; discriminate.
  - destruct (IH _ _ _ H) as (tagBytes & -> & -> & Hnot).
    exists (c :: tagBytes). rewrite <- app_assoc. split; [done|]. split; [done|].
    apply not_elem_of_cons. split; [|done]. intros <-. by apply Hc.
Qed.

(** X23.  A binary frame is authenticated before anything is made of it:
    [_handleBinaryMessage] either leaves the manager as it is, or the
    manager is authenticated, the frame is a tag, the first comma and a
    content whose first 32 bytes are the HMAC of the rest under the MAC key,
    the rest decrypts and decodes to a node, and the one thing done is to
    emit ['binary_message'] with the tag and the node. *)
Theorem binary_frames_are_authenticated_first
    (hmac_sha256 : list byte -> list byte -> list byte)
    (aes_cbc_decrypt :
       list byte -> list byte -> list byte -> Result Utils.CryptoError (list byte))
    (toPropertyKey : Binary.Value -> option string)
    (d : list byte) (w : World) :
  let w' := _handleBinaryMessage hmac_sha256 aes_cbc_decrypt toPropertyKey d w in
  w' = w
  \/ (isAuthenticated w = true
      /\ exists tagBytes content macKey encKey plain node,
           d = tagBytes ++ x2c :: content /\ (x2c ∉ tagBytes)
           /\ Manager.macKey w = Some macKey /\ Manager.encKey w = Some encKey
           /\ take 32 content = hmac_sha256 macKey (drop 32 content)
           /\ Utils.aesDecrypt aes_cbc_decrypt encKey (drop 32 content) = Ok plain
           /\ Binary.decode toPropertyKey plain = Ok node
           /\ w' = emit "binary_message"
                     (BinaryArg (string_of_list_byte tagBytes) node) w).
Proof.
  intros w'. subst w'. unfold _handleBinaryMessage.
  destruct (isAuthenticated w) eqn:Hauth; [|by left]. simpl.
  destruct (split_at_comma d []) as [[tagBytes content]|] eqn:Hsplit; [|by left].
  destruct (Manager.encKey w) as [ek|] eqn:Hek; [|by left].
  destruct (Manager.macKey w) as [mk|] eqn:Hmk; [|by left].
  destruct (Utils.whatsappDecrypt _ _ _ _ _) as [plain|] eqn:Hdec; [|by left].
  destruct (Binary.decode _ _) as [node|] eqn:Hnode; [|by left].
  right. split; [done|].
  apply split_at_comma_spec in Hsplit as (tagBytes' & -> & -> & Hnot).
  rewrite UtilsFacts.whatsappDecrypt_cases in Hdec.
  destruct (decide (take 32 content = hmac_sha256 mk (drop 32 content))) as [Heq|];
    [|by repeat case_decide].
  exists tagBytes', content, mk, ek, plain, node. by split_and!.
Qed.

(** A frame that passes: tag [7], the constant MAC of the toy platform, a
    zero IV and one block that unpads to the byte of [null]. *)
Example binary_frame_accepted :
  let w := set_macKey (Some []) (set_encKey (Some []) (set_isAuthenticated true opened)) in
  let d := [x37; x2c] ++ replicate 32 x00 ++ replicate 16 x00 ++ [x00; x01] in
  added w (_handleBinaryMessage demo_hmac demo_cipher (fun _ => None) d w)
  = [Emit "binary_message" (BinaryArg "7" Binary.VNull)].
Proof. vm_compute. reflexivity. Qed.

(** *** A pong in time *)

Lemma disarm_last (l : list Timer) (t : Timer) :
  Forall (fun t' => (timer_id t' < timer_id t)%nat) l ->
  disarm (timer_id t) (l ++ [t]) = l
  /\ filter (fun t' => timer_id t' = timer_id t) l = [].
Proof.
  intros Hl. destruct (fresh_timer_filter l (timer_id t) Hl) as [Hf Hd].
  split; [|done]. unfold disarm in *. rewrite filter_app, Hd.
  by rewrite filter_cons_False, filter_nil, app_nil_r by (intros H; by apply H).
Qed.

Lemma monitorHealth_recent (w : World) :
  now w - lastActivity w <= keepAliveInterval w * 3 -> monitorHealth w = w.
Proof.
  intros H. unfold monitorHealth.
  by destruct (Z.gtb_spec (now w - lastActivity w) (keepAliveInterval w * 3)); [lia|].
Qed.

(** X24.  A probe on an open socket sends ['?,,'] and a ping and arms the
    pong deadline of five seconds; the pong handler disarms that deadline,
    which then cannot fire, so the connection state stays as it was and the
    timers armed are those armed before the probe (a deadline of an earlier
    probe among them, if one was still pending: its handle was overwritten,
    and the pong does not clear it).  The health monitor leaves the manager
    alone as long as no more than three keep-alive intervals have passed
    since the pong. *)
Theorem pong_in_time_cancels_the_deadline (w : World) :
  socket_open w = true -> fresh_ids w ->
  let deadline := mkTimer (next_id w) PongDeadline 5000%Q false in
  let w1 := keepAlivePing w in
  let w2 := _handlePong w1 in
  added w w1 = [WsSendText "?,,"; WsPing; SetTimer deadline]
  /\ armed w1 = armed w ++ [deadline]
  /\ pongTimeout w1 = Some (next_id w)
  /\ added w1 w2 = [ClearTimer (next_id w)]
  /\ armed w2 = armed w
  /\ pongTimeout w2 = None
  /\ connectionState w2 = connectionState w
  /\ fire (next_id w) w2 = w2
  /\ (forall ms, 0 <= ms <= 3 * keepAliveInterval w ->
        monitorHealth (advance ms w2) = advance ms w2).
Proof.
  intros Hopen (Harmed & _ & _) deadline w1 w2.
  unfold socket_open in Hopen. destruct (ws w) as [[]|] eqn:Hws; try discriminate.
  destruct (disarm_last (armed w) deadline Harmed) as [Hd Hf].
  assert (E1 : w1 = set_pongTimeout (Some (next_id w))
                      (set_trace (trace w ++ [WsSendText "?,,"; WsPing; SetTimer deadline])
                         (set_next_id (S (next_id w))
                            (set_armed (armed w ++ [deadline])
                               (set_lastActivity (now w) w))))).
  { subst w1 deadline. unfold keepAlivePing, socket_open. rewrite Hws.
    clear. destruct w. unfold setTimeout, setTimer. world_eq. }
  assert (E2 : w2 = set_lastActivity (now w)
                      (set_pongTimeout None
                         (set_trace (trace w1 ++ [ClearTimer (next_id w)])
                            (set_armed (armed w) w1)))).
  { subst w2. clearbody w1. subst w1. unfold _handlePong, clear_handle, clearTimer.
    simpl in *. rewrite Hd. clear. destruct w. world_eq. }
  clearbody w2 w1. subst w2 w1. simpl in *.
  split_and!; try reflexivity.
  - unfold added. simpl. by rewrite drop_app_length.
  - unfold added. simpl. by rewrite drop_app_length.
  - unfold fire. simpl. by rewrite Hf.
  - intros ms Hms.
    apply monitorHealth_recent. clear -Hms. destruct w. simpl in *. lia.
Qed.

Lemma pong_in_time_cancels_the_deadline_witness :
  armed (_handlePong (keepAlivePing opened)) = armed opened
  /\ connectionState (_handlePong (keepAlivePing opened)) = connected.
Proof.
  destruct (pong_in_time_cancels_the_deadline opened eq_refl fresh_ids_opened)
    as (_ & _ & _ & _ & Ha & _ & Hc & _).
  split; [exact Ha | exact Hc].
Defined.

End ManagerMoreFacts.

(** ** More of the message queue *)

Module ProductionMoreFacts.
Import Production ProductionFacts.

Lemma run_snoc ops op c : run (ops ++ [op]) c = step (run ops c) op.
Proof. unfold run. by rewrite foldl_app. Qed.

Lemma run_app ops1 ops2 c : run (ops1 ++ ops2) c = run ops2 (run ops1 c).
Proof. unfold run. by rewrite foldl_app. Qed.

Lemma sound_new : sound newClient.
Proof.
  unfold sound; simpl. split_and!; try done. apply NoDup_nil_2.
Qed.

Lemma sound_step c op : sound c -> sound (step c op).
Proof.
  intros Hsound. pose proof Hsound as (Hact & Hnd & Hlt & Haw).
  destruct op as [f| |o| |b]; simpl.
  - unfold sound; simpl. split_and!; try done.
    + rewrite fmap_app. simpl. apply NoDup_app. split_and!; [done| |apply NoDup_singleton].
      intros p Hin ->%list_elem_of_singleton.
      apply list_elem_of_fmap in Hin as (x & Hx & Hin).
      rewrite Forall_forall in Hlt. specialize (Hlt x Hin). lia.
    + apply Forall_app. split.
      * eapply Forall_impl; [exact Hlt|]. simpl. lia.
      * repeat constructor.
    + intros m Hm. destruct (Haw m Hm) as [Hnot Hn]. split; [|lia].
      rewrite fmap_app, elem_of_app. simpl. intros [?|Hin]; [done|].
      apply list_elem_of_singleton in Hin. lia.
  - unfold _processMessageQueue.
    destruct (messagingActive c || bool_decide (messageQueue c = []) || negb (isReady c));
      [done|].
    destruct (messageQueue c) as [|item rest] eqn:Eq; [done|].
    unfold sound; simpl. rewrite fmap_cons in Hnd. apply NoDup_cons in Hnd as [Hnot Hnd].
    inversion Hlt as [|? ? Hitem Hrest]; subst.
    split_and!; try done.
    intros m [= <-]. done.
  - unfold _processMessageQueue_resume.
    destruct (awaiting c) as [dequeued|] eqn:E; [|done].
    assert (Hs : forall t, sound (mkClient (messageQueue c) false (isReady c)
                    (maxMessageRetries c) None (next_promise c) t)).
    { intros t. unfold sound; simpl. by split_and!. }
    destruct o as [result|error]; simpl; [apply Hs|].
    destruct (last (messageQueue c)); apply Hs.
  - unfold sound; simpl. split_and!; try done.
    + apply NoDup_nil_2.
    + intros m Hm. destruct (Haw m Hm). split; [apply not_elem_of_nil|done].
  - done.
Qed.

Lemma sound_run ops : forall c, sound c -> sound (run ops c).
Proof.
  induction ops as [|op ops IH]; intros c Hc; [done|].
  apply (IH (step c op)). by apply sound_step.
Qed.

Lemma sound_reachable c : reachable c -> sound c.
Proof. intros [ops ->]. apply sound_run, sound_new. Qed.

(** X25.  One message function at a time: on a client that only the
    operations of the queue have acted on, while a message function has
    been called and has not settled, a tick of the rate-limit timer does
    nothing, whatever is queued. *)
Theorem one_message_function_at_a_time (c : Client) (m : QueuedMessage) :
  reachable c -> awaiting c = Some m ->
  _processMessageQueue c = c.
Proof.
  intros Hr Hm. destruct (sound_reachable c Hr) as (Hact & _).
  unfold _processMessageQueue.
  rewrite (proj2 Hact) by (rewrite Hm; done). done.
Qed.

Lemma one_message_function_at_a_time_witness :
  _processMessageQueue (_processMessageQueue two_queued)
  = _processMessageQueue two_queued.
Proof.
  apply (one_message_function_at_a_time _ (mkQueued 7 0 0 3)).
  - by exists [Enqueue 7; Enqueue 8; Ready true; Tick].
  - reflexivity.
Defined.

(** X26.  A message function that returns: a tick takes the message [m] off
    a ready queue and calls its function; whatever is enqueued or reset
    before the function returns, the promise [_queueMessage] returned for
    [m] is then resolved with the result, nothing else is done, and the
    callbacks of that promise are not invoked again at any later time. *)
Theorem returned_result_resolves_the_message
    (c : Client) (m : QueuedMessage) (rest : list QueuedMessage)
    (during later : list Op) (result : Z) :
  messageQueue c = m :: rest ->
  messagingActive c = false -> isReady c = true -> awaiting c = None ->
  NoDup ((promise <$> m :: rest)) ->
  Forall (fun x => (promise x < next_promise c)%nat) (m :: rest) ->
  Forall (fun op => forall o, op <> Settled o) during ->
  let c1 := _processMessageQueue c in
  let c2 := run during c1 in
  let c3 := _processMessageQueue_resume (Ok result) c2 in
  trace c3 = trace c ++ [Call (function m); Resolve (promise m) result]
  /\ messagingActive c3 = false
  /\ count_settles (promise m) (trace (run later c3))
     = S (count_settles (promise m) (trace c)).
Proof.
  intros Hq Hact Hready Haw Hnd Hlt Hduring c1 c2 c3.
  assert (Hc1 : c1 = log (Call (function m))
                       (mkClient rest true (isReady c) (maxMessageRetries c) (Some m)
                          (next_promise c) (trace c))).
  { subst c1. unfold _processMessageQueue. by rewrite Hact, Hready, Hq. }
  assert (Hp1 : pending m c1).
  { rewrite Hc1. unfold pending; simpl. repeat split; try done.
    - by inversion Hnd.
    - by inversion Hlt. }
  destruct (pending_run m during c1 Hduring Hp1) as [(Ha2 & Hact2 & Hq2 & Hn2) Ht2].
  fold c2 in Ha2, Hact2, Hq2, Hn2, Ht2.
  assert (Ht3 : trace c3 = trace c ++ [Call (function m); Resolve (promise m) result]).
  { subst c3. unfold _processMessageQueue_resume. rewrite Ha2. simpl.
    rewrite Ht2, Hc1. simpl. by rewrite <- app_assoc. }
  assert (Ho3 : orphan (promise m) c3).
  { subst c3. unfold _processMessageQueue_resume. rewrite Ha2. by unfold orphan. }
  split; [done|]. split.
  { subst c3. unfold _processMessageQueue_resume. by rewrite Ha2. }
  rewrite (orphan_run _ later c3 Ho3), Ht3, count_settles_app.
  unfold count_settles at 2. rewrite filter_cons_False by done.
  rewrite filter_cons_True by (simpl; by rewrite bool_decide_true). simpl. lia.
Qed.

Lemma returned_result_resolves_the_message_witness :
  trace (_processMessageQueue_resume (Ok 200) (_processMessageQueue two_queued))
  = [Call 7; Resolve 0 200].
Proof.
  pose proof (returned_result_resolves_the_message two_queued
                (mkQueued 7 0 0 3) [mkQueued 8 1 0 3] [] [] 200
                eq_refl eq_refl eq_refl eq_refl) as H.
  simpl in H.
  destruct H as (H & _).
  - simpl. apply NoDup_cons. split; [|apply NoDup_singleton].
    intros Hin%list_elem_of_singleton. discriminate.
  - repeat constructor.
  - constructor.
  - exact H.
Defined.

(** X27.  Messages that are queued when [_resetState] runs are dropped
    without a word: the callbacks of their promises are not invoked by the
    reset nor at any later time, so the [sendMessage] calls that wait for
    them never return. *)
Theorem reset_abandons_the_queued_messages
    (c : Client) (m : QueuedMessage) (later : list Op) :
  reachable c -> m ∈ messageQueue c ->
  count_settles (promise m) (trace (run later (_resetState c)))
  = count_settles (promise m) (trace c).
Proof.
  intros Hr Hm. destruct (sound_reachable c Hr) as (_ & _ & Hlt & Haw).
  rewrite orphan_run; [done|].
  unfold orphan; simpl. split_and!.
  - apply not_elem_of_nil.
  - intros x Hx Hp. destruct (Haw x Hx) as [Hnot _]. apply Hnot. rewrite Hp.
    apply list_elem_of_fmap. by exists m.
  - rewrite Forall_forall in Hlt. by apply Hlt.
Qed.

Lemma reset_abandons_the_queued_messages_witness :
  count_settles 1
    (trace (run [Ready true; Tick; Settled (Ok 200); Enqueue 9; Tick; Settled (Ok 201)]
              (_resetState two_queued)))
  = 0%nat.
Proof.
  apply (reset_abandons_the_queued_messages two_queued (mkQueued 8 1 0 3)).
  - by exists [Enqueue 7; Enqueue 8; Ready true].
  - apply list_elem_of_In. simpl. tauto.
Defined.

(** The calls made and the messages still queued or in flight, together,
    are the messages handed to [_queueMessage], in that order. *)
Lemma calls_app l1 l2 : calls (l1 ++ l2) = calls l1 ++ calls l2.
Proof. unfold calls. apply omap_app. Qed.

Lemma enqueued_app l1 l2 : enqueued (l1 ++ l2) = enqueued l1 ++ enqueued l2.
Proof. unfold enqueued. apply omap_app. Qed.

Lemma fifo_invariant ops :
  Forall (fun op => op <> Reset) ops ->
  calls (trace (run ops newClient)) ++ (function <$> messageQueue (run ops newClient))
  = enqueued ops.
Proof.
  induction ops as [|op ops IH] using rev_ind; intros Hops; [done|].
  apply Forall_app in Hops as [Hops Hop]. inversion Hop as [|? ? Hne _]; subst.
  specialize (IH Hops). rewrite run_snoc, enqueued_app, <- IH.
  generalize (run ops newClient) as c. clear IH. intros [queue active ready retries held next t].
  destruct op as [f| |o| |b]; simpl.
  - rewrite fmap_app, app_assoc. done.
  - rewrite app_nil_r. unfold _processMessageQueue. simpl.
    destruct (active || bool_decide (queue = []) || negb ready); [done|].
    destruct queue as [|item rest]; [done|]. simpl.
    rewrite calls_app. simpl. by rewrite <- app_assoc.
  - rewrite app_nil_r. unfold _processMessageQueue_resume. simpl.
    destruct held; [|done].
    destruct o as [result|error]; simpl.
    + by rewrite calls_app, app_nil_r.
    + destruct (last queue); simpl; [|done].
      by rewrite calls_app, app_nil_r.
  - done.
  - by rewrite app_nil_r.
Qed.

(** X28.  First in, first out: as long as the state is not reset, the message
    functions are called in the order in which they were handed to
    [_queueMessage], each at most once, and none is called that was not
    queued: the functions called so far are the first ones that were
    enqueued. *)
Theorem messages_are_sent_in_the_order_queued (ops : list Op) :
  Forall (fun op => op <> Reset) ops ->
  calls (trace (run ops newClient))
  = take (length (calls (trace (run ops newClient)))) (enqueued ops).
Proof.
  intros Hops. rewrite <- (fifo_invariant ops Hops).
  by rewrite take_app_length.
Qed.

Lemma messages_are_sent_in_the_order_queued_witness :
  calls (trace (run [Enqueue 7; Enqueue 8; Ready true; Tick; Settled (Err 500);
                     Enqueue 9; Tick] newClient))
  = [7; 8]%nat.
Proof.
  rewrite (messages_are_sent_in_the_order_queued
             [Enqueue 7; Enqueue 8; Ready true; Tick; Settled (Err 500);
              Enqueue 9; Tick]).
  - reflexivity.
  - repeat constructor; discriminate.
Defined.

End ProductionMoreFacts.
